(** * shape: a structural summary of nested Python data

    A shallow embedding of [src/shape/__init__.py].  The module has one
    public function, [shape], whose body is a pipeline of five local
    functions ([_get_paths], [_apply_patterns], [_describe_numbers],
    [_collapse_paths], [_merge_paths]) closed over the keyword arguments
    of the call.  Each local function is embedded under its own name;
    code that can raise returns a [result].

    The paths are keys of a [dict] in [_collapse_paths], and their items
    are keys of the nested dicts of [_merge_paths].  An item is an
    [Index] or a [str]; the class [Index] hashes to its integer and its
    [__eq__] reads [other.i], so a lookup that meets a [str] of the same
    hash raises [AttributeError].  The lookups are embedded with their
    hashes for that reason. *)

From Stdlib Require Import List String Ascii ZArith Bool Arith Lia.
From Stdlib Require Import Permutation Sorted SpecFloat.
Import ListNotations.

Local Open Scope string_scope.
Local Open Scope list_scope.

(** ** Exceptions *)

(** The exceptions the module's code can raise.  [ReError] stands for
    whatever [re.sub] raises on a pattern or replacement it rejects. *)
Inductive exn : Set :=
| TypeError
| AttributeError
| IndexError
| KeyError
| ReError.

Inductive result (A : Type) : Type :=
| Ok (a : A)
| Err (e : exn).

Arguments Ok {A} a.
Arguments Err {A} e.

Definition bind {A B : Type} (r : result A) (k : A -> result B) : result B :=
  match r with
  | Ok a => k a
  | Err e => Err e
  end.

Notation "x <- r ;; k" := (bind r (fun x => k))
  (at level 61, r at next level, right associativity).

(** A list comprehension whose body can raise: the elements are
    evaluated left to right and the first exception escapes. *)
Fixpoint mapM {A B : Type} (f : A -> result B) (l : list A) : result (list B) :=
  match l with
  | [] => Ok []
  | a :: l' => b <- f a ;; bs <- mapM f l' ;; Ok (b :: bs)
  end.

(** ** Input values *)

(** The Python values [shape] tells apart.  [VSeq] covers the five types
    the first [isinstance] test of [_get_paths] lists (generator, list,
    map, filter, tuple): all are walked with [enumerate].  [VDict] keeps
    the entries in insertion order; keys are strings, as in decoded JSON.
    Everything else is a scalar; [VOther] is an object of any other class,
    carried by its class name.  A float is an IEEE 754 datum, a [str] the
    bytes of its UTF-8 encoding. *)
#[warnings="-register-all"]
Inductive Value : Type :=
| VNone
| VBool (b : bool)
| VInt (z : Z)
| VFloat (f : spec_float)
| VStr (s : string)
| VOther (typename : string)
| VSeq (elems : list Value)
| VDict (items : list (string * Value)).

(** ** Path segments *)

(** An element of a path tuple: an instance of the local class [Index]
    or a [str] (a mapping key, or the type label that ends the path). *)
Inductive Seg : Set :=
| Index (i : nat)
| Str (s : string).

Definition Path : Set := list Seg.

(** Two segments are the same value: indices of the same integer, or
    strings of the same characters.  No Python operation is meant; the
    comparisons the code makes are [seg_eq], [seg_lt] and [key_eq]. *)
Definition seg_eqb (x y : Seg) : bool :=
  match x, y with
  | Index i, Index j => Nat.eqb i j
  | Str s, Str t => String.eqb s t
  | _, _ => false
  end.

Fixpoint path_eqb (p q : Path) : bool :=
  match p, q with
  | [], [] => true
  | x :: p', y :: q' => seg_eqb x y && path_eqb p' q'
  | _, _ => false
  end.

(** ** Hashes

    A [dict] compares the hashes of two keys before it calls [__eq__]
    on them, and calls it only when the hashes are equal.
    [Index.__hash__] returns the integer of the index.  The hash of the
    empty [str] is 0 in CPython, whatever the hash seed of the process;
    the hash of any other [str] depends on the seed and is taken to
    differ from the hash of every index and of every other [str].  The
    hash of a tuple is computed from its length and the hashes of its
    items, and is taken to differ wherever these do. *)
Inductive Hash : Set :=
| HInt (n : nat)
| HStr (s : string).

Definition seg_hash (x : Seg) : Hash :=
  match x with
  | Index i => HInt i
  | Str EmptyString => HInt 0
  | Str s => HStr s
  end.

Definition hash_eqb (h1 h2 : Hash) : bool :=
  match h1, h2 with
  | HInt n, HInt m => Nat.eqb n m
  | HStr s, HStr t => String.eqb s t
  | _, _ => false
  end.

Definition tuple_hash (p : Path) : list Hash := map seg_hash p.

Fixpoint hashes_eqb (l1 l2 : list Hash) : bool :=
  match l1, l2 with
  | [], [] => true
  | h1 :: l1', h2 :: l2' => hash_eqb h1 h2 && hashes_eqb l1' l2'
  | _, _ => false
  end.

(** ** Comparison of tuples, as [sorted] performs it *)

(** [x == y] on two segments, called directly (no hash in between):
    [Index.__eq__] reads [other.i], which a [str] does not have; with the
    [str] on the left, [str.__eq__] declines and the reflected
    [Index.__eq__] runs. *)
Definition seg_eq (x y : Seg) : result bool :=
  match x, y with
  | Index i, Index j => Ok (Nat.eqb i j)
  | Str s, Str t => Ok (String.eqb s t)
  | Index _, Str _ => Err AttributeError
  | Str _, Index _ => Err AttributeError
  end.

(** [p == q] on two tuples: the items are compared with [==] from the
    left until two differ; if none do, the tuples are equal when they
    have the same length. *)
Fixpoint tuple_eq (p q : Path) : result bool :=
  match p, q with
  | x :: p', y :: q' =>
      e <- seg_eq x y ;;
      if e then tuple_eq p' q' else Ok false
  | [], [] => Ok true
  | _, _ => Ok false
  end.

(** What a [dict] does with a key [k] it holds when [key] is looked
    up: a key of another hash is passed over, a key of the same hash is
    compared, [k == key]. *)
Definition key_eq (k key : Seg) : result bool :=
  if hash_eqb (seg_hash k) (seg_hash key) then seg_eq k key else Ok false.

Definition tuple_key_eq (p key : Path) : result bool :=
  if hashes_eqb (tuple_hash p) (tuple_hash key) then tuple_eq p key
  else Ok false.

(** [x < y] on two segments: [Index.__lt__] compares the integers and
    fails on a [str]; a [str] on the left finds no reflected [__gt__].
    Two strings compare by code points, which is the order of their
    UTF-8 bytes. *)
Definition seg_lt (x y : Seg) : result bool :=
  match x, y with
  | Index i, Index j => Ok (Nat.ltb i j)
  | Str s, Str t => Ok (String.ltb s t)
  | Index _, Str _ => Err AttributeError
  | Str _, Index _ => Err TypeError
  end.

(** [p < q] on two tuples: the first position where the items are not
    [==] decides by [<]; if there is none the shorter tuple is smaller. *)
Fixpoint tuple_lt (p q : Path) : result bool :=
  match p, q with
  | x :: p', y :: q' =>
      e <- seg_eq x y ;;
      if e then tuple_lt p' q' else seg_lt x y
  | [], _ :: _ => Ok true
  | _, [] => Ok false
  end.

(** [sorted(paths)]: a stable ascending sort that uses only [<].  The
    element being placed goes before the first element it is smaller
    than, so equal elements keep their order. *)
Fixpoint insert_sorted (p : Path) (l : list Path) : result (list Path) :=
  match l with
  | [] => Ok [p]
  | q :: l' =>
      b <- tuple_lt p q ;;
      if b then Ok (p :: q :: l')
      else l'' <- insert_sorted p l' ;; Ok (q :: l'')
  end.

Fixpoint sorted_onto (acc : list Path) (paths : list Path) : result (list Path) :=
  match paths with
  | [] => Ok acc
  | p :: paths' => acc' <- insert_sorted p acc ;; sorted_onto acc' paths'
  end.

Definition sorted (paths : list Path) : result (list Path) :=
  sorted_onto [] paths.

(** ** The pipeline of [shape]

    The local functions read [key_patterns] and [describe_numbers] from
    the enclosing call; here they are the section's variables, and
    [re_sub] is the standard library's [re.sub(pattern, repl, string)],
    which either returns the rewritten string or raises. *)

Section Shape.

Variable re_sub : string -> string -> string -> result string.

(** [None] when the argument is left at its default. *)
Variable key_patterns : option (list (string * string)).
Variable describe_numbers : bool.

(** *** [apply_patterns] (module level) *)

(** The [for] loop over [patterns.items()]. *)
Fixpoint sub_each (items : list (string * string)) (data : string) : result string :=
  match items with
  | [] => Ok data
  | (pattern, replace_with) :: items' =>
      data' <- re_sub pattern replace_with data ;;
      sub_each items' data'
  end.

(** [patterns] is falsy when it is [None] or the empty dict; [data] is
    rewritten only when it is a [str]. *)
Definition apply_patterns (patterns : option (list (string * string)))
                          (data : Seg) : result Seg :=
  match patterns, data with
  | Some ((_ :: _) as items), Str s => s' <- sub_each items s ;; Ok (Str s')
  | _, _ => Ok data
  end.

(** *** [_get_paths] *)

(** [data == 0] for an [int] or a [float]: both float zeros equal 0,
    a NaN does not. *)
Definition is_zero (data : Value) : bool :=
  match data with
  | VInt z => Z.eqb z 0
  | VFloat (S754_zero _) => true
  | _ => false
  end.

(** [type(data).__name__] for a scalar. *)
Definition type_name (data : Value) : string :=
  match data with
  | VNone => "NoneType"
  | VBool _ => "bool"
  | VInt _ => "int"
  | VFloat _ => "float"
  | VStr _ => "str"
  | VOther typename => typename
  | VSeq _ => "list"
  | VDict _ => "dict"
  end.

(** [typ in (int, float)]: the exact type, so [bool] is not among them. *)
Definition is_number (data : Value) : bool :=
  match data with
  | VInt _ | VFloat _ => true
  | _ => false
  end.

(** The [else] branch: the one-segment path of a scalar. *)
Definition scalar_label (data : Value) : string :=
  if describe_numbers && is_number data
  then type_name data ++ ":" ++ (if is_zero data then "zero" else "nonzero")
  else type_name data.

(** The body of the [for k,v in kv_iter] loop for one entry, given
    the paths of [v]. *)
Definition extend (prefix : Path) (k : Seg) (sub : list Path) : list Path :=
  let kv_paths := map (fun p => k :: p) sub in
  map (fun kvp => prefix ++ kvp) kv_paths.

Fixpoint _get_paths (data : Value) (prefix : Path) {struct data} : list Path :=
  match data with
  | VSeq elems =>
      (fix enumerate (i : nat) (l : list Value) {struct l} : list Path :=
         match l with
         | [] => []
         | v :: l' =>
             extend prefix (Index i) (_get_paths v prefix) ++ enumerate (S i) l'
         end) 0 elems
  | VDict items =>
      (fix entries (l : list (string * Value)) {struct l} : list Path :=
         match l with
         | [] => []
         | (k, v) :: l' =>
             extend prefix (Str k) (_get_paths v prefix) ++ entries l'
         end) items
  | _ => [[Str (scalar_label data)]]
  end.

(** *** [_apply_patterns] *)

Definition _apply_patterns (paths : list Path) : result (list Path) :=
  mapM (fun path => mapM (apply_patterns key_patterns) path) paths.

(** *** [_describe_numbers] *)

(** [path[-1]]; an empty tuple has no last item. *)
Definition last_item (path : Path) : result Seg :=
  match rev path with
  | [] => Err IndexError
  | x :: _ => Ok x
  end.

(** A segment is an [Index] or a [str], never an [int] or a [float],
    so the [isinstance] test fails on every path and the path is
    appended as it is. *)
Definition _describe_numbers (paths : list Path) : result (list Path) :=
  if negb describe_numbers then Ok paths
  else mapM (fun path => _ <- last_item path ;; Ok path) paths.

(** *** [_collapse_paths] *)

Definition collapse_seg (x : Seg) : Seg :=
  match x with
  | Index _ => Index 0
  | Str _ => x
  end.

(** The lookup of the tuple [key] in a dict that holds the tuples
    [seen], oldest first: the keys held are tried in that order until
    one is equal to [key]; a comparison that raises ends the lookup. *)
Fixpoint tuple_in (key : Path) (seen : list Path) : result bool :=
  match seen with
  | [] => Ok false
  | p :: seen' =>
      e <- tuple_key_eq p key ;;
      if e then Ok true else tuple_in key seen'
  end.

(** [dict.fromkeys]: each path is looked up in turn; a key already
    present keeps its place, a new key goes last. *)
Fixpoint fromkeys (seen : list Path) (paths : list Path) : result (list Path) :=
  match paths with
  | [] => Ok seen
  | p :: paths' =>
      found <- tuple_in p seen ;;
      if found then fromkeys seen paths' else fromkeys (seen ++ [p]) paths'
  end.

Definition _collapse_paths (paths : list Path) : result (list Path) :=
  let paths := map (map collapse_seg) paths in
  fromkeys [] paths.

(** *** [_merge_paths] *)

(** The accumulator [merged] while it is being filled: a [dict] in
    insertion order whose values are dicts again or path items. *)
#[warnings="-register-all"]
Inductive Node : Type :=
| NLeaf (x : Seg)
| NDict (items : list (Seg * Node)).

(** The lookup of [key] in a dict given by its entries in insertion
    order ([key in cur], [cur[key]]): the keys held are tried in that
    order until one is equal to [key]; a comparison that raises ends
    the lookup.  [None] stands for an absent key. *)
Fixpoint dict_get {V : Type} (key : Seg) (d : list (Seg * V))
  : result (option V) :=
  match d with
  | [] => Ok None
  | (k, v) :: d' =>
      e <- key_eq k key ;;
      if e then Ok (Some v) else dict_get key d'
  end.

(** [cur[key] = node]: the same lookup; a key already present keeps its
    place and gets the new value, a new key goes last. *)
Fixpoint dict_set {V : Type} (key : Seg) (node : V) (d : list (Seg * V))
  : result (list (Seg * V)) :=
  match d with
  | [] => Ok [(key, node)]
  | (k, v) :: d' =>
      e <- key_eq k key ;;
      if e then Ok ((k, node) :: d')
      else d'' <- dict_set key node d' ;; Ok ((k, v) :: d'')
  end.

(** [cur[key] == 'NoneType']: a dict is not equal to a string, and
    [Index.__eq__] fails on one. *)
Definition is_NoneType (n : Node) : result bool :=
  match n with
  | NLeaf (Str s) => Ok (String.eqb s "NoneType")
  | NLeaf (Index _) => Err AttributeError
  | NDict _ => Ok false
  end.

(** The inner [for i in range(len(path) - 1)] loop from position [i]
    on, where [path] is what is left of the tuple ([path[i:]]) and
    [cur] the node reached.  The result is [cur] after the loop has
    written into it and below it.  [found] is what [key not in cur]
    finds and [cur[key]] reads, [next] what [cur = cur[key]] reads.
    The child is a dict the following turns write into in place; here
    it is written back under its key once they are done.  When [cur] is
    a string both [key not in cur] outcomes end in a [TypeError] (a
    string has no item assignment and no string index), as does [in] on
    an [Index]. *)
Fixpoint descend (path : Path) (cur : Node) {struct path} : result Node :=
  match path with
  | key :: ((r0 :: rest') as rest) =>
      let node := match rest' with [] => NLeaf r0 | _ :: _ => NDict [] end in
      match cur with
      | NDict d =>
          found <- dict_get key d ;;
          d1 <- match found with
                | None => dict_set key node d
                | Some bound =>
                    null <- is_NoneType bound ;;
                    if null then dict_set key node d else Ok d
                end ;;
          next <- dict_get key d1 ;;
          match next with
          | Some child =>
              child' <- descend rest child ;;
              d2 <- dict_set key child' d1 ;;
              Ok (NDict d2)
          | None => Err KeyError
          end
      | NLeaf _ => Err TypeError
      end
  | _ => Ok cur
  end.

Fixpoint merge_each (paths : list Path) (merged : Node) : result Node :=
  match paths with
  | [] => Ok merged
  | path :: paths' =>
      merged' <- descend path merged ;;
      merge_each paths' merged'
  end.

(** What [shape] returns: a string (or another path item), a dict, or
    a list. *)
#[warnings="-register-all"]
Inductive Shape : Type :=
| SLeaf (x : Seg)
| SDict (items : list (Seg * Shape))
| SList (elems : list Shape).

Fixpoint _convert_lists (coll : Node) : Shape :=
  match coll with
  | NLeaf x => SLeaf x
  | NDict [] => SDict []
  | NDict (((Index _, _) :: _) as items) =>
      SList (map (fun '(_, v) => _convert_lists v) items)
  | NDict (((Str _, _) :: _) as items) =>
      SDict (map (fun '(k, v) => (k, _convert_lists v)) items)
  end.

Definition _merge_paths (paths : list Path) : result Shape :=
  merged <- merge_each paths (NDict []) ;;
  Ok (_convert_lists merged).

(** *** The body of [shape] *)

Variable sort : bool.

(** Lines 88 to 93: the paths handed to [_merge_paths]. *)
Definition collapsed_paths (data : Value) : result (list Path) :=
  let paths := _get_paths data [] in
  paths <- _apply_patterns paths ;;
  paths <- _describe_numbers paths ;;
  paths <- (if sort then sorted paths else Ok paths) ;;
  _collapse_paths paths.

Definition shape (data : Value) : result Shape :=
  paths <- collapsed_paths data ;;
  _merge_paths paths.

End Shape.

(** Outside the section the functions take what they read from the call
    as their first arguments: [shape re_sub key_patterns describe_numbers
    sort data] is the call [shape(data, key_patterns, describe_numbers,
    sort)]. *)


(** ** Keys told apart by value

    The same loops with every key comparison replaced by [seg_eqb]:
    what [_collapse_paths], [_merge_paths] and [shape] compute wherever
    no lookup raises.  These are not functions of the module; they are
    what the properties of the module's functions are proved through. *)

(** The value bound to a key, if any. *)
Fixpoint assoc_get {V : Type} (key : Seg) (d : list (Seg * V)) : option V :=
  match d with
  | [] => None
  | (k, v) :: d' => if seg_eqb k key then Some v else assoc_get key d'
  end.

(** The entries with [node] bound to [key]: in the place of the key if
    it is there, last otherwise. *)
Fixpoint assoc_set {V : Type} (key : Seg) (node : V) (d : list (Seg * V))
  : list (Seg * V) :=
  match d with
  | [] => [(key, node)]
  | (k, v) :: d' =>
      if seg_eqb k key then (k, node) :: d' else (k, v) :: assoc_set key node d'
  end.

Fixpoint assoc_fromkeys (seen : list Path) (paths : list Path) : list Path :=
  match paths with
  | [] => seen
  | p :: paths' =>
      if existsb (path_eqb p) seen then assoc_fromkeys seen paths'
      else assoc_fromkeys (seen ++ [p]) paths'
  end.

Definition assoc_collapse_paths (paths : list Path) : list Path :=
  assoc_fromkeys [] (map (map collapse_seg) paths).

Fixpoint assoc_descend (path : Path) (cur : Node) {struct path} : result Node :=
  match path with
  | key :: ((r0 :: rest') as rest) =>
      let node := match rest' with [] => NLeaf r0 | _ :: _ => NDict [] end in
      match cur with
      | NDict d =>
          d1 <- match assoc_get key d with
                | None => Ok (assoc_set key node d)
                | Some bound =>
                    null <- is_NoneType bound ;;
                    Ok (if null then assoc_set key node d else d)
                end ;;
          match assoc_get key d1 with
          | Some child =>
              child' <- assoc_descend rest child ;;
              Ok (NDict (assoc_set key child' d1))
          | None => Err KeyError
          end
      | NLeaf _ => Err TypeError
      end
  | _ => Ok cur
  end.

Fixpoint assoc_merge_each (paths : list Path) (merged : Node) : result Node :=
  match paths with
  | [] => Ok merged
  | path :: paths' =>
      merged' <- assoc_descend path merged ;;
      assoc_merge_each paths' merged'
  end.

Definition assoc_merge_paths (paths : list Path) : result Shape :=
  merged <- assoc_merge_each paths (NDict []) ;;
  Ok (_convert_lists merged).

Definition assoc_collapsed_paths
    (re_sub : string -> string -> string -> result string)
    (key_patterns : option (list (string * string)))
    (describe_numbers sort : bool) (data : Value) : result (list Path) :=
  let paths := _get_paths describe_numbers data [] in
  paths <- _apply_patterns re_sub key_patterns paths ;;
  paths <- _describe_numbers describe_numbers paths ;;
  paths <- (if sort then sorted paths else Ok paths) ;;
  Ok (assoc_collapse_paths paths).

Definition assoc_shape
    (re_sub : string -> string -> string -> result string)
    (key_patterns : option (list (string * string)))
    (describe_numbers sort : bool) (data : Value) : result Shape :=
  paths <- assoc_collapsed_paths re_sub key_patterns describe_numbers sort data ;;
  assoc_merge_paths paths.

(** ** Keys that collide

    Two keys of one hash that are not the same value: the empty string
    and the index 0.  Comparing them raises. *)
Definition clash (x y : Seg) : bool :=
  hash_eqb (seg_hash x) (seg_hash y) && negb (seg_eqb x y).

(** The lookup of [key] meets a key it collides with before it meets
    [key] itself. *)
Fixpoint clash_before {V : Type} (key : Seg) (d : list (Seg * V)) : bool :=
  match d with
  | [] => false
  | (k, _) :: d' =>
      if seg_eqb k key then false else clash k key || clash_before key d'
  end.

Definition tuple_clash (p q : Path) : bool :=
  hashes_eqb (tuple_hash p) (tuple_hash q) && negb (path_eqb p q).

Fixpoint clash_among (key : Path) (seen : list Path) : bool :=
  match seen with
  | [] => false
  | p :: seen' =>
      if path_eqb p key then false else tuple_clash p key || clash_among key seen'
  end.

(** [key_clash p q]: at the first place where the paths [p] and [q]
    part, both going on to further items, one has the empty string as
    its key and the other the index 0.  The item that ends a path is
    its label and is not looked at. *)
Fixpoint key_clash (p q : Path) : bool :=
  match p, q with
  | x :: ((_ :: _) as p'), y :: ((_ :: _) as q') =>
      if seg_eqb x y then key_clash p' q' else clash x y
  | _, _ => false
  end.

Definition no_key_clash (paths : list Path) : bool :=
  forallb (fun p => forallb (fun q => negb (key_clash p q)) paths) paths.

(** ** A concrete [re.sub] for worked examples *)

(** A non-empty pattern made of letters, digits and underscores matches
    exactly itself, and a replacement without a backslash (code 92)
    stands for itself: there [re.sub] replaces the non-overlapping
    occurrences of the pattern, leftmost first. *)
Definition is_word_char (c : ascii) : bool :=
  let n := nat_of_ascii c in
  ((48 <=? n)%nat && (n <=? 57)%nat) || ((65 <=? n)%nat && (n <=? 90)%nat)
  || ((97 <=? n)%nat && (n <=? 122)%nat) || (n =? 95)%nat.

Fixpoint all_chars (f : ascii -> bool) (s : string) : bool :=
  match s with
  | EmptyString => true
  | String c s' => f c && all_chars f s'
  end.

(** [skip] counts the characters of a match still to be passed over. *)
Fixpoint replace_from (pattern repl : string) (skip : nat) (s : string) : string :=
  match s with
  | EmptyString => EmptyString
  | String c s' =>
      match skip with
      | S k => replace_from pattern repl k s'
      | O =>
          if String.prefix pattern s
          then repl ++ replace_from pattern repl (String.length pattern - 1) s'
          else String c (replace_from pattern repl 0 s')
      end
  end.

(** [re.sub] on that fragment; no other pattern is interpreted here,
    and one is answered like a pattern [re] rejects. *)
Definition literal_sub (pattern repl s : string) : result string :=
  match pattern with
  | EmptyString => Err ReError
  | String _ _ =>
      if all_chars is_word_char pattern
         && all_chars (fun c => negb (nat_of_ascii c =? 92)%nat) repl
      then Ok (replace_from pattern repl 0 s)
      else Err ReError
  end.

(** 3.5 as a binary64 datum. *)
Definition float_3_5 : spec_float := S754_finite false 7881299347898368 (-51).

(** ** Inputs and positions *)

(** A scalar is whatever reaches the [else] branch of [_get_paths]. *)
Definition is_scalar (data : Value) : bool :=
  match data with
  | VSeq _ | VDict _ => false
  | _ => true
  end.

(** [at_position data p w]: following the keys and indices of [p] from
    the root of [data] leads to [w]. *)
Inductive at_position : Value -> Path -> Value -> Prop :=
| at_here (v : Value) : at_position v [] v
| at_index (elems : list Value) (i : nat) (v : Value) (p : Path) (w : Value) :
    nth_error elems i = Some v ->
    at_position v p w ->
    at_position (VSeq elems) (Index i :: p) w
| at_key (items : list (string * Value)) (k : string) (v : Value)
         (p : Path) (w : Value) :
    In (k, v) items ->
    at_position v p w ->
    at_position (VDict items) (Str k :: p) w.

(** The items of a [key_patterns] argument. *)
Definition pattern_items (key_patterns : option (list (string * string)))
  : list (string * string) :=
  match key_patterns with
  | None => []
  | Some items => items
  end.


(** The node found in the accumulator under a run of keys, each looked
    up as the loop does ([cur[key]]); there is none when a key is
    absent, when its lookup raises, or when the way leads through a
    leaf. *)
Fixpoint node_at (keys : Path) (n : Node) : option Node :=
  match keys with
  | [] => Some n
  | k :: keys' =>
      match n with
      | NDict d =>
          match dict_get k d with
          | Ok (Some child) => node_at keys' child
          | _ => None
          end
      | NLeaf _ => None
      end
  end.

(** The same with the keys told apart by value. *)
Fixpoint assoc_node_at (keys : Path) (n : Node) : option Node :=
  match keys with
  | [] => Some n
  | k :: keys' =>
      match n with
      | NDict d =>
          match assoc_get k d with
          | Some child => assoc_node_at keys' child
          | None => None
          end
      | NLeaf _ => None
      end
  end.

(** Every key of the path [p] is found along [m] by the lookups of the
    loop, none of which raises. *)
Fixpoint reaches (p : Path) (m : Node) {struct p} : bool :=
  match p with
  | k :: ((_ :: _) as rest) =>
      match m with
      | NDict d =>
          match dict_get k d with
          | Ok (Some c) => reaches rest c
          | _ => false
          end
      | NLeaf _ => false
      end
  | _ => true
  end.

(** The two loops of [_get_paths], named: over [enumerate(data)] from
    index [i] on, and over [data.items()]. *)
Fixpoint seq_paths (describe_numbers : bool) (prefix : Path) (i : nat)
                   (l : list Value) : list Path :=
  match l with
  | [] => []
  | v :: l' =>
      extend prefix (Index i) (_get_paths describe_numbers v prefix)
      ++ seq_paths describe_numbers prefix (S i) l'
  end.

Fixpoint dict_paths (describe_numbers : bool) (prefix : Path)
                    (l : list (string * Value)) : list Path :=
  match l with
  | [] => []
  | (k, v) :: l' =>
      extend prefix (Str k) (_get_paths describe_numbers v prefix)
      ++ dict_paths describe_numbers prefix l'
  end.

(** The path of the entry ["a"], an integer, of the element at index [i]
    of a sequence. *)
Definition a_int (i : nat) : Path := [Index i; Str "a"; Str "int"].

(** ** Well-formed results *)

Definition is_str (x : Seg) : bool :=
  match x with
  | Str _ => true
  | Index _ => false
  end.

(** A result made only of strings, mappings with string keys, and
    lists of exactly one element. *)
Fixpoint plain (t : Shape) : bool :=
  match t with
  | SLeaf x => is_str x
  | SDict items =>
      (fix each (l : list (Seg * Shape)) : bool :=
         match l with
         | [] => true
         | (k, v) :: l' => is_str k && plain v && each l'
         end) items
  | SList elems =>
      (List.length elems =? 1)%nat
      && (fix each (l : list Shape) : bool :=
            match l with
            | [] => true
            | v :: l' => plain v && each l'
            end) elems
  end.

(** ** Positions of one kind *)

Definition same_kind (x y : Seg) : bool :=
  match x, y with
  | Index _, Index _ => true
  | Str _, Str _ => true
  | _, _ => false
  end.

(** Two paths agree in kind when, at the first place where both go on
    and take different items, both items are indices or both are keys.
    The item that ends a path is its label and is not looked at. *)
Fixpoint kinds_agree (p q : Path) : bool :=
  match p, q with
  | x :: ((_ :: _) as p'), y :: ((_ :: _) as q') =>
      if seg_eqb x y then kinds_agree p' q' else same_kind x y
  | _, _ => true
  end.

Definition kind_consistent (paths : list Path) : bool :=
  forallb (fun p => forallb (kinds_agree p) paths) paths.

(** The input, under the options of the call, reaches no position of
    the merged tree both through a sequence index and through a mapping
    key: the homogeneity the docstring of [shape] assumes. *)
Definition one_kind_per_position
    (re_sub : string -> string -> string -> result string)
    (key_patterns : option (list (string * string)))
    (describe_numbers sort : bool) (data : Value) : bool :=
  match collapsed_paths re_sub key_patterns describe_numbers sort data with
  | Ok paths => kind_consistent paths
  | Err _ => true
  end.

(** A path that ends in a string (its label). *)
Fixpoint ends_str (p : Path) : bool :=
  match p with
  | [] => false
  | [x] => is_str x
  | _ :: p' => ends_str p'
  end.

(** A collapsed item: a key, or the one index left. *)
Definition collapsed (x : Seg) : bool :=
  match x with
  | Index i => (i =? 0)%nat
  | Str _ => true
  end.

(** What the merge loop keeps true of the node it has built under the
    keys [pre], while it folds paths taken from [paths]: leaves are
    strings, no dict holds a key twice, and every key of a dict is an
    item, not the last one, of one of the paths. *)
Inductive built (paths : list Path) : Path -> Node -> Prop :=
| built_leaf (pre : Path) (s : string) : built paths pre (NLeaf (Str s))
| built_dict (pre : Path) (d : list (Seg * Node)) :
    NoDup (map fst d) ->
    (forall k v, In (k, v) d ->
                 exists rest, rest <> [] /\ In (pre ++ k :: rest) paths) ->
    (forall k v, In (k, v) d -> built paths (pre ++ [k]) v) ->
    built paths pre (NDict d).

(** ** Mappings that differ in the order of their keys *)

(** No string occurs twice. *)
Fixpoint distinct (keys : list string) : bool :=
  match keys with
  | [] => true
  | k :: keys' => negb (existsb (String.eqb k) keys') && distinct keys'
  end.

(** Every mapping in the value has each key once, as a [dict] does. *)
Fixpoint unique_keys (data : Value) : bool :=
  match data with
  | VSeq elems =>
      (fix each (l : list Value) : bool :=
         match l with
         | [] => true
         | v :: l' => unique_keys v && each l'
         end) elems
  | VDict items =>
      distinct (map fst items)
      && (fix each (l : list (string * Value)) : bool :=
            match l with
            | [] => true
            | (_, v) :: l' => unique_keys v && each l'
            end) items
  | _ => true
  end.

(** [reordered v w]: [v] and [w] are equal but for the insertion order
    of the keys of their mappings, at any depth.  Sequences keep their
    order; the entries of a mapping may come in any order. *)
Inductive reordered : Value -> Value -> Prop :=
| ro_scalar (v : Value) : is_scalar v = true -> reordered v v
| ro_seq (l1 l2 : list Value) :
    reordered_seq l1 l2 -> reordered (VSeq l1) (VSeq l2)
| ro_dict (items1 items2 : list (string * Value)) :
    reordered_items items1 items2 -> reordered (VDict items1) (VDict items2)
with reordered_seq : list Value -> list Value -> Prop :=
| ros_nil : reordered_seq [] []
| ros_cons (v1 v2 : Value) (l1 l2 : list Value) :
    reordered v1 v2 -> reordered_seq l1 l2 ->
    reordered_seq (v1 :: l1) (v2 :: l2)
with reordered_items : list (string * Value) -> list (string * Value) -> Prop :=
| roi_nil : reordered_items [] []
| roi_skip (k : string) (v1 v2 : Value) (l1 l2 : list (string * Value)) :
    reordered v1 v2 -> reordered_items l1 l2 ->
    reordered_items ((k, v1) :: l1) ((k, v2) :: l2)
| roi_swap (x y : string * Value) (l : list (string * Value)) :
    reordered_items (x :: y :: l) (y :: x :: l)
| roi_trans (l1 l2 l3 : list (string * Value)) :
    reordered_items l1 l2 -> reordered_items l2 l3 -> reordered_items l1 l3.

Scheme reordered_mut := Minimality for reordered Sort Prop
  with reordered_seq_mut := Minimality for reordered_seq Sort Prop
  with reordered_items_mut := Minimality for reordered_items Sort Prop.

Combined Scheme reordered_mutind
  from reordered_mut, reordered_seq_mut, reordered_items_mut.

(** ** A total order on paths *)

(** The order [sorted] sees wherever its comparisons are defined, made
    total by putting every index before every string. *)
Definition seg_compare (x y : Seg) : comparison :=
  match x, y with
  | Index i, Index j => Nat.compare i j
  | Str s, Str t => String.compare s t
  | Index _, Str _ => Lt
  | Str _, Index _ => Gt
  end.

Fixpoint path_compare (p q : Path) : comparison :=
  match p, q with
  | [], [] => Eq
  | [], _ :: _ => Lt
  | _ :: _, [] => Gt
  | x :: p', y :: q' =>
      match seg_compare x y with
      | Eq => path_compare p' q'
      | c => c
      end
  end.

Definition path_le (p q : Path) : Prop := path_compare p q <> Gt.

(** [p < q] raises on no two of the paths. *)
Definition comparable (paths : list Path) : Prop :=
  forall p q, In p paths -> In q paths -> exists b, tuple_lt p q = Ok b.

(** ** Positions that hold a scalar here and a container there *)

(** [leaf_conflict p q]: the path [p] ends, on a label other than
    ["NoneType"], at a position through which [q] goes on to further
    keys. *)
Fixpoint leaf_conflict (p q : Path) : bool :=
  match p, q with
  | x :: p', y :: q' =>
      seg_eqb x y
      && match p', q' with
         | [Str l], _ :: _ :: _ => negb (String.eqb l "NoneType")
         | _, _ => leaf_conflict p' q'
         end
  | _, _ => false
  end.

Definition no_leaf_conflict (paths : list Path) : bool :=
  forallb (fun p => forallb (fun q => negb (leaf_conflict p q)) paths) paths.

(** What the merge loop keeps true when it is to be shown to return:
    leaves are strings, and a leaf bound under a key is the label of one
    of the paths that ends there. *)
Inductive grown (paths : list Path) : Path -> Node -> Prop :=
| grown_leaf (pre : Path) (s : string) : grown paths pre (NLeaf (Str s))
| grown_dict (pre : Path) (d : list (Seg * Node)) :
    (forall k s, In (k, NLeaf (Str s)) d -> In (pre ++ [k; Str s]) paths) ->
    (forall k v, In (k, v) d -> grown paths (pre ++ [k]) v) ->
    grown paths pre (NDict d).

(** ** Counting the scalars of a value *)

(** The number of scalar occurrences in a value; an empty container
    holds none. *)
Fixpoint count_scalars (data : Value) : nat :=
  match data with
  | VSeq elems =>
      (fix each (l : list Value) : nat :=
         match l with
         | [] => 0
         | v :: l' => count_scalars v + each l'
         end) elems
  | VDict items =>
      (fix each (l : list (string * Value)) : nat :=
         match l with
         | [] => 0
         | (_, v) :: l' => count_scalars v + each l'
         end) items
  | _ => 1
  end.

(** ** What rewriting may do to a path item *)

(** An index is handed on as it is; a string becomes a string. *)
Definition rewritten (x y : Seg) : Prop :=
  match x with
  | Index i => y = Index i
  | Str _ => is_str y = true
  end.

(** ** Paths the accumulator already accounts for *)

(** [covered p m]: every key of the path [p] is bound along [m] (keys
    told apart by value), the nodes on the way are dicts, and where [p] ends something other than
    the null label is bound, or the null label when [p] brings it too. *)
Fixpoint covered (p : Path) (m : Node) {struct p} : bool :=
  match p with
  | k :: ((r0 :: rest') as rest) =>
      match m with
      | NDict d =>
          match assoc_get k d with
          | Some c =>
              match rest' with
              | [] =>
                  match is_NoneType c with
                  | Ok false => true
                  | Ok true => seg_eqb r0 (Str "NoneType")
                  | Err _ => false
                  end
              | _ :: _ =>
                  match c with
                  | NDict _ => covered rest c
                  | NLeaf _ => false
                  end
              end
          | None => false
          end
      | NLeaf _ => false
      end
  | _ => true
  end.

(** ** Nested mappings of scalars *)

(** No sequence occurs in the value. *)
Fixpoint mappings_only (data : Value) : bool :=
  match data with
  | VSeq _ => false
  | VDict items =>
      (fix each (l : list (string * Value)) : bool :=
         match l with
         | [] => true
         | (_, v) :: l' => mappings_only v && each l'
         end) items
  | _ => true
  end.

Definition has_scalar (data : Value) : bool :=
  negb (count_scalars data =? 0)%nat.

(** The value with every scalar replaced by its label and every entry
    that holds no scalar left out; entries keep their order. *)
Fixpoint summary (describe_numbers : bool) (data : Value) : Shape :=
  match data with
  | VDict items =>
      SDict ((fix each (l : list (string * Value)) : list (Seg * Shape) :=
                match l with
                | [] => []
                | (k, v) :: l' =>
                    if has_scalar v
                    then (Str k, summary describe_numbers v) :: each l'
                    else each l'
                end) items)
  | VSeq _ => SList []
  | _ => SLeaf (Str (scalar_label describe_numbers data))
  end.

(** The accumulator that stands for [summary]. *)
Fixpoint tree_of (describe_numbers : bool) (data : Value) : Node :=
  match data with
  | VDict items =>
      NDict ((fix each (l : list (string * Value)) : list (Seg * Node) :=
                match l with
                | [] => []
                | (k, v) :: l' =>
                    if has_scalar v
                    then (Str k, tree_of describe_numbers v) :: each l'
                    else each l'
                end) items)
  | VSeq _ => NDict []
  | _ => NLeaf (Str (scalar_label describe_numbers data))
  end.

Fixpoint tree_entries (describe_numbers : bool) (l : list (string * Value))
  : list (Seg * Node) :=
  match l with
  | [] => []
  | (k, v) :: l' =>
      if has_scalar v
      then (Str k, tree_of describe_numbers v) :: tree_entries describe_numbers l'
      else tree_entries describe_numbers l'
  end.

Fixpoint summary_entries (describe_numbers : bool) (l : list (string * Value))
  : list (Seg * Shape) :=
  match l with
  | [] => []
  | (k, v) :: l' =>
      if has_scalar v
      then (Str k, summary describe_numbers v)
           :: summary_entries describe_numbers l'
      else summary_entries describe_numbers l'
  end.

(** ** The keys at the top of the accumulator *)

(** A key joins the keys of a dict at the end, unless it is there. *)
Definition add_key (k : Seg) (keys : list Seg) : list Seg :=
  if existsb (fun k' => seg_eqb k' k) keys then keys else keys ++ [k].

(** The first items of the paths that have a key to bind (two items or
    more), each kept where it first appears, after the keys [keys]. *)
Fixpoint first_keys (keys : list Seg) (paths : list Path) : list Seg :=
  match paths with
  | [] => keys
  | (k :: _ :: _) :: paths' => first_keys (add_key k keys) paths'
  | _ :: paths' => first_keys keys paths'
  end.

(** The keys of the entries that hold a scalar, in the entries' order. *)
Definition keys_with_scalars (items : list (string * Value)) : list Seg :=
  map (fun kv => Str (fst kv)) (filter (fun kv => has_scalar (snd kv)) items).

(** One key comes strictly before another in the order of [sorted]. *)
Definition key_before (a b : Seg) : Prop := seg_compare a b = Lt.

(** ** Sequences of scalars *)

(** The first label that is not ["NoneType"], or ["NoneType"] when
    there is no other. *)
Fixpoint first_label (labels : list string) : string :=
  match labels with
  | [] => "NoneType"
  | l :: labels' =>
      if String.eqb l "NoneType" then first_label labels' else l
  end.

(** The tails [qs] headed by the indices [i], [i + 1], ... in turn. *)
Fixpoint number (i : nat) (qs : list Path) : list Path :=
  match qs with
  | [] => []
  | q :: qs' => (Index i :: q) :: number (S i) qs'
  end.

(** ** Labels without their qualifier *)

(** The label with a [:zero] or [:nonzero] that [describe_numbers] put
    on it taken off. *)
Definition erase (l : string) : string :=
  if String.eqb l "int:zero" || String.eqb l "int:nonzero" then "int"
  else if String.eqb l "float:zero" || String.eqb l "float:nonzero" then "float"
  else l.

Definition erase_seg (x : Seg) : Seg :=
  match x with
  | Str l => Str (erase l)
  | Index i => Index i
  end.

(** The path with the qualifier taken off the item that ends it. *)
Fixpoint erase_last (p : Path) : Path :=
  match p with
  | [] => []
  | [x] => [erase_seg x]
  | x :: p' => x :: erase_last p'
  end.

(** A function on path items applied to the leaves of an accumulator,
    of a result, and under [Ok]. *)
Fixpoint node_map (f : Seg -> Seg) (n : Node) : Node :=
  match n with
  | NLeaf x => NLeaf (f x)
  | NDict d => NDict (map (fun '(k, v) => (k, node_map f v)) d)
  end.

Fixpoint shape_map (f : Seg -> Seg) (t : Shape) : Shape :=
  match t with
  | SLeaf x => SLeaf (f x)
  | SDict items => SDict (map (fun '(k, v) => (k, shape_map f v)) items)
  | SList elems => SList (map (shape_map f) elems)
  end.

Definition result_map {A B : Type} (f : A -> B) (r : result A) : result B :=
  match r with
  | Ok a => Ok (f a)
  | Err e => Err e
  end.

(** * Properties *)

(** The stages before the merge are treated as they are.  The collapsing
    and the merge are treated first with the keys told apart by value
    (the functions named [assoc_...]); the two parts that end the file
    show where the lookups of the module's dicts raise, that they go as
    by value everywhere else, and state the properties of the module's
    own functions. *)

(** ** Basic facts about the stages *)

Section Stages.

Variable re_sub : string -> string -> string -> result string.

Lemma mapM_id {A : Type} (f : A -> result A) (l : list A) :
  (forall a, In a l -> f a = Ok a) -> mapM f l = Ok l.
Proof.
  induction l as [|a l IH]; intros Hf; simpl.
  - reflexivity.
  - rewrite (Hf a) by (left; reflexivity). simpl.
    rewrite IH by (intros b Hb; apply Hf; right; exact Hb).
    reflexivity.
Qed.

Lemma apply_patterns_None (x : Seg) : apply_patterns re_sub None x = Ok x.
Proof. reflexivity. Qed.

Lemma _apply_patterns_None (paths : list Path) :
  _apply_patterns re_sub None paths = Ok paths.
Proof.
  unfold _apply_patterns. apply mapM_id. intros path _.
  apply mapM_id. intros x _. apply apply_patterns_None.
Qed.

Lemma extend_nil (k : Seg) (sub : list Path) :
  extend [] k sub = map (cons k) sub.
Proof.
  unfold extend. rewrite map_map. apply map_ext. reflexivity.
Qed.

Lemma _describe_numbers_false (paths : list Path) :
  _describe_numbers false paths = Ok paths.
Proof. reflexivity. Qed.

End Stages.

(** ** Worked calls *)

(** C1. [shape(0, describe_numbers=True)] and
    [shape(3.5, describe_numbers=True)] both evaluate to the empty
    mapping: the one path of a top-level scalar has a single item, the
    merge loop runs [range(0)] on it and binds nothing, so neither
    ["int:zero"] nor ["float:nonzero"] is returned. *)
Theorem shape_number_at_top_level :
  forall re_sub sort,
    _get_paths true (VInt 0) [] = [[Str "int:zero"]]
    /\ _get_paths true (VFloat float_3_5) [] = [[Str "float:nonzero"]]
    /\ shape re_sub None true sort (VInt 0) = Ok (SDict [])
    /\ shape re_sub None true sort (VFloat float_3_5) = Ok (SDict []).
Proof.
  intros re_sub [|]; repeat split; reflexivity.
Qed.

(** C2. [shape([5, {"a": 1}])] raises [TypeError]: the first path binds
    the list position to the string ["int"], the second path walks into
    that string and tries to store under ["a"] in it. *)
Theorem shape_raises_on_leaf_then_mapping :
  forall re_sub,
    shape re_sub None false false (VSeq [VInt 5; VDict [("a", VInt 1)]])
    = Err TypeError
    /\ shape re_sub None false false (VSeq [VDict [("a", VInt 1)]; VInt 5])
       = Ok (SList [SDict [(Str "a", SLeaf (Str "int"))]]).
Proof.
  intros re_sub; split; reflexivity.
Qed.

(** C6. With [key_patterns={"int": "N"}] the rewriting stage turns the
    path [("int", "int")] of [{"int": 1}] into [("N", "N")]: the type
    label that ends the path is rewritten along with the key, and
    [shape] returns [{"N": "N"}]. *)
Theorem _apply_patterns_rewrites_label :
  _apply_patterns literal_sub (Some [("int", "N")])
                  (_get_paths false (VDict [("int", VInt 1)]) [])
  = Ok [[Str "N"; Str "N"]]
  /\ shape literal_sub (Some [("int", "N")]) false false (VDict [("int", VInt 1)])
     = Ok (SDict [(Str "N", SLeaf (Str "N"))]).
Proof.
  split; reflexivity.
Qed.

(** ** The extractor *)

Section Extractor.

Variable describe_numbers : bool.

Lemma _get_paths_VSeq (elems : list Value) (prefix : Path) :
  _get_paths describe_numbers (VSeq elems) prefix
  = seq_paths describe_numbers prefix 0 elems.
Proof.
  simpl. generalize 0.
  induction elems as [|v l IH]; intros i; simpl.
  - reflexivity.
  - f_equal. apply IH.
Qed.

Lemma _get_paths_VDict (items : list (string * Value)) (prefix : Path) :
  _get_paths describe_numbers (VDict items) prefix
  = dict_paths describe_numbers prefix items.
Proof.
  simpl.
  induction items as [|[k v] l IH]; simpl.
  - reflexivity.
  - f_equal. apply IH.
Qed.

Lemma _get_paths_scalar (data : Value) (prefix : Path) :
  is_scalar data = true ->
  _get_paths describe_numbers data prefix
  = [[Str (scalar_label describe_numbers data)]].
Proof.
  destruct data; simpl; intros H; try reflexivity; discriminate H.
Qed.

Lemma seq_paths_In (l : list Value) (i j : nat) (v : Value) (q : Path) :
  nth_error l j = Some v ->
  In q (_get_paths describe_numbers v []) ->
  In (Index (i + j) :: q) (seq_paths describe_numbers [] i l).
Proof.
  revert i j.
  induction l as [|a l IH]; intros i j Hnth Hq.
  - destruct j; discriminate Hnth.
  - simpl. apply in_or_app. destruct j as [|j]; simpl in Hnth.
    + injection Hnth as ->. left. rewrite extend_nil, Nat.add_0_r.
      apply in_map. exact Hq.
    + right. replace (i + S j) with (S i + j) by lia.
      apply IH; assumption.
Qed.

Lemma dict_paths_In (l : list (string * Value)) (k : string) (v : Value)
                    (q : Path) :
  In (k, v) l ->
  In q (_get_paths describe_numbers v []) ->
  In (Str k :: q) (dict_paths describe_numbers [] l).
Proof.
  induction l as [|[k' v'] l IH]; intros Hin Hq.
  - destruct Hin.
  - simpl. apply in_or_app. destruct Hin as [Heq|Hin].
    + injection Heq as -> ->. left. rewrite extend_nil.
      apply in_map. exact Hq.
    + right. apply IH; assumption.
Qed.

(** The scalar at a position contributes the path to that position
    followed by its label. *)
Lemma _get_paths_at_position (data : Value) (p : Path) (w : Value) :
  at_position data p w ->
  is_scalar w = true ->
  In (p ++ [Str (scalar_label describe_numbers w)])
     (_get_paths describe_numbers data []).
Proof.
  induction 1 as [v | elems i v p w Hnth _ IH | items k v p w Hin _ IH];
    intros Hw.
  - rewrite _get_paths_scalar by exact Hw. left. reflexivity.
  - rewrite _get_paths_VSeq. simpl.
    apply (seq_paths_In elems 0 i v); [exact Hnth | apply IH; exact Hw].
  - rewrite _get_paths_VDict. simpl.
    apply (dict_paths_In items k v); [exact Hin | apply IH; exact Hw].
Qed.

End Extractor.

(** C10. A boolean is labelled ["bool"] whether or not numbers are
    described: the extractor's label for a boolean is ["bool"], and for
    every position [p] of the input that holds a boolean the extracted
    paths contain [p] followed by ["bool"]. *)
Theorem bool_label_unqualified :
  forall (describe_numbers : bool) (data : Value) (p : Path) (b : bool),
    at_position data p (VBool b) ->
    scalar_label describe_numbers (VBool b) = "bool"
    /\ _get_paths describe_numbers (VBool b) [] = [[Str "bool"]]
    /\ In (p ++ [Str "bool"]) (_get_paths describe_numbers data []).
Proof.
  intros dn data p b Hpos.
  assert (Hl : scalar_label dn (VBool b) = "bool").
  { unfold scalar_label. simpl. rewrite andb_false_r. reflexivity. }
  repeat split.
  - exact Hl.
  - simpl. rewrite Hl. reflexivity.
  - rewrite <- Hl. apply _get_paths_at_position; [exact Hpos | reflexivity].
Qed.

Lemma bool_label_unqualified_witness :
  scalar_label true (VBool true) = "bool"
  /\ _get_paths true (VBool true) [] = [[Str "bool"]]
  /\ In ([Str "ok"; Index 1] ++ [Str "bool"])
        (_get_paths true (VDict [("ok", VSeq [VInt 0; VBool true])]) []).
Proof.
  apply (bool_label_unqualified true
           (VDict [("ok", VSeq [VInt 0; VBool true])])
           [Str "ok"; Index 1] true).
  apply (at_key _ "ok" (VSeq [VInt 0; VBool true])).
  - left. reflexivity.
  - apply (at_index _ 1 (VBool true)).
    + reflexivity.
    + apply at_here.
Defined.

(** ** Inputs without leaves, and scalars at the top *)

Section TopLevel.

Variable re_sub : string -> string -> string -> result string.




End TopLevel.

(** C4. [shape([])] and [shape({"x": []})] evaluate to the empty
    mapping, whatever the options: an empty container yields no path, so
    the accumulator stays empty and is returned as it is.  Neither call
    returns [[]] or [{"x": []}]. *)
Lemma shape_empty_containers_not_kept :
  shape literal_sub None false false (VSeq []) = Ok (SDict [])
  /\ shape literal_sub None false false (VSeq []) <> Ok (SList [])
  /\ shape literal_sub None false false (VDict [("x", VSeq [])]) = Ok (SDict [])
  /\ shape literal_sub None false false (VDict [("x", VSeq [])])
     <> Ok (SDict [(Str "x", SList [])]).
Proof.
  repeat split; try reflexivity; intros H; discriminate H.
Qed.

(** C4, as the code has it: for every choice of options [shape([])]
    returns [{}] and [shape({"x": []})] returns [{}]. *)
Theorem shape_empty_containers :
  forall re_sub key_patterns describe_numbers sort,
    shape re_sub key_patterns describe_numbers sort (VSeq []) = Ok (SDict [])
    /\ shape re_sub key_patterns describe_numbers sort (VDict [("x", VSeq [])])
       = Ok (SDict []).
Proof.
  intros re_sub key_patterns [|] [|]; split; reflexivity.
Qed.




(** ** The accumulator *)

Section Accumulator.

Lemma seg_eqb_eq (x y : Seg) : seg_eqb x y = true <-> x = y.
Proof.
  destruct x as [i|s], y as [j|t]; simpl; split; intros H;
    try discriminate H.
  - apply Nat.eqb_eq in H. subst. reflexivity.
  - injection H as ->. apply Nat.eqb_refl.
  - apply String.eqb_eq in H. subst. reflexivity.
  - injection H as ->. apply String.eqb_refl.
Qed.

Lemma seg_eqb_refl (x : Seg) : seg_eqb x x = true.
Proof. apply seg_eqb_eq. reflexivity. Qed.

Context {V : Type}.

Lemma assoc_get_set_same (k : Seg) (v : V) (d : list (Seg * V)) :
  assoc_get k (assoc_set k v d) = Some v.
Proof.
  induction d as [|[k' v'] d IH]; simpl.
  - rewrite seg_eqb_refl. reflexivity.
  - destruct (seg_eqb k' k) eqn:E; simpl; rewrite E.
    + reflexivity.
    + exact IH.
Qed.

Lemma assoc_set_get_id (k : Seg) (v : V) (d : list (Seg * V)) :
  assoc_get k d = Some v -> assoc_set k v d = d.
Proof.
  induction d as [|[k' v'] d IH]; simpl; intros H.
  - discriminate H.
  - destruct (seg_eqb k' k) eqn:E.
    + injection H as ->. reflexivity.
    + rewrite (IH H). reflexivity.
Qed.

Lemma assoc_set_set (k : Seg) (v w : V) (d : list (Seg * V)) :
  assoc_set k v (assoc_set k w d) = assoc_set k v d.
Proof.
  induction d as [|[k' v'] d IH]; simpl.
  - rewrite seg_eqb_refl. reflexivity.
  - destruct (seg_eqb k' k) eqn:E; simpl; rewrite E.
    + reflexivity.
    + rewrite IH. reflexivity.
Qed.

End Accumulator.

Section Descend.


(** One turn of the loop on a dict, spelled out. *)
Lemma assoc_descend_step (key r0 : Seg) (rest' : Path) (d : list (Seg * Node)) :
  assoc_descend (key :: r0 :: rest') (NDict d)
  = (d1 <- match assoc_get key d with
           | None =>
               Ok (assoc_set key
                     match rest' with [] => NLeaf r0 | _ :: _ => NDict [] end d)
           | Some bound =>
               null <- is_NoneType bound ;;
               Ok (if null
                   then assoc_set key
                          match rest' with
                          | [] => NLeaf r0
                          | _ :: _ => NDict []
                          end d
                   else d)
           end ;;
     match assoc_get key d1 with
     | Some child =>
         child' <- assoc_descend (r0 :: rest') child ;;
         Ok (NDict (assoc_set key child' d1))
     | None => Err KeyError
     end).
Proof. reflexivity. Qed.

(** A path of two items or more succeeds only on a dict. *)
Lemma assoc_descend_Ok_dict (a b : Seg) (rest : Path) (cur cur' : Node) :
  assoc_descend (a :: b :: rest) cur = Ok cur' -> exists d, cur = NDict d.
Proof.
  destruct cur as [x|d]; simpl; intros H.
  - discriminate H.
  - exists d. reflexivity.
Qed.


End Descend.



(** ** Sequences of like mappings *)

Section Homogeneous.

Lemma seq_paths_a_int (elems : list Value) (i : nat) :
  Forall (fun v => exists z, v = VDict [("a", VInt z)]) elems ->
  seq_paths false [] i elems = map a_int (seq i (List.length elems)).
Proof.
  intros H. revert i.
  induction H as [|v l [z ->] _ IH]; intros i; simpl.
  - reflexivity.
  - rewrite IH. reflexivity.
Qed.

Lemma insert_sorted_last (p : Path) (acc : list Path) :
  (forall q, In q acc -> tuple_lt p q = Ok false) ->
  insert_sorted p acc = Ok (acc ++ [p]).
Proof.
  induction acc as [|q acc IH]; intros H; simpl.
  - reflexivity.
  - rewrite (H q) by (left; reflexivity). simpl.
    rewrite IH by (intros q' Hq'; apply H; right; exact Hq').
    reflexivity.
Qed.

Lemma sorted_onto_a_int (i n m : nat) :
  sorted_onto (map a_int (seq i n)) (map a_int (seq (i + n) m))
  = Ok (map a_int (seq i (n + m))).
Proof.
  revert n. induction m as [|m IH]; intros n.
  - simpl. rewrite Nat.add_0_r. reflexivity.
  - simpl. rewrite insert_sorted_last.
    + simpl. replace (S (i + n)) with (i + S n) by lia.
      replace (map a_int (seq i n) ++ [a_int (i + n)])
        with (map a_int (seq i (S n))).
      * rewrite IH. replace (S n + m) with (n + S m) by lia. reflexivity.
      * rewrite seq_S, map_app. reflexivity.
    + intros q Hq. apply in_map_iff in Hq. destruct Hq as (j & <- & Hj).
      apply in_seq in Hj. unfold a_int. simpl.
      destruct (Nat.eqb_spec (i + n) j) as [E|_]; [lia|]. simpl.
      destruct (Nat.ltb_spec (i + n) j) as [E|_]; [lia|]. reflexivity.
Qed.

Lemma sorted_a_int (n : nat) :
  sorted (map a_int (seq 0 n)) = Ok (map a_int (seq 0 n)).
Proof. apply (sorted_onto_a_int 0 0 n). Qed.

Lemma path_eqb_refl (p : Path) : path_eqb p p = true.
Proof.
  induction p as [|x p IH]; simpl.
  - reflexivity.
  - rewrite seg_eqb_refl. exact IH.
Qed.

Lemma assoc_fromkeys_seen (seen paths : list Path) :
  (forall p, In p paths -> In p seen) -> assoc_fromkeys seen paths = seen.
Proof.
  induction paths as [|p paths IH]; intros H; simpl.
  - reflexivity.
  - assert (E : existsb (path_eqb p) seen = true).
    { apply existsb_exists. exists p. split.
      - apply H. left. reflexivity.
      - apply path_eqb_refl. }
    rewrite E. apply IH. intros q Hq. apply H. right. exact Hq.
Qed.

Lemma assoc_collapse_paths_a_int (i n : nat) :
  assoc_collapse_paths (map a_int (seq i (S n))) = [a_int 0].
Proof.
  unfold assoc_collapse_paths. rewrite map_map. simpl.
  apply assoc_fromkeys_seen. intros p Hp.
  apply in_map_iff in Hp. destruct Hp as (j & <- & _). left. reflexivity.
Qed.

End Homogeneous.

(** With the keys told apart by value: for every non-empty sequence
    whose elements are all mappings [{"a": <integer>}], whatever its
    length and whether or not [sort] is set, [assoc_shape] returns the
    one-element list [[{"a": "int"}]]. *)
Lemma assoc_homogeneous_collapsing :
  forall re_sub sort (elems : list Value),
    elems <> [] ->
    Forall (fun v => exists z, v = VDict [("a", VInt z)]) elems ->
    assoc_shape re_sub None false sort (VSeq elems)
    = Ok (SList [SDict [(Str "a", SLeaf (Str "int"))]]).
Proof.
  intros re_sub sort elems Hne Hall.
  unfold assoc_shape, assoc_collapsed_paths.
  rewrite _get_paths_VSeq, (seq_paths_a_int elems 0 Hall).
  rewrite _apply_patterns_None. cbn [bind].
  rewrite _describe_numbers_false. cbn [bind].
  assert (Hsort : (if sort
                   then sorted (map a_int (seq 0 (List.length elems)))
                   else Ok (map a_int (seq 0 (List.length elems))))
                  = Ok (map a_int (seq 0 (List.length elems)))).
  { destruct sort; [apply sorted_a_int | reflexivity]. }
  rewrite Hsort. cbn [bind].
  destruct elems as [|v elems]; [contradiction Hne; reflexivity|].
  cbn [List.length]. rewrite assoc_collapse_paths_a_int. reflexivity.
Qed.


(** ** What the merge loop builds *)

Section DictEntries.

Context {V : Type}.

Lemma In_dict_set (key k : Seg) (n v : V) (d : list (Seg * V)) :
  In (k, v) (assoc_set key n d) -> (k = key /\ v = n) \/ In (k, v) d.
Proof.
  induction d as [|[k' v'] d IH]; simpl.
  - intros [H|[]]. injection H as H1 H2. left. split; congruence.
  - destruct (seg_eqb k' key) eqn:E; simpl.
    + intros [H|H].
      * injection H as H1 H2. left. split; [|congruence].
        apply seg_eqb_eq in E. congruence.
      * right. right. exact H.
    + intros [H|H].
      * right. left. exact H.
      * destruct (IH H) as [Hk|Hin]; [left; exact Hk | right; right; exact Hin].
Qed.

Lemma assoc_get_Some_In (key : Seg) (v : V) (d : list (Seg * V)) :
  assoc_get key d = Some v -> In (key, v) d.
Proof.
  induction d as [|[k' v'] d IH]; simpl; intros H.
  - discriminate H.
  - destruct (seg_eqb k' key) eqn:E.
    + injection H as ->. apply seg_eqb_eq in E. subst. left. reflexivity.
    + right. apply IH. exact H.
Qed.

Lemma assoc_get_None_keys (key : Seg) (d : list (Seg * V)) :
  assoc_get key d = None -> ~ In key (map fst d).
Proof.
  induction d as [|[k' v'] d IH]; simpl; intros H.
  - intros [].
  - destruct (seg_eqb k' key) eqn:E; [discriminate H|].
    intros [Hk|Hin].
    + subst. rewrite seg_eqb_refl in E. discriminate E.
    + apply (IH H). exact Hin.
Qed.

Lemma keys_dict_set (key : Seg) (n : V) (d : list (Seg * V)) :
  map fst (assoc_set key n d)
  = match assoc_get key d with
    | Some _ => map fst d
    | None => map fst d ++ [key]
    end.
Proof.
  induction d as [|[k' v'] d IH]; simpl.
  - reflexivity.
  - destruct (seg_eqb k' key) eqn:E; simpl.
    + reflexivity.
    + rewrite IH. destruct (assoc_get key d); reflexivity.
Qed.

Lemma NoDup_dict_set (key : Seg) (n : V) (d : list (Seg * V)) :
  NoDup (map fst d) -> NoDup (map fst (assoc_set key n d)).
Proof.
  intros H. rewrite keys_dict_set.
  destruct (assoc_get key d) eqn:E.
  - exact H.
  - apply NoDup_app; [exact H | repeat constructor; intros [] | ].
    intros k Hk [Hk'|[]]. rewrite <- Hk' in Hk.
    apply (assoc_get_None_keys key d E). exact Hk.
Qed.

End DictEntries.

Section Built.

Variable paths : list Path.

Lemma built_fresh (pre : Path) (r0 : Seg) (rest' : Path) :
  ends_str (r0 :: rest') = true ->
  built paths pre match rest' with [] => NLeaf r0 | _ :: _ => NDict [] end.
Proof.
  destruct rest' as [|x rest']; intros H.
  - destruct r0 as [i|s]; [discriminate H | constructor].
  - apply built_dict; [constructor | intros k v [] | intros k v []].
Qed.

Lemma built_entry (pre : Path) (d : list (Seg * Node)) (key : Seg) (child : Node) :
  built paths pre (NDict d) ->
  assoc_get key d = Some child ->
  built paths (pre ++ [key]) child.
Proof.
  intros Hb Hget. inversion Hb as [|pre' d' _ _ Hsub]; subst.
  apply Hsub. apply assoc_get_Some_In. exact Hget.
Qed.

Lemma built_set (pre : Path) (d : list (Seg * Node)) (key : Seg) (child : Node)
                (rest : Path) :
  built paths pre (NDict d) ->
  rest <> [] ->
  In (pre ++ key :: rest) paths ->
  built paths (pre ++ [key]) child ->
  built paths pre (NDict (assoc_set key child d)).
Proof.
  intros Hb Hne Hin Hchild.
  inversion Hb as [|pre' d' Hnd Hcov Hsub]; subst.
  apply built_dict.
  - apply NoDup_dict_set. exact Hnd.
  - intros k v Hkv. apply In_dict_set in Hkv.
    destruct Hkv as [[-> ->]|Hkv].
    + exists rest. split; assumption.
    + apply (Hcov k v Hkv).
  - intros k v Hkv. apply In_dict_set in Hkv.
    destruct Hkv as [[-> ->]|Hkv].
    + exact Hchild.
    + apply (Hsub k v Hkv).
Qed.

(** One path folded into the accumulator. *)
Lemma assoc_descend_built (p : Path) :
  forall (pre : Path) (cur cur' : Node),
    In (pre ++ p) paths ->
    ends_str p = true ->
    built paths pre cur ->
    assoc_descend p cur = Ok cur' ->
    built paths pre cur'.
Proof.
  induction p as [|key p IH]; intros pre cur cur' Hin Hend Hb Hrun.
  - simpl in Hrun. injection Hrun as <-. exact Hb.
  - destruct p as [|r0 rest'].
    + simpl in Hrun. injection Hrun as <-. exact Hb.
    + destruct cur as [x|d]; [discriminate Hrun|].
      rewrite assoc_descend_step in Hrun.
      assert (Hend' : ends_str (r0 :: rest') = true) by exact Hend.
      pose proof (built_fresh (pre ++ [key]) r0 rest' Hend') as Hnode.
      assert (Hne : r0 :: rest' <> []) by discriminate.
      pose proof (built_set pre d key _ (r0 :: rest') Hb Hne Hin Hnode) as Hset.
      assert (Hfin : forall d1 child,
                 built paths pre (NDict d1) ->
                 built paths (pre ++ [key]) child ->
                 (child' <- assoc_descend (r0 :: rest') child ;;
                  Ok (NDict (assoc_set key child' d1))) = Ok cur' ->
                 built paths pre cur').
      { intros d1 child Hd1 Hchild Hk.
        destruct (assoc_descend (r0 :: rest') child) as [child'|e] eqn:Hc;
          [|discriminate Hk].
        injection Hk as <-.
        apply (built_set pre d1 key child' (r0 :: rest') Hd1 Hne Hin).
        apply (IH (pre ++ [key]) child child').
        - rewrite <- app_assoc. exact Hin.
        - exact Hend'.
        - exact Hchild.
        - exact Hc. }
      destruct (assoc_get key d) as [bound|] eqn:Hget.
      * destruct (is_NoneType bound) as [null|e] eqn:Hnull;
          [|discriminate Hrun].
        cbn [bind] in Hrun. destruct null.
        -- rewrite assoc_get_set_same in Hrun.
           apply (Hfin _ _ Hset Hnode Hrun).
        -- rewrite Hget in Hrun.
           apply (Hfin _ _ Hb (built_entry pre d key bound Hb Hget) Hrun).
      * cbn [bind] in Hrun. rewrite assoc_get_set_same in Hrun.
        apply (Hfin _ _ Hset Hnode Hrun).
Qed.

Lemma assoc_merge_each_built (l : list Path) :
  forall merged merged',
    (forall p, In p l -> In p paths /\ ends_str p = true) ->
    built paths [] merged ->
    assoc_merge_each l merged = Ok merged' ->
    built paths [] merged'.
Proof.
  induction l as [|p l IH]; intros merged merged' Hl Hb Hrun; simpl in Hrun.
  - injection Hrun as <-. exact Hb.
  - destruct (assoc_descend p merged) as [m1|e] eqn:Hp; [|discriminate Hrun].
    cbn [bind] in Hrun.
    destruct (Hl p (or_introl eq_refl)) as [Hin Hend].
    apply (IH m1 merged').
    + intros q Hq. apply Hl. right. exact Hq.
    + apply (assoc_descend_built p [] merged m1); assumption.
    + exact Hrun.
Qed.

End Built.

(** ** From the accumulator to the result *)

Section Convert.

Lemma plain_SDict (items : list (Seg * Shape)) :
  plain (SDict items)
  = forallb (fun kv => is_str (fst kv) && plain (snd kv)) items.
Proof.
  simpl. induction items as [|[k v] items IH]; simpl.
  - reflexivity.
  - rewrite IH. reflexivity.
Qed.

Lemma plain_SList (elems : list Shape) :
  plain (SList elems) = (List.length elems =? 1)%nat && forallb plain elems.
Proof.
  reflexivity.
Qed.

Lemma same_kind_refl (x : Seg) : same_kind x x = true.
Proof. destruct x; reflexivity. Qed.

(** Two paths that go on after a common run of keys take items of
    one kind there. *)
Lemma kinds_agree_prefix (pre : Path) (k1 k2 : Seg) (rest1 rest2 : Path) :
  rest1 <> [] -> rest2 <> [] ->
  kinds_agree (pre ++ k1 :: rest1) (pre ++ k2 :: rest2) = true ->
  same_kind k1 k2 = true.
Proof.
  intros H1 H2.
  induction pre as [|x pre IH]; simpl app.
  - destruct rest1 as [|a rest1]; [contradiction H1; reflexivity|].
    destruct rest2 as [|b rest2]; [contradiction H2; reflexivity|].
    simpl. destruct (seg_eqb k1 k2) eqn:E.
    + intros _. apply seg_eqb_eq in E. subst. apply same_kind_refl.
    + intros H. exact H.
  - destruct (pre ++ k1 :: rest1) as [|a l1] eqn:E1.
    { destruct pre; discriminate E1. }
    destruct (pre ++ k2 :: rest2) as [|b l2] eqn:E2.
    { destruct pre; discriminate E2. }
    simpl. rewrite seg_eqb_refl. exact IH.
Qed.

Variable paths : list Path.
Hypothesis Hkinds : kind_consistent paths = true.
Hypothesis Hcollapsed : forall p, In p paths -> forallb collapsed p = true.

Lemma built_keys_same_kind (pre : Path) (d : list (Seg * Node))
                           (k1 k2 : Seg) (v1 v2 : Node) :
  built paths pre (NDict d) ->
  In (k1, v1) d -> In (k2, v2) d ->
  same_kind k1 k2 = true.
Proof.
  intros Hb Hin1 Hin2.
  inversion Hb as [|pre' d' _ Hcov _]; subst.
  destruct (Hcov k1 v1 Hin1) as (rest1 & Hne1 & Hp1).
  destruct (Hcov k2 v2 Hin2) as (rest2 & Hne2 & Hp2).
  apply (kinds_agree_prefix pre k1 k2 rest1 rest2 Hne1 Hne2).
  unfold kind_consistent in Hkinds.
  rewrite forallb_forall in Hkinds. specialize (Hkinds _ Hp1).
  rewrite forallb_forall in Hkinds. apply Hkinds. exact Hp2.
Qed.

Lemma built_key_collapsed (pre : Path) (d : list (Seg * Node))
                          (k : Seg) (v : Node) :
  built paths pre (NDict d) -> In (k, v) d -> collapsed k = true.
Proof.
  intros Hb Hin.
  inversion Hb as [|pre' d' _ Hcov _]; subst.
  destruct (Hcov k v Hin) as (rest & _ & Hp).
  specialize (Hcollapsed _ Hp). rewrite forallb_forall in Hcollapsed.
  apply Hcollapsed. apply in_or_app. right. left. reflexivity.
Qed.

(** A dict of the accumulator whose first key is an index has no
    other key. *)
Lemma built_index_alone (pre : Path) (i : nat) (v : Node)
                        (d : list (Seg * Node)) :
  built paths pre (NDict ((Index i, v) :: d)) -> d = [].
Proof.
  intros Hb. destruct d as [|[k1 v1] d]; [reflexivity|]. exfalso.
  assert (H0 : collapsed (Index i) = true).
  { apply (built_key_collapsed pre _ (Index i) v Hb). left. reflexivity. }
  assert (H1 : collapsed k1 = true).
  { apply (built_key_collapsed pre _ k1 v1 Hb). right. left. reflexivity. }
  assert (Hk : same_kind (Index i) k1 = true).
  { apply (built_keys_same_kind pre _ (Index i) k1 v v1 Hb).
    - left. reflexivity.
    - right. left. reflexivity. }
  destruct k1 as [j|s]; [|discriminate Hk].
  simpl in H0, H1. apply Nat.eqb_eq in H0, H1. subst.
  inversion Hb as [|pre' d' Hnd _ _]; subst.
  simpl in Hnd. inversion Hnd as [|x l Hnotin _]; subst.
  apply Hnotin. left. reflexivity.
Qed.

Lemma _convert_lists_plain (pre : Path) (n : Node) :
  built paths pre n -> plain (_convert_lists n) = true.
Proof.
  induction 1 as [pre s | pre d Hnd Hcov Hsub IH].
  - reflexivity.
  - assert (Hb : built paths pre (NDict d)) by (apply built_dict; assumption).
    destruct d as [|[[i|s] v] d].
    + reflexivity.
    + pose proof (built_index_alone pre i v d Hb) as ->.
      change (_convert_lists (NDict [(Index i, v)]))
        with (SList [_convert_lists v]).
      rewrite plain_SList. simpl.
      rewrite (IH (Index i) v) by (left; reflexivity). reflexivity.
    + change (_convert_lists (NDict ((Str s, v) :: d)))
        with (SDict (map (fun '(k, v) => (k, _convert_lists v))
                         ((Str s, v) :: d))).
      rewrite plain_SDict. apply forallb_forall.
      intros [k t] Hin. apply in_map_iff in Hin.
      destruct Hin as ([k' v'] & Heq & Hin). injection Heq as <- <-.
      simpl fst. simpl snd. apply andb_true_intro. split.
      * assert (Hk : same_kind (Str s) k' = true).
        { apply (built_keys_same_kind pre _ (Str s) k' v v' Hb).
          - left. reflexivity.
          - exact Hin. }
        destruct k'; [discriminate Hk | reflexivity].
      * apply (IH k' v'). exact Hin.
Qed.

End Convert.

(** ** What the stages before the merge hand over *)

Section ValueInduction.

Variable P : Value -> Prop.
Hypothesis Hscalar : forall v, is_scalar v = true -> P v.
Hypothesis Hseq : forall elems, Forall P elems -> P (VSeq elems).
Hypothesis Hdict :
  forall items, Forall (fun kv => P (snd kv)) items -> P (VDict items).

Lemma Value_nested_ind : forall v, P v.
Proof.
  fix IH 1. intros v.
  destruct v as [| b | z | f | s | typename | elems | items];
    try (apply Hscalar; reflexivity).
  - apply Hseq. induction elems as [|v elems IHl].
    + constructor.
    + constructor; [apply IH | exact IHl].
  - apply Hdict. induction items as [|[k v] items IHl].
    + constructor.
    + constructor; [apply IH | exact IHl].
Qed.

End ValueInduction.

Section PathsHandedOver.

Variable re_sub : string -> string -> string -> result string.
Variable key_patterns : option (list (string * string)).
Variable describe_numbers : bool.

Lemma ends_str_cons (x : Seg) (q : Path) :
  ends_str q = true -> ends_str (x :: q) = true.
Proof. destruct q; [discriminate | intros H; exact H]. Qed.

Lemma extend_ends_str (k : Seg) (sub : list Path) (p : Path) :
  (forall q, In q sub -> ends_str q = true) ->
  In p (extend [] k sub) -> ends_str p = true.
Proof.
  intros Hsub Hin. rewrite extend_nil in Hin. apply in_map_iff in Hin.
  destruct Hin as (q & <- & Hq). apply ends_str_cons. apply Hsub. exact Hq.
Qed.

Lemma _get_paths_ends_str (data : Value) :
  forall p, In p (_get_paths describe_numbers data []) -> ends_str p = true.
Proof.
  induction data as [v Hv | elems IH | items IH] using Value_nested_ind.
  - intros p Hp. rewrite (_get_paths_scalar _ v [] Hv) in Hp.
    destruct Hp as [<-|[]]. reflexivity.
  - rewrite _get_paths_VSeq. generalize 0.
    induction IH as [|v l Hv _ IHl]; intros i p Hp; simpl in Hp.
    + destruct Hp.
    + apply in_app_or in Hp. destruct Hp as [Hp|Hp].
      * apply (extend_ends_str (Index i) _ p Hv Hp).
      * apply (IHl (S i) p Hp).
  - rewrite _get_paths_VDict.
    induction IH as [|[k v] l Hv _ IHl]; intros p Hp; simpl in Hp.
    + destruct Hp.
    + apply in_app_or in Hp. destruct Hp as [Hp|Hp].
      * apply (extend_ends_str (Str k) _ p Hv Hp).
      * apply (IHl p Hp).
Qed.

Lemma mapM_In {A B : Type} (f : A -> result B) (l : list A) (l' : list B) :
  mapM f l = Ok l' ->
  forall b, In b l' -> exists a, In a l /\ f a = Ok b.
Proof.
  revert l'. induction l as [|a l IH]; intros l' H b Hb; simpl in H.
  - injection H as <-. destruct Hb.
  - destruct (f a) as [b0|e] eqn:Ha; [|discriminate H]. cbn [bind] in H.
    destruct (mapM f l) as [bs|e] eqn:Hl; [|discriminate H].
    injection H as <-. destruct Hb as [<-|Hb].
    + exists a. split; [left; reflexivity | exact Ha].
    + destruct (IH bs eq_refl b Hb) as (a' & Hin & Hfa).
      exists a'. split; [right; exact Hin | exact Hfa].
Qed.

Lemma apply_patterns_is_str (x y : Seg) :
  apply_patterns re_sub key_patterns x = Ok y -> is_str y = is_str x.
Proof.
  destruct key_patterns as [[|item items]|], x as [i|s]; simpl; intros H;
    try (injection H as <-; reflexivity).
  destruct item as [pattern replace_with].
  destruct (re_sub pattern replace_with s) as [s1|e]; [|discriminate H].
  cbn [bind] in H.
  destruct (sub_each re_sub items s1) as [s2|e]; [|discriminate H].
  injection H as <-. reflexivity.
Qed.

Lemma mapM_apply_patterns_ends_str (p : Path) :
  forall p', mapM (apply_patterns re_sub key_patterns) p = Ok p' ->
             ends_str p' = ends_str p.
Proof.
  induction p as [|x p IH]; intros p' H; simpl in H.
  - injection H as <-. reflexivity.
  - destruct (apply_patterns re_sub key_patterns x) as [y|e] eqn:Hx;
      [|discriminate H].
    cbn [bind] in H.
    destruct (mapM (apply_patterns re_sub key_patterns) p) as [q|e] eqn:Hp;
      [|discriminate H].
    injection H as <-. specialize (IH q eq_refl).
    destruct p as [|x2 p].
    + simpl in Hp. injection Hp as <-. simpl.
      apply (apply_patterns_is_str x y Hx).
    + simpl in Hp.
      destruct (apply_patterns re_sub key_patterns x2); [|discriminate Hp].
      cbn [bind] in Hp.
      destruct (mapM (apply_patterns re_sub key_patterns) p);
        [|discriminate Hp].
      injection Hp as <-. exact IH.
Qed.

Lemma _describe_numbers_same (paths paths' : list Path) :
  _describe_numbers describe_numbers paths = Ok paths' -> paths' = paths.
Proof.
  unfold _describe_numbers. destruct (negb describe_numbers).
  - intros H. injection H as <-. reflexivity.
  - revert paths'. induction paths as [|p paths IH]; intros paths' H;
      simpl in H.
    + injection H as <-. reflexivity.
    + destruct (last_item p); [|discriminate H]. cbn [bind] in H.
      destruct (mapM _ paths) as [l|e]; [|discriminate H].
      injection H as <-. rewrite (IH l eq_refl). reflexivity.
Qed.

Lemma insert_sorted_In (p : Path) (l l' : list Path) :
  insert_sorted p l = Ok l' -> forall q, In q l' -> q = p \/ In q l.
Proof.
  revert l'. induction l as [|a l IH]; intros l' H q Hq; simpl in H.
  - injection H as <-. destruct Hq as [<-|[]]. left. reflexivity.
  - destruct (tuple_lt p a) as [b|e]; [|discriminate H]. cbn [bind] in H.
    destruct b.
    + injection H as <-. destruct Hq as [<-|Hq]; [left; reflexivity|].
      right. exact Hq.
    + destruct (insert_sorted p l) as [l1|e]; [|discriminate H].
      injection H as <-. destruct Hq as [<-|Hq].
      * right. left. reflexivity.
      * destruct (IH l1 eq_refl q Hq) as [E|Hin];
          [left; exact E | right; right; exact Hin].
Qed.

Lemma sorted_onto_In (l acc l' : list Path) :
  sorted_onto acc l = Ok l' -> forall q, In q l' -> In q acc \/ In q l.
Proof.
  revert acc l'. induction l as [|p l IH]; intros acc l' H q Hq; simpl in H.
  - injection H as <-. left. exact Hq.
  - destruct (insert_sorted p acc) as [acc1|e] eqn:Hi; [|discriminate H].
    cbn [bind] in H.
    destruct (IH acc1 l' H q Hq) as [Hin|Hin].
    + destruct (insert_sorted_In p acc acc1 Hi q Hin) as [E|Hin'].
      * right. left. symmetry. exact E.
      * left. exact Hin'.
    + right. right. exact Hin.
Qed.

Lemma assoc_fromkeys_In (l seen : list Path) :
  forall p, In p (assoc_fromkeys seen l) -> In p seen \/ In p l.
Proof.
  revert seen. induction l as [|a l IH]; intros seen p Hp; simpl in Hp.
  - left. exact Hp.
  - destruct (existsb (path_eqb a) seen).
    + destruct (IH seen p Hp) as [H|H]; [left; exact H | right; right; exact H].
    + destruct (IH (seen ++ [a]) p Hp) as [H|H].
      * apply in_app_or in H. destruct H as [H|[<-|[]]].
        -- left. exact H.
        -- right. left. reflexivity.
      * right. right. exact H.
Qed.

Lemma collapse_seg_collapsed (p : Path) :
  forallb collapsed (map collapse_seg p) = true.
Proof.
  induction p as [|[i|s] p IH]; simpl; [reflexivity | exact IH | exact IH].
Qed.

Lemma collapse_seg_ends_str (p : Path) :
  ends_str (map collapse_seg p) = ends_str p.
Proof.
  induction p as [|x p IH]; [reflexivity|].
  destruct p as [|y p].
  - destruct x; reflexivity.
  - exact IH.
Qed.

Variable sort : bool.

(** Every path given to [assoc_merge_paths] ends in a string and holds no
    index but the collapsed one. *)
Lemma assoc_collapsed_paths_facts (data : Value) (paths : list Path) :
  assoc_collapsed_paths re_sub key_patterns describe_numbers sort data = Ok paths ->
  forall p, In p paths -> ends_str p = true /\ forallb collapsed p = true.
Proof.
  unfold assoc_collapsed_paths. intros H p Hp.
  destruct (_apply_patterns re_sub key_patterns
              (_get_paths describe_numbers data [])) as [l1|e] eqn:H1;
    [|discriminate H].
  cbn [bind] in H.
  destruct (_describe_numbers describe_numbers l1) as [l2|e] eqn:H2;
    [|discriminate H].
  cbn [bind] in H. apply _describe_numbers_same in H2. subst l2.
  destruct (if sort then sorted l1 else Ok l1) as [l3|e] eqn:H3;
    [|discriminate H].
  cbn [bind] in H. injection H as <-.
  unfold assoc_collapse_paths in Hp. apply assoc_fromkeys_In in Hp.
  destruct Hp as [[]|Hp]. apply in_map_iff in Hp.
  destruct Hp as (q & <- & Hq).
  split; [|apply collapse_seg_collapsed].
  rewrite collapse_seg_ends_str.
  assert (Hq1 : In q l1).
  { destruct sort.
    - destruct (sorted_onto_In l1 [] l3 H3 q Hq) as [[]|Hin]. exact Hin.
    - injection H3 as <-. exact Hq. }
  destruct (mapM_In _ _ _ H1 q Hq1) as (q0 & Hq0 & Hmap).
  rewrite (mapM_apply_patterns_ends_str q0 q Hmap).
  apply (_get_paths_ends_str data q0 Hq0).
Qed.

End PathsHandedOver.

(** C5, as stated, fails on a sequence that holds a sequence and a
    mapping: [shape([[1], {"a": 1}])] is [[["int", "int"]]], whose inner
    list has two elements, and [shape([{"a": 1}, [1]])] is a list
    wrapping a mapping that has an [Index] object among its keys. *)
Lemma shape_mixed_positions_not_plain :
  shape literal_sub None false false
        (VSeq [VSeq [VInt 1]; VDict [("a", VInt 1)]])
  = Ok (SList [SList [SLeaf (Str "int"); SLeaf (Str "int")]])
  /\ plain (SList [SList [SLeaf (Str "int"); SLeaf (Str "int")]]) = false
  /\ shape literal_sub None false false
           (VSeq [VDict [("a", VInt 1)]; VSeq [VInt 1]])
     = Ok (SList [SDict [(Str "a", SLeaf (Str "int"));
                         (Index 0, SLeaf (Str "int"))]])
  /\ plain (SList [SDict [(Str "a", SLeaf (Str "int"));
                          (Index 0, SLeaf (Str "int"))]]) = false.
Proof.
  repeat split; reflexivity.
Qed.

(** Merged with keys told apart by value, paths that reach no position
    both through an index and through a key give a result made only of
    mappings with string keys, one-element lists and strings. *)
Lemma assoc_merge_paths_plain (paths : list Path) (t : Shape) :
  kind_consistent paths = true ->
  (forall p, In p paths -> ends_str p = true /\ forallb collapsed p = true) ->
  assoc_merge_paths paths = Ok t ->
  plain t = true.
Proof.
  intros Hkind Hfacts Hshape. unfold assoc_merge_paths in Hshape.
  destruct (assoc_merge_each paths (NDict [])) as [merged|e] eqn:Hmerge;
    [|discriminate Hshape].
  cbn [bind] in Hshape. injection Hshape as <-.
  apply (_convert_lists_plain paths Hkind (fun p Hp => proj2 (Hfacts p Hp)) []).
  apply (assoc_merge_each_built paths paths (NDict []) merged).
  - intros p Hp. split; [exact Hp | apply (Hfacts p Hp)].
  - apply built_dict; [constructor | intros k v [] | intros k v []].
  - exact Hmerge.
Qed.

(** ** The order of paths *)

Section PathOrder.

Lemma ascii_compare_refl (a : ascii) : Ascii.compare a a = Eq.
Proof. unfold Ascii.compare. apply N.compare_refl. Qed.

Lemma ascii_compare_trans (a b c : ascii) :
  Ascii.compare a b = Lt -> Ascii.compare b c = Lt -> Ascii.compare a c = Lt.
Proof.
  unfold Ascii.compare. rewrite !N.compare_lt_iff. apply N.lt_trans.
Qed.

Lemma string_compare_refl (s : string) : String.compare s s = Eq.
Proof.
  induction s as [|a s IH]; simpl.
  - reflexivity.
  - rewrite ascii_compare_refl. exact IH.
Qed.

Lemma string_compare_trans (s1 : string) :
  forall s2 s3,
    String.compare s1 s2 = Lt -> String.compare s2 s3 = Lt ->
    String.compare s1 s3 = Lt.
Proof.
  induction s1 as [|a s1 IH]; intros [|b s2] [|c s3]; simpl;
    try discriminate; try reflexivity.
  destruct (Ascii.compare a b) eqn:Eab; try discriminate;
    destruct (Ascii.compare b c) eqn:Ebc; try discriminate; intros H1 H2.
  - apply Ascii.compare_eq_iff in Eab, Ebc. subst.
    rewrite ascii_compare_refl. apply (IH s2 s3 H1 H2).
  - apply Ascii.compare_eq_iff in Eab. subst. rewrite Ebc. reflexivity.
  - apply Ascii.compare_eq_iff in Ebc. subst. rewrite Eab. reflexivity.
  - rewrite (ascii_compare_trans a b c Eab Ebc). reflexivity.
Qed.

Lemma seg_compare_refl (x : Seg) : seg_compare x x = Eq.
Proof.
  destruct x as [i|s]; simpl.
  - apply Nat.compare_refl.
  - apply string_compare_refl.
Qed.

Lemma seg_compare_eq (x y : Seg) : seg_compare x y = Eq -> x = y.
Proof.
  destruct x as [i|s], y as [j|t]; simpl; intros H; try discriminate H.
  - apply Nat.compare_eq in H. subst. reflexivity.
  - apply String.compare_eq_iff in H. subst. reflexivity.
Qed.

Lemma seg_compare_antisym (x y : Seg) :
  seg_compare y x = CompOpp (seg_compare x y).
Proof.
  destruct x as [i|s], y as [j|t]; simpl; try reflexivity.
  - apply Nat.compare_antisym.
  - apply String.compare_antisym.
Qed.

Lemma seg_compare_trans (x y z : Seg) :
  seg_compare x y = Lt -> seg_compare y z = Lt -> seg_compare x z = Lt.
Proof.
  destruct x as [i|s], y as [j|t], z as [k|u]; simpl;
    try discriminate; try reflexivity.
  - rewrite !Nat.compare_lt_iff. apply Nat.lt_trans.
  - apply string_compare_trans.
Qed.

Lemma path_compare_refl (p : Path) : path_compare p p = Eq.
Proof.
  induction p as [|x p IH]; simpl.
  - reflexivity.
  - rewrite seg_compare_refl. exact IH.
Qed.

Lemma path_compare_eq (p : Path) :
  forall q, path_compare p q = Eq -> p = q.
Proof.
  induction p as [|x p IH]; intros [|y q]; simpl; intros H;
    try discriminate H.
  - reflexivity.
  - destruct (seg_compare x y) eqn:E; try discriminate H.
    apply seg_compare_eq in E. subst. rewrite (IH q H). reflexivity.
Qed.

Lemma path_compare_antisym (p : Path) :
  forall q, path_compare q p = CompOpp (path_compare p q).
Proof.
  induction p as [|x p IH]; intros [|y q]; simpl; try reflexivity.
  rewrite (seg_compare_antisym x y).
  destruct (seg_compare x y); simpl; [apply IH | reflexivity | reflexivity].
Qed.

Lemma path_compare_trans (p : Path) :
  forall q r,
    path_compare p q = Lt -> path_compare q r = Lt -> path_compare p r = Lt.
Proof.
  induction p as [|x p IH]; intros [|y q] [|z r]; simpl;
    try discriminate; try reflexivity.
  destruct (seg_compare x y) eqn:Exy; try discriminate;
    destruct (seg_compare y z) eqn:Eyz; try discriminate; intros H1 H2.
  - apply seg_compare_eq in Exy, Eyz. subst.
    rewrite seg_compare_refl. apply (IH q r H1 H2).
  - apply seg_compare_eq in Exy. subst. rewrite Eyz. reflexivity.
  - apply seg_compare_eq in Eyz. subst. rewrite Exy. reflexivity.
  - rewrite (seg_compare_trans x y z Exy Eyz). reflexivity.
Qed.

Lemma path_le_refl (p : Path) : path_le p p.
Proof. unfold path_le. rewrite path_compare_refl. discriminate. Qed.

Lemma path_le_trans (p q r : Path) : path_le p q -> path_le q r -> path_le p r.
Proof.
  unfold path_le. intros H1 H2 H3.
  assert (Hrp : path_compare r p = Lt).
  { rewrite (path_compare_antisym p r), H3. reflexivity. }
  destruct (path_compare p q) eqn:Epq.
  - apply path_compare_eq in Epq. subst. contradiction.
  - pose proof (path_compare_trans r p q Hrp Epq) as Hrq.
    rewrite (path_compare_antisym r q), Hrq in H2. apply H2. reflexivity.
  - apply H1. reflexivity.
Qed.

Lemma path_le_antisym (p q : Path) : path_le p q -> path_le q p -> p = q.
Proof.
  unfold path_le. intros H1 H2.
  rewrite (path_compare_antisym p q) in H2.
  destruct (path_compare p q) eqn:E.
  - apply path_compare_eq. exact E.
  - contradiction H2. reflexivity.
  - contradiction H1. reflexivity.
Qed.

(** Where [p < q] is defined, it is the total order. *)
Lemma tuple_lt_path_compare (p : Path) :
  forall q b,
    tuple_lt p q = Ok b ->
    b = match path_compare p q with Lt => true | _ => false end.
Proof.
  induction p as [|x p IH]; intros [|y q] b; simpl; intros H.
  - injection H as <-. reflexivity.
  - injection H as <-. reflexivity.
  - injection H as <-. reflexivity.
  - destruct x as [i|s], y as [j|t]; simpl in H; try discriminate H;
      cbn [seg_compare].
    + destruct (Nat.eqb_spec i j) as [->|Hne].
      * rewrite Nat.compare_refl. apply IH. exact H.
      * simpl in H. injection H as <-.
        destruct (Nat.compare_spec i j) as [E|L|G].
        -- contradiction.
        -- apply Nat.ltb_lt. exact L.
        -- apply Nat.ltb_ge. lia.
    + destruct (String.eqb_spec s t) as [->|Hne].
      * rewrite string_compare_refl. apply IH. exact H.
      * simpl in H. injection H as <-. unfold String.ltb.
        destruct (String.compare s t) eqn:E; try reflexivity.
        apply String.compare_eq_iff in E. contradiction.
Qed.

End PathOrder.

(** ** [sorted] on comparable paths *)

Section Sorting.

Lemma tuple_lt_false_le (p q : Path) :
  tuple_lt p q = Ok false -> path_le q p.
Proof.
  intros H. apply tuple_lt_path_compare in H. unfold path_le.
  rewrite (path_compare_antisym p q).
  destruct (path_compare p q); simpl; (discriminate H || discriminate).
Qed.

Lemma tuple_lt_true_le (p q : Path) :
  tuple_lt p q = Ok true -> path_le p q.
Proof.
  intros H. apply tuple_lt_path_compare in H. unfold path_le.
  destruct (path_compare p q); (discriminate H || discriminate).
Qed.

Lemma insert_sorted_spec (p : Path) (l : list Path) :
  (forall q, In q l -> exists b, tuple_lt p q = Ok b) ->
  StronglySorted path_le l ->
  exists l',
    insert_sorted p l = Ok l'
    /\ Permutation (p :: l) l'
    /\ StronglySorted path_le l'.
Proof.
  induction l as [|a l IH]; intros Hcmp Hs.
  - exists [p]. repeat split.
    + apply Permutation_refl.
    + constructor; constructor.
  - inversion Hs as [|a' l' Hsl Hal]; subst.
    destruct (Hcmp a (or_introl eq_refl)) as [b Hb].
    simpl. rewrite Hb. cbn [bind]. destruct b.
    + exists (p :: a :: l). repeat split.
      * apply Permutation_refl.
      * constructor; [exact Hs|].
        pose proof (tuple_lt_true_le p a Hb) as Hpa.
        constructor; [exact Hpa|].
        apply Forall_forall. intros x Hx.
        apply (path_le_trans p a x Hpa).
        rewrite Forall_forall in Hal. apply Hal. exact Hx.
    + destruct IH as (l1 & Hl1 & Hperm & Hs1).
      { intros q Hq. apply Hcmp. right. exact Hq. }
      { exact Hsl. }
      rewrite Hl1. cbn [bind]. exists (a :: l1). repeat split.
      * apply perm_trans with (a :: p :: l); [apply perm_swap|].
        apply perm_skip. exact Hperm.
      * constructor; [exact Hs1|].
        apply (Permutation_Forall Hperm).
        constructor; [apply (tuple_lt_false_le p a Hb) | exact Hal].
Qed.

Lemma comparable_Permutation (l l' : list Path) :
  Permutation l l' -> comparable l -> comparable l'.
Proof.
  intros Hperm Hc p q Hp Hq. apply Hc.
  - apply (Permutation_in p (Permutation_sym Hperm) Hp).
  - apply (Permutation_in q (Permutation_sym Hperm) Hq).
Qed.

Lemma sorted_onto_spec (l : list Path) :
  forall acc,
    comparable (acc ++ l) ->
    StronglySorted path_le acc ->
    exists l',
      sorted_onto acc l = Ok l'
      /\ Permutation (acc ++ l) l'
      /\ StronglySorted path_le l'.
Proof.
  induction l as [|p l IH]; intros acc Hc Hs.
  - exists acc. rewrite app_nil_r. repeat split.
    + apply Permutation_refl.
    + exact Hs.
  - destruct (insert_sorted_spec p acc) as (acc1 & Hins & Hperm & Hs1).
    { intros q Hq. apply Hc; apply in_or_app.
      - right. left. reflexivity.
      - left. exact Hq. }
    { exact Hs. }
    assert (Hperm1 : Permutation (acc ++ p :: l) (acc1 ++ l)).
    { apply perm_trans with ((p :: acc) ++ l).
      - apply Permutation_sym. apply Permutation_middle.
      - apply Permutation_app_tail. exact Hperm. }
    destruct (IH acc1) as (l' & Hl' & Hperm' & Hs').
    { apply (comparable_Permutation _ _ Hperm1 Hc). }
    { exact Hs1. }
    exists l'. simpl. rewrite Hins. cbn [bind]. repeat split.
    + exact Hl'.
    + apply (perm_trans Hperm1 Hperm').
    + exact Hs'.
Qed.

(** On comparable paths [sorted] returns, and what it returns is the
    ascending arrangement of its argument. *)
Lemma sorted_spec (paths : list Path) :
  comparable paths ->
  exists l',
    sorted paths = Ok l'
    /\ Permutation paths l'
    /\ StronglySorted path_le l'.
Proof.
  intros Hc. apply (sorted_onto_spec paths []); [exact Hc | constructor].
Qed.

(** There is one ascending arrangement. *)
Lemma StronglySorted_unique (l1 : list Path) :
  forall l2,
    StronglySorted path_le l1 -> StronglySorted path_le l2 ->
    Permutation l1 l2 -> l1 = l2.
Proof.
  induction l1 as [|a l1 IH]; intros l2 H1 H2 Hperm.
  - apply Permutation_nil in Hperm. subst. reflexivity.
  - destruct l2 as [|b l2].
    { apply Permutation_sym, Permutation_nil in Hperm. discriminate Hperm. }
    inversion H1 as [|a' l1' Hs1 Ha]; subst.
    inversion H2 as [|b' l2' Hs2 Hb]; subst.
    assert (Hab : path_le a b).
    { assert (Hin : In b (a :: l1)).
      { apply (Permutation_in b (Permutation_sym Hperm)). left. reflexivity. }
      destruct Hin as [<-|Hin]; [apply path_le_refl|].
      rewrite Forall_forall in Ha. apply Ha. exact Hin. }
    assert (Hba : path_le b a).
    { assert (Hin : In a (b :: l2)).
      { apply (Permutation_in a Hperm). left. reflexivity. }
      destruct Hin as [<-|Hin]; [apply path_le_refl|].
      rewrite Forall_forall in Hb. apply Hb. exact Hin. }
    pose proof (path_le_antisym a b Hab Hba) as <-.
    f_equal. apply (IH l2 Hs1 Hs2).
    apply (Permutation_cons_inv Hperm).
Qed.

(** [sorted] gives one answer on the arrangements of a comparable
    list. *)
Lemma sorted_Permutation (l1 l2 : list Path) :
  comparable l1 ->
  Permutation l1 l2 ->
  exists l', sorted l1 = Ok l' /\ sorted l2 = Ok l'.
Proof.
  intros Hc Hperm.
  destruct (sorted_spec l1 Hc) as (s1 & Hs1 & Hp1 & Hsorted1).
  destruct (sorted_spec l2 (comparable_Permutation _ _ Hperm Hc))
    as (s2 & Hs2 & Hp2 & Hsorted2).
  exists s1. split; [exact Hs1|].
  rewrite Hs2. f_equal. symmetry.
  apply (StronglySorted_unique s1 s2 Hsorted1 Hsorted2).
  apply perm_trans with l1; [apply Permutation_sym; exact Hp1|].
  apply perm_trans with l2; [exact Hperm | exact Hp2].
Qed.

End Sorting.

(** ** Reordered mappings have the same paths *)

Section Reordered.

Variable describe_numbers : bool.

Lemma extend_Permutation (prefix : Path) (k : Seg) (sub1 sub2 : list Path) :
  Permutation sub1 sub2 ->
  Permutation (extend prefix k sub1) (extend prefix k sub2).
Proof.
  intros H. unfold extend. apply Permutation_map, Permutation_map. exact H.
Qed.

Lemma reordered_paths :
  (forall v w, reordered v w ->
     forall prefix,
       Permutation (_get_paths describe_numbers v prefix)
                   (_get_paths describe_numbers w prefix))
  /\ (forall l1 l2, reordered_seq l1 l2 ->
        forall prefix i,
          Permutation (seq_paths describe_numbers prefix i l1)
                      (seq_paths describe_numbers prefix i l2))
  /\ (forall items1 items2, reordered_items items1 items2 ->
        forall prefix,
          Permutation (dict_paths describe_numbers prefix items1)
                      (dict_paths describe_numbers prefix items2)).
Proof.
  apply reordered_mutind.
  - intros v _ prefix. apply Permutation_refl.
  - intros l1 l2 _ IH prefix. rewrite !_get_paths_VSeq. apply IH.
  - intros items1 items2 _ IH prefix. rewrite !_get_paths_VDict. apply IH.
  - intros prefix i. apply Permutation_refl.
  - intros v1 v2 l1 l2 _ IHv _ IHl prefix i. simpl.
    apply Permutation_app; [apply extend_Permutation, IHv | apply IHl].
  - intros prefix. apply Permutation_refl.
  - intros k v1 v2 l1 l2 _ IHv _ IHl prefix. simpl.
    apply Permutation_app; [apply extend_Permutation, IHv | apply IHl].
  - intros [k1 v1] [k2 v2] l prefix. simpl. rewrite !app_assoc.
    apply Permutation_app_tail, Permutation_app_comm.
  - intros l1 l2 l3 _ IH1 _ IH2 prefix.
    apply (perm_trans (IH1 prefix) (IH2 prefix)).
Qed.

(** *** Paths of a value whose mappings have each key once *)

Lemma unique_keys_VSeq (elems : list Value) :
  unique_keys (VSeq elems) = forallb unique_keys elems.
Proof. reflexivity. Qed.

Lemma unique_keys_VDict (items : list (string * Value)) :
  unique_keys (VDict items)
  = distinct (map fst items)
    && forallb (fun kv => unique_keys (snd kv)) items.
Proof.
  simpl. f_equal. induction items as [|[k v] items IH]; simpl.
  - reflexivity.
  - rewrite IH. reflexivity.
Qed.

Lemma distinct_NoDup (keys : list string) :
  distinct keys = true -> NoDup keys.
Proof.
  induction keys as [|k keys IH]; simpl; intros H.
  - constructor.
  - apply andb_prop in H. destruct H as [Hk Hrest].
    constructor; [|apply IH; exact Hrest].
    intros Hin. apply negb_true_iff in Hk.
    assert (E : existsb (String.eqb k) keys = true).
    { apply existsb_exists. exists k. split; [exact Hin|].
      apply String.eqb_refl. }
    rewrite E in Hk. discriminate Hk.
Qed.

Lemma NoDup_keys_value (items : list (string * Value)) (k : string)
                       (v1 v2 : Value) :
  NoDup (map fst items) ->
  In (k, v1) items -> In (k, v2) items -> v1 = v2.
Proof.
  induction items as [|[k' v'] items IH]; simpl; intros Hnd H1 H2.
  - destruct H1.
  - inversion Hnd as [|x l Hnotin Hnd']; subst.
    destruct H1 as [H1|H1], H2 as [H2|H2].
    + congruence.
    + injection H1 as -> ->. exfalso. apply Hnotin.
      apply (in_map fst items (k, v2) H2).
    + injection H2 as -> ->. exfalso. apply Hnotin.
      apply (in_map fst items (k, v1) H1).
    + apply (IH Hnd' H1 H2).
Qed.

Lemma seq_paths_In_inv (l : list Value) :
  forall i p,
    In p (seq_paths describe_numbers [] i l) ->
    exists j v q,
      p = Index (i + j) :: q
      /\ nth_error l j = Some v
      /\ In q (_get_paths describe_numbers v []).
Proof.
  induction l as [|a l IH]; intros i p Hp; simpl in Hp.
  - destruct Hp.
  - apply in_app_or in Hp. destruct Hp as [Hp|Hp].
    + rewrite extend_nil in Hp. apply in_map_iff in Hp.
      destruct Hp as (q & <- & Hq).
      exists 0, a, q. rewrite Nat.add_0_r. repeat split. exact Hq.
    + destruct (IH (S i) p Hp) as (j & v & q & -> & Hnth & Hq).
      exists (S j), v, q. repeat split.
      * f_equal. f_equal. lia.
      * exact Hnth.
      * exact Hq.
Qed.

Lemma dict_paths_In_inv (l : list (string * Value)) :
  forall p,
    In p (dict_paths describe_numbers [] l) ->
    exists k v q,
      p = Str k :: q
      /\ In (k, v) l
      /\ In q (_get_paths describe_numbers v []).
Proof.
  induction l as [|[k' v'] l IH]; intros p Hp; simpl in Hp.
  - destruct Hp.
  - apply in_app_or in Hp. destruct Hp as [Hp|Hp].
    + rewrite extend_nil in Hp. apply in_map_iff in Hp.
      destruct Hp as (q & <- & Hq).
      exists k', v', q. repeat split; [left; reflexivity | exact Hq].
    + destruct (IH p Hp) as (k & v & q & -> & Hin & Hq).
      exists k, v, q. repeat split; [right; exact Hin | exact Hq].
Qed.

(** No comparison [sorted] may make on the extracted paths raises:
    two paths part at a sequence, on two indices, or at a mapping, on
    two keys. *)
Lemma _get_paths_comparable (data : Value) :
  unique_keys data = true ->
  comparable (_get_paths describe_numbers data []).
Proof.
  induction data as [v Hv | elems IH | items IH] using Value_nested_ind;
    intros Hu p q Hp Hq.
  - rewrite (_get_paths_scalar _ v [] Hv) in Hp, Hq.
    destruct Hp as [<-|[]], Hq as [<-|[]].
    exists false. simpl. rewrite String.eqb_refl. reflexivity.
  - rewrite _get_paths_VSeq in Hp, Hq.
    apply seq_paths_In_inv in Hp, Hq.
    destruct Hp as (j1 & v1 & p' & -> & Hn1 & Hp').
    destruct Hq as (j2 & v2 & q' & -> & Hn2 & Hq').
    simpl. destruct (Nat.eqb_spec j1 j2) as [->|Hne].
    + rewrite Hn1 in Hn2. injection Hn2 as <-.
      pose proof (nth_error_In _ _ Hn1) as Hin.
      rewrite Forall_forall in IH.
      rewrite unique_keys_VSeq, forallb_forall in Hu.
      apply (IH v1 Hin (Hu v1 Hin) p' q' Hp' Hq').
    + simpl. eexists. reflexivity.
  - rewrite _get_paths_VDict in Hp, Hq.
    apply dict_paths_In_inv in Hp, Hq.
    destruct Hp as (k1 & v1 & p' & -> & Hin1 & Hp').
    destruct Hq as (k2 & v2 & q' & -> & Hin2 & Hq').
    rewrite unique_keys_VDict in Hu. apply andb_prop in Hu.
    destruct Hu as [Hd Hu].
    simpl. destruct (String.eqb_spec k1 k2) as [->|Hne].
    + pose proof (NoDup_keys_value items k2 v1 v2
                    (distinct_NoDup _ Hd) Hin1 Hin2) as <-.
      rewrite Forall_forall in IH. rewrite forallb_forall in Hu.
      apply (IH (k2, v1) Hin1 (Hu (k2, v1) Hin1) p' q' Hp' Hq').
    + simpl. eexists. reflexivity.
Qed.

Lemma last_item_ends_str (p : Path) :
  ends_str p = true -> exists x, last_item p = Ok x.
Proof.
  intros H. unfold last_item.
  destruct (rev p) as [|x l] eqn:E.
  - assert (Hp : p = []).
    { rewrite <- (rev_involutive p), E. reflexivity. }
    subst. discriminate H.
  - exists x. reflexivity.
Qed.

Lemma _describe_numbers_ok (paths : list Path) :
  (forall p, In p paths -> ends_str p = true) ->
  _describe_numbers describe_numbers paths = Ok paths.
Proof.
  intros H. unfold _describe_numbers.
  destruct (negb describe_numbers); [reflexivity|].
  apply mapM_id. intros p Hp.
  destruct (last_item_ends_str p (H p Hp)) as [x ->]. reflexivity.
Qed.

End Reordered.

(** C8. Determinism under [sort=True].  Let two inputs be equal but for
    the insertion order of the keys of their mappings (each mapping
    holding every key once, as a [dict] does).  With [sort=True] and no
    [key_patterns], [sorted] returns on both and returns the same list;
    so [_collapse_paths] is given the same list in both calls, the
    paths handed to the merge are the same (or [_collapse_paths] raises
    in both calls alike), and the two calls of [shape] have the same
    outcome. *)
Theorem sort_determinism :
  forall re_sub describe_numbers data1 data2,
    unique_keys data1 = true ->
    reordered data1 data2 ->
    exists sorted_paths,
      sorted (_get_paths describe_numbers data1 []) = Ok sorted_paths
      /\ sorted (_get_paths describe_numbers data2 []) = Ok sorted_paths
      /\ collapsed_paths re_sub None describe_numbers true data1
         = _collapse_paths sorted_paths
      /\ collapsed_paths re_sub None describe_numbers true data2
         = _collapse_paths sorted_paths
      /\ shape re_sub None describe_numbers true data1
         = shape re_sub None describe_numbers true data2.
Proof.
  intros re_sub dn data1 data2 Hu Hre.
  pose proof (proj1 (reordered_paths dn) data1 data2 Hre []) as Hperm.
  destruct (sorted_Permutation _ _ (_get_paths_comparable dn data1 Hu) Hperm)
    as (sp & Hs1 & Hs2).
  assert (Hc : forall data,
             sorted (_get_paths dn data []) = Ok sp ->
             collapsed_paths re_sub None dn true data = _collapse_paths sp).
  { intros data Hs. unfold collapsed_paths.
    rewrite _apply_patterns_None. cbn [bind].
    rewrite (_describe_numbers_ok dn _ (_get_paths_ends_str dn data)).
    cbn [bind]. rewrite Hs. reflexivity. }
  exists sp. repeat split.
  - exact Hs1.
  - exact Hs2.
  - apply Hc. exact Hs1.
  - apply Hc. exact Hs2.
  - unfold shape. rewrite (Hc data1 Hs1), (Hc data2 Hs2). reflexivity.
Qed.

(** [{"b": [0, 3.5], "a": {"y": None, "x": True}}] against
    [{"a": {"x": True, "y": None}, "b": [0, 3.5]}]. *)
Lemma sort_determinism_witness :
  let data1 :=
    VDict [("b", VSeq [VInt 0; VFloat float_3_5]);
           ("a", VDict [("y", VNone); ("x", VBool true)])] in
  let data2 :=
    VDict [("a", VDict [("x", VBool true); ("y", VNone)]);
           ("b", VSeq [VInt 0; VFloat float_3_5])] in
  exists sorted_paths,
    sorted (_get_paths true data1 []) = Ok sorted_paths
    /\ sorted (_get_paths true data2 []) = Ok sorted_paths
    /\ collapsed_paths literal_sub None true true data1
       = _collapse_paths sorted_paths
    /\ collapsed_paths literal_sub None true true data2
       = _collapse_paths sorted_paths
    /\ shape literal_sub None true true data1
       = shape literal_sub None true true data2.
Proof.
  intros data1 data2.
  apply (sort_determinism literal_sub true data1 data2).
  - reflexivity.
  - apply ro_dict.
    apply roi_trans with
      [("a", VDict [("y", VNone); ("x", VBool true)]);
       ("b", VSeq [VInt 0; VFloat float_3_5])].
    + apply roi_swap.
    + apply roi_skip.
      * apply ro_dict. apply roi_swap.
      * apply roi_skip; [|apply roi_nil].
        apply ro_seq. repeat constructor.
Defined.

(** ** When the merge returns *)

Section MergeReturns.

Variable paths : list Path.
Hypothesis Hfree : no_leaf_conflict paths = true.

Lemma leaf_conflict_cons (x y a b : Seg) (p q : Path) :
  leaf_conflict (x :: a :: b :: p) (y :: q)
  = seg_eqb x y && leaf_conflict (a :: b :: p) q.
Proof.
  destruct q as [|c q]; simpl; destruct a; reflexivity.
Qed.

Lemma leaf_conflict_prefix (pre : Path) (k r0 r1 : Seg) (s : string) (rest : Path) :
  leaf_conflict (pre ++ [k; Str s]) (pre ++ k :: r0 :: r1 :: rest)
  = negb (String.eqb s "NoneType").
Proof.
  induction pre as [|x pre IH].
  - simpl. rewrite seg_eqb_refl. reflexivity.
  - simpl app.
    destruct (pre ++ [k; Str s]) as [|a [|b p]] eqn:E.
    + destruct pre; discriminate E.
    + destruct pre as [|? [|? ?]]; discriminate E.
    + rewrite leaf_conflict_cons, seg_eqb_refl. exact IH.
Qed.

(** A label that is not null is bound only where no path goes on. *)
Lemma no_conflict_at (pre : Path) (k r0 r1 : Seg) (s : string) (rest : Path) :
  In (pre ++ [k; Str s]) paths ->
  In (pre ++ k :: r0 :: r1 :: rest) paths ->
  String.eqb s "NoneType" = true.
Proof.
  intros Hp Hq. unfold no_leaf_conflict in Hfree.
  rewrite forallb_forall in Hfree. specialize (Hfree _ Hp).
  rewrite forallb_forall in Hfree. specialize (Hfree _ Hq).
  rewrite leaf_conflict_prefix in Hfree.
  destruct (String.eqb s "NoneType"); [reflexivity | discriminate Hfree].
Qed.

Lemma grown_set (pre : Path) (d : list (Seg * Node)) (key : Seg) (child : Node) :
  grown paths pre (NDict d) ->
  (forall s, child = NLeaf (Str s) -> In (pre ++ [key; Str s]) paths) ->
  grown paths (pre ++ [key]) child ->
  grown paths pre (NDict (assoc_set key child d)).
Proof.
  intros Hg Hleaf Hchild.
  inversion Hg as [|pre' d' Hprov Hsub]; subst.
  apply grown_dict.
  - intros k s Hks. apply In_dict_set in Hks.
    destruct Hks as [[-> E]|Hks].
    + apply Hleaf. symmetry. exact E.
    + apply (Hprov k s Hks).
  - intros k v Hkv. apply In_dict_set in Hkv.
    destruct Hkv as [[-> ->]|Hkv].
    + exact Hchild.
    + apply (Hsub k v Hkv).
Qed.

Lemma grown_empty (pre : Path) : grown paths pre (NDict []).
Proof. apply grown_dict; intros k v []. Qed.

(** On a dict, the loop returns a dict. *)
Lemma assoc_descend_returns (q : Path) :
  forall (pre : Path) (d : list (Seg * Node)),
    In (pre ++ q) paths ->
    ends_str q = true ->
    grown paths pre (NDict d) ->
    exists d', assoc_descend q (NDict d) = Ok (NDict d')
               /\ grown paths pre (NDict d').
Proof.
  induction q as [|key q IH]; intros pre d Hin Hend Hg.
  - exists d. split; [reflexivity | exact Hg].
  - destruct q as [|r0 rest'].
    + exists d. split; [reflexivity | exact Hg].
    + rewrite assoc_descend_step.
      assert (Hend' : ends_str (r0 :: rest') = true) by exact Hend.
      assert (Hin' : In ((pre ++ [key]) ++ r0 :: rest') paths).
      { rewrite <- app_assoc. exact Hin. }
      (* the node a fresh binding receives, and what the loop makes of it *)
      assert (Hnew : exists child',
                 assoc_descend (r0 :: rest')
                         match rest' with [] => NLeaf r0 | _ :: _ => NDict [] end
                 = Ok child'
                 /\ grown paths (pre ++ [key]) child'
                 /\ (forall s, child' = NLeaf (Str s) ->
                               In (pre ++ [key; Str s]) paths)).
      { destruct rest' as [|r1 rest''].
        - destruct r0 as [i|l]; [discriminate Hend'|].
          exists (NLeaf (Str l)). repeat split.
          + constructor.
          + intros s E. injection E as <-. exact Hin.
        - destruct (IH (pre ++ [key]) [] Hin' Hend' (grown_empty _))
            as (d' & Hrun & Hg').
          exists (NDict d'). repeat split.
          + exact Hrun.
          + exact Hg'.
          + intros s E. discriminate E. }
      destruct Hnew as (child' & Hrun & Hgc & Hleaf).
      assert (Hfresh : exists d',
                 (child'0 <- assoc_descend (r0 :: rest')
                               match rest' with
                               | [] => NLeaf r0
                               | _ :: _ => NDict []
                               end ;;
                  Ok (NDict (assoc_set key child'0
                               (assoc_set key
                                  match rest' with
                                  | [] => NLeaf r0
                                  | _ :: _ => NDict []
                                  end d))))
                 = Ok (NDict d')
                 /\ grown paths pre (NDict d')).
      { rewrite Hrun. cbn [bind]. rewrite assoc_set_set.
        eexists. split; [reflexivity|].
        apply grown_set; assumption. }
      destruct (assoc_get key d) as [bound|] eqn:Hget.
      * inversion Hg as [|pre' d0 Hprov Hsub]; subst.
        pose proof (Hsub key bound (assoc_get_Some_In key bound d Hget)) as Hgb.
        destruct bound as [x|db].
        -- inversion Hgb as [pre' s|]; subst. cbn [is_NoneType bind].
           destruct (String.eqb s "NoneType") eqn:Hnull.
           ++ rewrite assoc_get_set_same. exact Hfresh.
           ++ rewrite Hget.
              destruct rest' as [|r1 rest''].
              ** exists d. cbn [assoc_descend bind].
                 rewrite (assoc_set_get_id key _ d Hget).
                 split; [reflexivity | exact Hg].
              ** exfalso.
                 pose proof (Hprov key s (assoc_get_Some_In key _ d Hget)) as Hp.
                 rewrite (no_conflict_at pre key r0 r1 s rest'' Hp Hin) in Hnull.
                 discriminate Hnull.
        -- cbn [is_NoneType bind]. rewrite Hget.
           destruct rest' as [|r1 rest''].
           ++ exists d. cbn [assoc_descend bind].
              rewrite (assoc_set_get_id key _ d Hget).
              split; [reflexivity | exact Hg].
           ++ destruct (IH (pre ++ [key]) db Hin' Hend' Hgb) as (db' & Hrun' & Hgb').
              rewrite Hrun'. cbn [bind]. eexists. split; [reflexivity|].
              apply grown_set; [exact Hg | intros s E; discriminate E | exact Hgb'].
      * cbn [bind]. rewrite assoc_get_set_same. exact Hfresh.
Qed.

Lemma assoc_merge_each_returns (l : list Path) :
  forall d,
    (forall p, In p l -> In p paths /\ ends_str p = true) ->
    grown paths [] (NDict d) ->
    exists merged, assoc_merge_each l (NDict d) = Ok merged.
Proof.
  induction l as [|p l IH]; intros d Hl Hg; simpl.
  - exists (NDict d). reflexivity.
  - destruct (Hl p (or_introl eq_refl)) as [Hin Hend].
    destruct (assoc_descend_returns p [] d Hin Hend Hg) as (d' & Hrun & Hg').
    rewrite Hrun. cbn [bind]. apply (IH d').
    + intros q Hq. apply Hl. right. exact Hq.
    + exact Hg'.
Qed.

End MergeReturns.

(** [assoc_shape] returns whenever the stages before the merge do and no
    position holds a scalar other than null in one place of the input
    and a mapping or a sequence in another. *)
Lemma assoc_shape_returns_without_leaf_conflict :
  forall re_sub key_patterns describe_numbers sort data paths,
    assoc_collapsed_paths re_sub key_patterns describe_numbers sort data = Ok paths ->
    no_leaf_conflict paths = true ->
    exists t, assoc_shape re_sub key_patterns describe_numbers sort data = Ok t.
Proof.
  intros re_sub key_patterns dn sort data paths Hpaths Hfree.
  unfold assoc_shape. rewrite Hpaths. cbn [bind]. unfold assoc_merge_paths.
  destruct (assoc_merge_each_returns paths Hfree paths []) as [merged Hm].
  - intros p Hp. split; [exact Hp|].
    apply (assoc_collapsed_paths_facts re_sub key_patterns dn sort data paths Hpaths p Hp).
  - apply grown_empty.
  - rewrite Hm. cbn [bind]. eexists. reflexivity.
Qed.


(** ** The extractor, read both ways *)

Section ExtractorComplete.

Variable describe_numbers : bool.

Lemma extend_length (k : Seg) (sub : list Path) :
  List.length (extend [] k sub) = List.length sub.
Proof. unfold extend. rewrite !length_map. reflexivity. Qed.

Lemma _get_paths_length (data : Value) :
  List.length (_get_paths describe_numbers data []) = count_scalars data.
Proof.
  induction data as [v Hv | elems IH | items IH] using Value_nested_ind.
  - rewrite (_get_paths_scalar _ v [] Hv).
    destruct v; try reflexivity; discriminate Hv.
  - rewrite _get_paths_VSeq.
    assert (H : forall i,
               List.length (seq_paths describe_numbers [] i elems)
               = count_scalars (VSeq elems)); [|apply H].
    induction IH as [|v l Hv _ IHl]; intros i.
    + reflexivity.
    + cbn [seq_paths]. rewrite length_app, extend_length, Hv, IHl.
      reflexivity.
  - rewrite _get_paths_VDict.
    induction IH as [|[k v] l Hv _ IHl].
    + reflexivity.
    + cbn [dict_paths]. cbn [snd] in Hv.
      rewrite length_app, extend_length, Hv, IHl. reflexivity.
Qed.

Lemma _get_paths_position (data : Value) :
  forall q,
    In q (_get_paths describe_numbers data []) ->
    exists p w,
      at_position data p w
      /\ is_scalar w = true
      /\ q = p ++ [Str (scalar_label describe_numbers w)].
Proof.
  induction data as [v Hv | elems IH | items IH] using Value_nested_ind;
    intros q Hq.
  - rewrite (_get_paths_scalar _ v [] Hv) in Hq. destruct Hq as [<-|[]].
    exists [], v. repeat split; [apply at_here | exact Hv].
  - rewrite _get_paths_VSeq in Hq. apply seq_paths_In_inv in Hq.
    destruct Hq as (j & v & q' & -> & Hnth & Hq').
    rewrite Forall_forall in IH.
    destruct (IH v (nth_error_In _ _ Hnth) q' Hq') as (p & w & Hat & Hw & ->).
    exists (Index j :: p), w. repeat split.
    + apply (at_index elems j v p w Hnth Hat).
    + exact Hw.
  - rewrite _get_paths_VDict in Hq. apply dict_paths_In_inv in Hq.
    destruct Hq as (k & v & q' & -> & Hin & Hq').
    rewrite Forall_forall in IH.
    destruct (IH (k, v) Hin q' Hq') as (p & w & Hat & Hw & ->).
    exists (Str k :: p), w. repeat split.
    + apply (at_key items k v p w Hin Hat).
    + exact Hw.
Qed.

End ExtractorComplete.

(** The extractor returns one path for each scalar of the input and
    nothing else: a tuple is among the paths exactly when it is the
    keys and indices leading to a scalar, followed by that scalar's
    label; and there are as many paths as scalar occurrences, so an
    empty container contributes none. *)
Theorem _get_paths_exactly_the_scalars :
  forall describe_numbers data,
    (forall q,
        In q (_get_paths describe_numbers data [])
        <-> exists p w,
              at_position data p w
              /\ is_scalar w = true
              /\ q = p ++ [Str (scalar_label describe_numbers w)])
    /\ List.length (_get_paths describe_numbers data []) = count_scalars data.
Proof.
  intros dn data. split.
  - intros q. split.
    + apply _get_paths_position.
    + intros (p & w & Hat & Hw & ->).
      apply _get_paths_at_position; assumption.
  - apply _get_paths_length.
Qed.


(** ** The rewriting stage *)

Section Rewriting.

Variable re_sub : string -> string -> string -> result string.
Variable key_patterns : option (list (string * string)).

Lemma mapM_Forall2 {A B : Type} (f : A -> result B) (l : list A) :
  forall l', mapM f l = Ok l' -> Forall2 (fun a b => f a = Ok b) l l'.
Proof.
  induction l as [|a l IH]; intros l' H; simpl in H.
  - injection H as <-. constructor.
  - destruct (f a) as [b|e] eqn:Ha; [|discriminate H]. cbn [bind] in H.
    destruct (mapM f l) as [bs|e] eqn:Hl; [|discriminate H].
    injection H as <-. constructor; [exact Ha | apply IH; reflexivity].
Qed.

Lemma apply_patterns_rewritten (x y : Seg) :
  apply_patterns re_sub key_patterns x = Ok y -> rewritten x y.
Proof.
  intros H. pose proof (apply_patterns_is_str re_sub key_patterns x y H) as Hs.
  destruct x as [i|s]; simpl.
  - destruct key_patterns as [[|item items]|]; simpl in H;
      injection H as <-; reflexivity.
  - exact Hs.
Qed.

Lemma apply_patterns_no_items (x : Seg) :
  pattern_items key_patterns = [] ->
  apply_patterns re_sub key_patterns x = Ok x.
Proof.
  destruct key_patterns as [[|item items]|]; simpl; intros H;
    try reflexivity; discriminate H.
Qed.

End Rewriting.

(** Whenever the rewriting stage returns, it has kept the number of
    paths and the length of each, has handed every [Index] on untouched
    and has put a string where a string was; with [key_patterns] left
    out or empty it returns the paths as they came. *)
Theorem _apply_patterns_keeps_structure :
  forall re_sub key_patterns paths paths',
    _apply_patterns re_sub key_patterns paths = Ok paths' ->
    Forall2 (Forall2 rewritten) paths paths'
    /\ List.length paths' = List.length paths
    /\ (pattern_items key_patterns = [] -> paths' = paths).
Proof.
  intros re_sub key_patterns paths paths' H.
  assert (HF : Forall2 (Forall2 rewritten) paths paths').
  { unfold _apply_patterns in H. apply mapM_Forall2 in H.
    induction H as [|p p' l l' Hp _ IH]; constructor; [|exact IH].
    apply mapM_Forall2 in Hp.
    induction Hp as [|x y q q' Hx _ IHq]; constructor; [|exact IHq].
    apply (apply_patterns_rewritten re_sub key_patterns x y Hx). }
  repeat split.
  - exact HF.
  - symmetry. apply (Forall2_length HF).
  - intros Hnone. unfold _apply_patterns in H.
    rewrite mapM_id in H.
    + injection H as <-. reflexivity.
    + intros path _. apply mapM_id. intros x _.
      apply apply_patterns_no_items. exact Hnone.
Qed.

Lemma _apply_patterns_keeps_structure_witness :
  Forall2 (Forall2 rewritten)
          [[Index 0; Str "user"; Str "int"]; [Index 1; Str "str"]]
          [[Index 0; Str "u"; Str "int"]; [Index 1; Str "str"]]
  /\ List.length [[Index 0; Str "u"; Str "int"]; [Index 1; Str "str"]]
     = List.length [[Index 0; Str "user"; Str "int"]; [Index 1; Str "str"]]
  /\ (pattern_items (Some [("user", "u")]) = [] ->
      [[Index 0; Str "u"; Str "int"]; [Index 1; Str "str"]]
      = [[Index 0; Str "user"; Str "int"]; [Index 1; Str "str"]]).
Proof.
  apply (_apply_patterns_keeps_structure literal_sub (Some [("user", "u")])).
  reflexivity.
Defined.

(** ** The collapsing stage *)

Section Collapsing.

Lemma path_eqb_eq (p : Path) : forall q, path_eqb p q = true <-> p = q.
Proof.
  induction p as [|x p IH]; intros [|y q]; simpl; split; intros H;
    try discriminate H; try reflexivity.
  - apply andb_prop in H. destruct H as [Hx Hp].
    apply seg_eqb_eq in Hx. apply IH in Hp. subst. reflexivity.
  - injection H as -> ->. rewrite seg_eqb_refl. apply IH. reflexivity.
Qed.

Lemma existsb_path_eqb (p : Path) (seen : list Path) :
  existsb (path_eqb p) seen = true <-> In p seen.
Proof.
  rewrite existsb_exists. split.
  - intros (q & Hq & E). apply path_eqb_eq in E. subst. exact Hq.
  - intros H. exists p. split; [exact H | apply path_eqb_refl].
Qed.

Lemma assoc_fromkeys_In_iff (l : list Path) :
  forall seen p, In p (assoc_fromkeys seen l) <-> In p seen \/ In p l.
Proof.
  induction l as [|a l IH]; intros seen p; simpl.
  - tauto.
  - destruct (existsb (path_eqb a) seen) eqn:E.
    + apply existsb_path_eqb in E. rewrite IH. split.
      * intros [H|H]; [left; exact H | right; right; exact H].
      * intros [H|[<-|H]]; [left; exact H | left; exact E | right; exact H].
    + rewrite IH, in_app_iff. simpl. tauto.
Qed.

Lemma assoc_fromkeys_NoDup (l : list Path) :
  forall seen, NoDup seen -> NoDup (assoc_fromkeys seen l).
Proof.
  induction l as [|a l IH]; intros seen Hnd; simpl.
  - exact Hnd.
  - destruct (existsb (path_eqb a) seen) eqn:E.
    + apply IH. exact Hnd.
    + apply IH. apply NoDup_app; [exact Hnd | repeat constructor; intros [] |].
      intros x Hx [<-|[]].
      apply existsb_path_eqb in Hx. rewrite Hx in E. discriminate E.
Qed.

Lemma assoc_fromkeys_distinct (l : list Path) :
  forall seen, NoDup (seen ++ l) -> assoc_fromkeys seen l = seen ++ l.
Proof.
  induction l as [|a l IH]; intros seen Hnd; simpl.
  - rewrite app_nil_r. reflexivity.
  - assert (E : existsb (path_eqb a) seen = false).
    { destruct (existsb (path_eqb a) seen) eqn:E; [|reflexivity].
      apply existsb_path_eqb in E. apply NoDup_remove_2 in Hnd.
      exfalso. apply Hnd. apply in_or_app. left. exact E. }
    rewrite E. rewrite IH.
    + rewrite <- app_assoc. reflexivity.
    + rewrite <- app_assoc. exact Hnd.
Qed.

Lemma collapse_seg_idempotent (x : Seg) :
  collapse_seg (collapse_seg x) = collapse_seg x.
Proof. destruct x; reflexivity. Qed.

End Collapsing.

(** The collapsing stage returns each collapsed path once: its result
    has no repeated path, holds exactly the input paths with every
    index set to 0, and is left unchanged by a second collapsing. *)
Lemma assoc_collapse_paths_set_like :
  forall paths,
    NoDup (assoc_collapse_paths paths)
    /\ (forall p, In p (assoc_collapse_paths paths)
                  <-> In p (map (map collapse_seg) paths))
    /\ (forall p, In p (assoc_collapse_paths paths) -> forallb collapsed p = true)
    /\ assoc_collapse_paths (assoc_collapse_paths paths) = assoc_collapse_paths paths.
Proof.
  intros paths.
  assert (Hnd : NoDup (assoc_collapse_paths paths)).
  { apply assoc_fromkeys_NoDup. constructor. }
  assert (Hin : forall p, In p (assoc_collapse_paths paths)
                          <-> In p (map (map collapse_seg) paths)).
  { intros p. unfold assoc_collapse_paths. rewrite assoc_fromkeys_In_iff. simpl. tauto. }
  split; [exact Hnd|]. split; [exact Hin|]. split.
  - intros p Hp. apply Hin in Hp. apply in_map_iff in Hp.
    destruct Hp as (q & <- & _). apply collapse_seg_collapsed.
  - unfold assoc_collapse_paths at 1.
    assert (Hid : map (map collapse_seg) (assoc_collapse_paths paths)
                  = assoc_collapse_paths paths).
    { rewrite <- (map_id (assoc_collapse_paths paths)) at 2.
      apply map_ext_in. intros p Hp. apply Hin in Hp.
      apply in_map_iff in Hp. destruct Hp as (q & <- & _).
      rewrite map_map. apply map_ext. intros x.
      apply collapse_seg_idempotent. }
    rewrite Hid. apply (assoc_fromkeys_distinct (assoc_collapse_paths paths) []).
    exact Hnd.
Qed.

(** ** Paths merged more than once *)

Section MergedTwice.

Lemma assoc_get_set_other {V : Type} (k key : Seg) (v : V) (d : list (Seg * V)) :
  seg_eqb key k = false ->
  assoc_get k (assoc_set key v d) = assoc_get k d.
Proof.
  intros Hne. induction d as [|[k' v'] d IH]; simpl.
  - destruct (seg_eqb key k) eqn:E; [discriminate Hne | reflexivity].
  - destruct (seg_eqb k' key) eqn:E1; simpl.
    + apply seg_eqb_eq in E1. subst k'. rewrite Hne. reflexivity.
    + destruct (seg_eqb k' k); [reflexivity | exact IH].
Qed.

(** What a turn of the loop on a dict comes to, when it returns: the
    child it goes down into, and the child it leaves behind. *)
Lemma assoc_descend_step_inv (key r0 : Seg) (rest' : Path) (d : list (Seg * Node))
                       (m' : Node) :
  assoc_descend (key :: r0 :: rest') (NDict d) = Ok m' ->
  exists d1 child child',
    assoc_get key d1 = Some child
    /\ assoc_descend (r0 :: rest') child = Ok child'
    /\ m' = NDict (assoc_set key child' d1)
    /\ (forall k, seg_eqb key k = false -> assoc_get k d1 = assoc_get k d)
    /\ (match assoc_get key d with
        | Some bound =>
            (is_NoneType bound = Ok false /\ child = bound)
            \/ (is_NoneType bound = Ok true
                /\ child = match rest' with [] => NLeaf r0 | _ :: _ => NDict [] end)
        | None => child = match rest' with [] => NLeaf r0 | _ :: _ => NDict [] end
        end).
Proof.
  rewrite assoc_descend_step. intros H.
  destruct (assoc_get key d) as [bound|] eqn:Hget.
  - destruct (is_NoneType bound) as [[|]|e] eqn:Hnull; [| |discriminate H];
      cbn [bind] in H.
    + rewrite assoc_get_set_same in H.
      destruct (assoc_descend (r0 :: rest') _) as [child'|e] eqn:Hc in H;
        [|discriminate H].
      injection H as <-. eexists _, _, child'. repeat split.
      * apply assoc_get_set_same.
      * exact Hc.
      * intros k Hk. apply assoc_get_set_other. exact Hk.
      * right. split; reflexivity.
    + rewrite Hget in H.
      destruct (assoc_descend (r0 :: rest') bound) as [child'|e] eqn:Hc;
        [|discriminate H].
      injection H as <-. exists d, bound, child'. repeat split.
      * exact Hget.
      * exact Hc.
      * left. split; reflexivity.
  - cbn [bind] in H. rewrite assoc_get_set_same in H.
    destruct (assoc_descend (r0 :: rest') _) as [child'|e] eqn:Hc in H;
      [|discriminate H].
    injection H as <-. eexists _, _, child'. repeat split.
    + apply assoc_get_set_same.
    + exact Hc.
    + intros k Hk. apply assoc_get_set_other. exact Hk.
Qed.

Lemma assoc_descend_dict (q : Path) (d : list (Seg * Node)) (n : Node) :
  assoc_descend q (NDict d) = Ok n -> exists d', n = NDict d'.
Proof.
  destruct q as [|key [|r0 rest']]; intros H.
  - injection H as <-. exists d. reflexivity.
  - injection H as <-. exists d. reflexivity.
  - destruct (assoc_descend_step_inv key r0 rest' d n H)
      as (d1 & child & child' & _ & _ & -> & _).
    eexists. reflexivity.
Qed.

End MergedTwice.

Section Covered.

Lemma covered_step (k r0 : Seg) (rest' : Path) (d : list (Seg * Node)) :
  covered (k :: r0 :: rest') (NDict d)
  = match assoc_get k d with
    | Some c =>
        match rest' with
        | [] =>
            match is_NoneType c with
            | Ok false => true
            | Ok true => seg_eqb r0 (Str "NoneType")
            | Err _ => false
            end
        | _ :: _ =>
            match c with
            | NDict _ => covered (r0 :: rest') c
            | NLeaf _ => false
            end
        end
    | None => false
    end.
Proof. reflexivity. Qed.

Lemma is_NoneType_true (c : Node) :
  is_NoneType c = Ok true -> c = NLeaf (Str "NoneType").
Proof.
  destruct c as [[i|s]|d]; simpl; intros H; try discriminate H.
  injection H as H. apply String.eqb_eq in H. subst. reflexivity.
Qed.

(** Merging a path the accumulator accounts for changes nothing. *)
Lemma covered_descend (p : Path) :
  forall m, covered p m = true -> assoc_descend p m = Ok m.
Proof.
  induction p as [|k p IH]; intros m H; [reflexivity|].
  destruct p as [|r0 rest']; [reflexivity|].
  destruct m as [x|d]; [discriminate H|].
  rewrite covered_step in H.
  destruct (assoc_get k d) as [c|] eqn:Hget; [|discriminate H].
  rewrite assoc_descend_step, Hget.
  destruct rest' as [|r1 rest''].
  - destruct (is_NoneType c) as [[|]|e] eqn:Hn; [| |discriminate H];
      cbn [bind].
    + apply seg_eqb_eq in H. apply is_NoneType_true in Hn. subst.
      rewrite (assoc_set_get_id k _ d Hget), Hget. cbn [assoc_descend bind].
      rewrite (assoc_set_get_id k _ d Hget). reflexivity.
    + rewrite Hget. cbn [assoc_descend bind].
      rewrite (assoc_set_get_id k _ d Hget). reflexivity.
  - destruct c as [x|dc]; [discriminate H|].
    cbn [is_NoneType bind]. rewrite Hget. rewrite (IH _ H). cbn [bind].
    rewrite (assoc_set_get_id k _ d Hget). reflexivity.
Qed.

(** A merged path is accounted for. *)
Lemma assoc_descend_covered (p : Path) :
  forall m m',
    ends_str p = true -> assoc_descend p m = Ok m' -> covered p m' = true.
Proof.
  induction p as [|k p IH]; intros m m' Hend H; [reflexivity|].
  destruct p as [|r0 rest']; [reflexivity|].
  destruct m as [x|d]; [discriminate H|].
  destruct (assoc_descend_step_inv k r0 rest' d m' H)
    as (d1 & child & child' & Hget1 & Hrun & -> & _ & Hcase).
  rewrite covered_step, assoc_get_set_same.
  destruct rest' as [|r1 rest''].
  - cbn [assoc_descend] in Hrun. injection Hrun as <-.
    assert (Hnode : match is_NoneType (NLeaf r0) with
                    | Ok false => true
                    | Ok true => seg_eqb r0 (Str "NoneType")
                    | Err _ => false
                    end = true).
    { destruct r0 as [i|t]; [discriminate Hend|]. simpl.
      destruct (String.eqb t "NoneType"); reflexivity. }
    destruct (assoc_get k d) as [bound|].
    + destruct Hcase as [[Hn ->]|[_ ->]]; [rewrite Hn; reflexivity | exact Hnode].
    + subst child. exact Hnode.
  - destruct (assoc_descend_Ok_dict _ _ _ _ _ Hrun) as [dc ->].
    destruct (assoc_descend_dict _ _ _ Hrun) as [dc' ->].
    apply (IH (NDict dc) (NDict dc') Hend Hrun).
Qed.

(** What is accounted for stays so when another path is merged. *)
Lemma covered_stable (p : Path) :
  forall q m m',
    covered p m = true ->
    ends_str q = true ->
    assoc_descend q m = Ok m' ->
    covered p m' = true.
Proof.
  induction p as [|k p IH]; intros q m m' H Hend Hrun; [reflexivity|].
  destruct p as [|r0 rest']; [reflexivity|].
  destruct m as [x|d]; [discriminate H|].
  destruct q as [|key [|s0 srest]];
    try (injection Hrun as <-; exact H).
  destruct (assoc_descend_step_inv key s0 srest d m' Hrun)
    as (d1 & child & child' & Hget1 & Hrun' & -> & Hother & Hcase).
  rewrite covered_step in H |- *.
  destruct (seg_eqb key k) eqn:Ek.
  - apply seg_eqb_eq in Ek. subst key. rewrite assoc_get_set_same.
    destruct (assoc_get k d) as [c|] eqn:Hget; [|discriminate H].
    assert (Hend' : ends_str (s0 :: srest) = true) by exact Hend.
    destruct rest' as [|r1 rest''].
    + destruct Hcase as [[Hn ->]|[Hn ->]].
      * destruct srest as [|s1 srest'].
        -- cbn [assoc_descend] in Hrun'. injection Hrun' as <-.
           rewrite Hn. reflexivity.
        -- destruct (assoc_descend_Ok_dict _ _ _ _ _ Hrun') as [dc ->].
           destruct (assoc_descend_dict _ _ _ Hrun') as [dc' ->]. reflexivity.
      * rewrite Hn in H. destruct srest as [|s1 srest'].
        -- cbn [assoc_descend] in Hrun'. injection Hrun' as <-.
           destruct s0 as [i|t]; [discriminate Hend'|]. simpl.
           destruct (String.eqb t "NoneType"); [exact H | reflexivity].
        -- destruct (assoc_descend_dict _ _ _ Hrun') as [dc' ->]. reflexivity.
    + destruct c as [x|dc]; [discriminate H|].
      destruct Hcase as [[_ ->]|[Hn _]]; [|discriminate Hn].
      destruct (assoc_descend_dict _ _ _ Hrun') as [dc' ->].
      apply (IH (s0 :: srest) (NDict dc) (NDict dc') H Hend' Hrun').
  - rewrite (assoc_get_set_other k key child' d1 Ek), (Hother k Ek). exact H.
Qed.

Lemma assoc_merge_each_app (l1 l2 : list Path) :
  forall m,
    assoc_merge_each (l1 ++ l2) m = (m1 <- assoc_merge_each l1 m ;; assoc_merge_each l2 m1).
Proof.
  induction l1 as [|p l1 IH]; intros m; simpl.
  - reflexivity.
  - destruct (assoc_descend p m) as [m'|e]; [|reflexivity]. cbn [bind]. apply IH.
Qed.

Lemma assoc_merge_each_stable (l : list Path) :
  forall p m m',
    covered p m = true ->
    (forall q, In q l -> ends_str q = true) ->
    assoc_merge_each l m = Ok m' ->
    covered p m' = true.
Proof.
  induction l as [|q l IH]; intros p m m' H Hl Hrun; simpl in Hrun.
  - injection Hrun as <-. exact H.
  - destruct (assoc_descend q m) as [m1|e] eqn:Hq; [|discriminate Hrun].
    cbn [bind] in Hrun. apply (IH p m1 m').
    + apply (covered_stable p q m m1 H (Hl q (or_introl eq_refl)) Hq).
    + intros q' Hq'. apply Hl. right. exact Hq'.
    + exact Hrun.
Qed.

Lemma assoc_merge_each_covers (l : list Path) :
  forall m m',
    (forall q, In q l -> ends_str q = true) ->
    assoc_merge_each l m = Ok m' ->
    forall p, In p l -> covered p m' = true.
Proof.
  induction l as [|q l IH]; intros m m' Hl Hrun p Hp; simpl in Hrun.
  - destruct Hp.
  - destruct (assoc_descend q m) as [m1|e] eqn:Hq; [|discriminate Hrun].
    cbn [bind] in Hrun.
    assert (Hl' : forall q', In q' l -> ends_str q' = true).
    { intros q' Hq'. apply Hl. right. exact Hq'. }
    destruct Hp as [<-|Hp].
    + apply (assoc_merge_each_stable l q m1 m'); [|exact Hl' | exact Hrun].
      apply (assoc_descend_covered q m m1 (Hl q (or_introl eq_refl)) Hq).
    + apply (IH m1 m' Hl' Hrun p Hp).
Qed.

(** Merging a list gives what merging it without its repeats gives. *)
Lemma assoc_merge_each_fromkeys (l : list Path) :
  forall seen m,
    (forall q, In q seen -> ends_str q = true) ->
    (forall q, In q l -> ends_str q = true) ->
    assoc_merge_each (assoc_fromkeys seen l) m = assoc_merge_each (seen ++ l) m.
Proof.
  induction l as [|a l IH]; intros seen m Hseen Hl; simpl.
  - rewrite app_nil_r. reflexivity.
  - assert (Hl' : forall q, In q l -> ends_str q = true).
    { intros q Hq. apply Hl. right. exact Hq. }
    destruct (existsb (path_eqb a) seen) eqn:E.
    + rewrite (IH seen m Hseen Hl').
      rewrite !assoc_merge_each_app.
      destruct (assoc_merge_each seen m) as [m1|e] eqn:Hm; [|reflexivity].
      cbn [bind]. simpl.
      apply existsb_path_eqb in E.
      rewrite (covered_descend a m1
                 (assoc_merge_each_covers seen m m1 Hseen Hm a E)).
      reflexivity.
    + rewrite (IH (seen ++ [a]) m).
      * rewrite <- app_assoc. reflexivity.
      * intros q Hq. apply in_app_or in Hq.
        destruct Hq as [Hq|[<-|[]]]; [apply Hseen; exact Hq|].
        apply Hl. left. reflexivity.
      * exact Hl'.
Qed.

End Covered.


(** ** What is bound stays bound *)

Section Permanent.

Lemma assoc_node_at_leaf_nil (pos : Path) (x : Seg) (n : Node) :
  assoc_node_at pos (NLeaf x) = Some n -> pos = [] /\ n = NLeaf x.
Proof.
  destruct pos as [|k pos]; simpl; intros H.
  - injection H as <-. split; reflexivity.
  - discriminate H.
Qed.

Lemma assoc_descend_keeps_label (s : string) (q : Path) :
  s <> "NoneType" ->
  forall pos m m',
    assoc_node_at pos m = Some (NLeaf (Str s)) ->
    assoc_descend q m = Ok m' ->
    assoc_node_at pos m' = Some (NLeaf (Str s)).
Proof.
  intros Hs.
  induction q as [|key q IH]; intros pos m m' Hat Hrun.
  - injection Hrun as <-. exact Hat.
  - destruct q as [|r0 rest']; [injection Hrun as <-; exact Hat|].
    destruct m as [x|d]; [discriminate Hrun|].
    destruct (assoc_descend_step_inv key r0 rest' d m' Hrun)
      as (d1 & child & child' & Hget1 & Hrun' & -> & Hother & Hcase).
    destruct pos as [|k pos]; [discriminate Hat|].
    simpl in Hat |- *.
    destruct (seg_eqb key k) eqn:Ek.
    + apply seg_eqb_eq in Ek. subst key. rewrite assoc_get_set_same.
      destruct (assoc_get k d) as [c|] eqn:Hget; [|discriminate Hat].
      destruct Hcase as [[_ ->]|[Hn _]].
      * apply (IH pos c child' Hat Hrun').
      * apply is_NoneType_true in Hn. subst c.
        apply assoc_node_at_leaf_nil in Hat. destruct Hat as [_ E].
        injection E as E. exfalso. apply Hs. exact E.
    + rewrite (assoc_get_set_other k key child' d1 Ek), (Hother k Ek).
      exact Hat.
Qed.

Lemma assoc_descend_keeps_dict (q : Path) :
  forall pos m m' d,
    assoc_node_at pos m = Some (NDict d) ->
    assoc_descend q m = Ok m' ->
    exists d', assoc_node_at pos m' = Some (NDict d').
Proof.
  induction q as [|key q IH]; intros pos m m' dd Hat Hrun.
  - injection Hrun as <-. exists dd. exact Hat.
  - destruct q as [|r0 rest']; [injection Hrun as <-; exists dd; exact Hat|].
    destruct m as [x|d]; [discriminate Hrun|].
    destruct pos as [|k pos].
    { destruct (assoc_descend_dict _ _ _ Hrun) as [d' ->]. exists d'. reflexivity. }
    destruct (assoc_descend_step_inv key r0 rest' d m' Hrun)
      as (d1 & child & child' & Hget1 & Hrun' & -> & Hother & Hcase).
    simpl in Hat |- *.
    destruct (seg_eqb key k) eqn:Ek.
    + apply seg_eqb_eq in Ek. subst key. rewrite assoc_get_set_same.
      destruct (assoc_get k d) as [c|] eqn:Hget; [|discriminate Hat].
      destruct Hcase as [[_ ->]|[Hn _]].
      * apply (IH pos c child' dd Hat Hrun').
      * apply is_NoneType_true in Hn. subst c.
        apply assoc_node_at_leaf_nil in Hat. destruct Hat as [_ E]. discriminate E.
    + rewrite (assoc_get_set_other k key child' d1 Ek), (Hother k Ek).
      exists dd. exact Hat.
Qed.

End Permanent.

(** The first type met at a position is the one kept.  Once a position
    of the accumulator holds a label other than ["NoneType"], merging
    any further paths leaves that label there; and a position that holds
    a dict goes on holding a dict. *)
Lemma assoc_first_non_null_type_is_kept :
  forall paths pos merged merged',
    assoc_merge_each paths merged = Ok merged' ->
    (forall s, s <> "NoneType" ->
               assoc_node_at pos merged = Some (NLeaf (Str s)) ->
               assoc_node_at pos merged' = Some (NLeaf (Str s)))
    /\ (forall d, assoc_node_at pos merged = Some (NDict d) ->
                  exists d', assoc_node_at pos merged' = Some (NDict d')).
Proof.
  induction paths as [|q paths IH]; intros pos merged merged' Hrun;
    simpl in Hrun.
  - injection Hrun as <-. split.
    + intros s _ H. exact H.
    + intros d H. exists d. exact H.
  - destruct (assoc_descend q merged) as [m1|e] eqn:Hq; [|discriminate Hrun].
    cbn [bind] in Hrun. destruct (IH pos m1 merged' Hrun) as [IHl IHd]. split.
    + intros s Hs H. apply (IHl s Hs).
      apply (assoc_descend_keeps_label s q Hs pos merged m1 H Hq).
    + intros d H.
      destruct (assoc_descend_keeps_dict q pos merged m1 d H Hq) as [d1 H1].
      apply (IHd d1 H1).
Qed.


(** ** Nested mappings: the paths of one entry go under its key *)

Section UnderKey.

Lemma assoc_set_absent {V : Type} (k : Seg) (v : V) (d : list (Seg * V)) :
  assoc_get k d = None -> assoc_set k v d = d ++ [(k, v)].
Proof.
  induction d as [|[k' v'] d IH]; simpl; intros H.
  - reflexivity.
  - destruct (seg_eqb k' k); [discriminate H|]. rewrite (IH H). reflexivity.
Qed.

Lemma assoc_get_app_absent {V : Type} (k k' : Seg) (v : V) (d : list (Seg * V)) :
  assoc_get k d = None -> seg_eqb k' k = false ->
  assoc_get k (d ++ [(k', v)]) = None.
Proof.
  induction d as [|[k0 v0] d IH]; simpl; intros H Hne.
  - rewrite Hne. reflexivity.
  - destruct (seg_eqb k0 k); [discriminate H|]. apply IH; assumption.
Qed.

Lemma assoc_descend_under (k : Seg) (p : Path) (d dc : list (Seg * Node)) :
  2 <= List.length p ->
  (assoc_get k d = None /\ dc = []) \/ assoc_get k d = Some (NDict dc) ->
  assoc_descend (k :: p) (NDict d)
  = (c <- assoc_descend p (NDict dc) ;; Ok (NDict (assoc_set k c d))).
Proof.
  intros Hlen Hk.
  destruct p as [|r0 [|r1 rest]]; simpl in Hlen; try lia.
  rewrite assoc_descend_step.
  destruct Hk as [[Hget ->]|Hget]; rewrite Hget; cbn [is_NoneType bind].
  - rewrite assoc_get_set_same.
    destruct (assoc_descend (r0 :: r1 :: rest) (NDict [])) as [c|e]; [|reflexivity].
    cbn [bind]. rewrite assoc_set_set. reflexivity.
  - rewrite Hget. reflexivity.
Qed.

Lemma merge_under (k : Seg) (sub : list Path) :
  forall d dc,
    (forall p, In p sub -> 2 <= List.length p) ->
    assoc_get k d = Some (NDict dc) ->
    assoc_merge_each (map (cons k) sub) (NDict d)
    = (c <- assoc_merge_each sub (NDict dc) ;; Ok (NDict (assoc_set k c d))).
Proof.
  induction sub as [|p sub IH]; intros d dc Hlen Hget.
  - simpl. rewrite (assoc_set_get_id k _ d Hget). reflexivity.
  - cbn [map assoc_merge_each].
    rewrite (assoc_descend_under k p d dc (Hlen p (or_introl eq_refl))
               (or_intror Hget)).
    destruct (assoc_descend p (NDict dc)) as [c|e] eqn:Hp; [|reflexivity].
    cbn [bind]. destruct (assoc_descend_dict _ _ _ Hp) as [dc' ->].
    rewrite (IH (assoc_set k (NDict dc') d) dc').
    + destruct (assoc_merge_each sub (NDict dc')) as [c'|e]; [|reflexivity].
      cbn [bind]. rewrite assoc_set_set. reflexivity.
    + intros q Hq. apply Hlen. right. exact Hq.
    + apply assoc_get_set_same.
Qed.

Lemma merge_under_new (k : Seg) (sub : list Path) (d : list (Seg * Node)) :
  sub <> [] ->
  (forall p, In p sub -> 2 <= List.length p) ->
  assoc_get k d = None ->
  assoc_merge_each (map (cons k) sub) (NDict d)
  = (c <- assoc_merge_each sub (NDict []) ;; Ok (NDict (d ++ [(k, c)]))).
Proof.
  intros Hne Hlen Hget.
  destruct sub as [|p sub]; [contradiction Hne; reflexivity|].
  cbn [map assoc_merge_each].
  rewrite (assoc_descend_under k p d [] (Hlen p (or_introl eq_refl))
             (or_introl (conj Hget eq_refl))).
  destruct (assoc_descend p (NDict [])) as [c|e] eqn:Hp; [|reflexivity].
  cbn [bind]. destruct (assoc_descend_dict _ _ _ Hp) as [dc' ->].
  rewrite (merge_under k sub (assoc_set k (NDict dc') d) dc').
  - destruct (assoc_merge_each sub (NDict dc')) as [c'|e]; [|reflexivity].
    cbn [bind]. rewrite assoc_set_set, (assoc_set_absent k c' d Hget).
    reflexivity.
  - intros q Hq. apply Hlen. right. exact Hq.
  - apply assoc_get_set_same.
Qed.

End UnderKey.

Section NestedMappings.

Variable describe_numbers : bool.

Lemma mappings_only_VDict (items : list (string * Value)) :
  mappings_only (VDict items)
  = forallb (fun kv => mappings_only (snd kv)) items.
Proof.
  simpl. induction items as [|[k v] items IH]; simpl.
  - reflexivity.
  - rewrite IH. reflexivity.
Qed.

Lemma tree_of_VDict (items : list (string * Value)) :
  tree_of describe_numbers (VDict items)
  = NDict (tree_entries describe_numbers items).
Proof.
  simpl. f_equal. induction items as [|[k v] items IH]; simpl.
  - reflexivity.
  - rewrite IH. reflexivity.
Qed.

Lemma summary_VDict (items : list (string * Value)) :
  summary describe_numbers (VDict items)
  = SDict (summary_entries describe_numbers items).
Proof.
  simpl. f_equal. induction items as [|[k v] items IH]; simpl.
  - reflexivity.
  - rewrite IH. reflexivity.
Qed.

Lemma has_scalar_false (v : Value) :
  has_scalar v = false -> _get_paths describe_numbers v [] = [].
Proof.
  unfold has_scalar. intros H. apply negb_false_iff, Nat.eqb_eq in H.
  rewrite <- (_get_paths_length describe_numbers v) in H.
  destruct (_get_paths describe_numbers v []); [reflexivity | discriminate H].
Qed.

Lemma has_scalar_true (v : Value) :
  has_scalar v = true -> _get_paths describe_numbers v [] <> [].
Proof.
  unfold has_scalar. intros H E. apply negb_true_iff, Nat.eqb_neq in H.
  apply H. rewrite <- (_get_paths_length describe_numbers v), E. reflexivity.
Qed.

Lemma dict_paths_length (items : list (string * Value)) (p : Path) :
  In p (dict_paths describe_numbers [] items) -> 2 <= List.length p.
Proof.
  intros Hp. apply dict_paths_In_inv in Hp.
  destruct Hp as (k & v & q & -> & _ & Hq).
  apply _get_paths_ends_str in Hq. destruct q; [discriminate Hq|].
  simpl. lia.
Qed.

Lemma distinct_cons (k : string) (keys : list string) :
  distinct (k :: keys) = true ->
  (forall k', In k' keys -> seg_eqb (Str k) (Str k') = false)
  /\ distinct keys = true.
Proof.
  simpl. intros H. apply andb_prop in H. destruct H as [Hk Hd].
  split; [|exact Hd].
  intros k' Hin. simpl.
  destruct (String.eqb k k') eqn:E; [|reflexivity].
  apply negb_true_iff in Hk.
  assert (Hex : existsb (String.eqb k) keys = true).
  { apply existsb_exists. exists k'. split; assumption. }
  rewrite Hex in Hk. discriminate Hk.
Qed.

(** The entries of a mapping, merged in their order, append their
    trees to the accumulator, entries without a scalar apart. *)
Lemma merge_entries (l : list (string * Value)) :
  Forall (fun kv =>
            forall items,
              snd kv = VDict items ->
              mappings_only (snd kv) = true ->
              unique_keys (snd kv) = true ->
              assoc_merge_each (dict_paths describe_numbers [] items) (NDict [])
              = Ok (tree_of describe_numbers (snd kv))) l ->
  forallb (fun kv => mappings_only (snd kv)) l = true ->
  forallb (fun kv => unique_keys (snd kv)) l = true ->
  distinct (map fst l) = true ->
  forall d,
    (forall k, In k (map fst l) -> assoc_get (Str k) d = None) ->
    assoc_merge_each (dict_paths describe_numbers [] l) (NDict d)
    = Ok (NDict (d ++ tree_entries describe_numbers l)).
Proof.
  induction 1 as [|[k v] l Hv _ IH]; intros Hm Hu Hd d Habs.
  - simpl. rewrite app_nil_r. reflexivity.
  - cbn [forallb snd] in Hm, Hu. apply andb_prop in Hm, Hu.
    destruct Hm as [Hmv Hml], Hu as [Huv Hul].
    cbn [map fst] in Hd, Habs. apply distinct_cons in Hd.
    destruct Hd as [Hk Hdl].
    assert (Hgetk : assoc_get (Str k) d = None).
    { apply Habs. left. reflexivity. }
    assert (Hrest : forall c,
               assoc_merge_each (dict_paths describe_numbers [] l)
                          (NDict (d ++ [(Str k, c)]))
               = Ok (NDict (d ++ (Str k, c) :: tree_entries describe_numbers l))).
    { intros c. rewrite (IH Hml Hul Hdl (d ++ [(Str k, c)])).
      - rewrite <- app_assoc. reflexivity.
      - intros k' Hk'. apply assoc_get_app_absent.
        + apply Habs. right. exact Hk'.
        + apply Hk. exact Hk'. }
    cbn [dict_paths tree_entries]. rewrite assoc_merge_each_app, extend_nil.
    destruct v as [| b | z | f | s | typename | elems | items];
      try discriminate Hmv.
    7: {
      rewrite _get_paths_VDict.
      destruct (has_scalar (VDict items)) eqn:Hs.
      - rewrite (merge_under_new (Str k) _ d).
        + rewrite (Hv items eq_refl Hmv Huv). cbn [bind snd]. apply Hrest.
        + rewrite <- _get_paths_VDict. apply has_scalar_true. exact Hs.
        + apply dict_paths_length.
        + exact Hgetk.
      - rewrite <- _get_paths_VDict, (has_scalar_false _ Hs). cbn [map assoc_merge_each bind].
        apply (IH Hml Hul Hdl d). intros k' Hk'. apply Habs. right. exact Hk'. }
    all: cbn [_get_paths map assoc_merge_each has_scalar count_scalars Nat.eqb negb];
      rewrite assoc_descend_step, Hgetk; cbn [bind]; rewrite assoc_get_set_same;
      cbn [assoc_descend bind]; rewrite assoc_set_set, (assoc_set_absent _ _ d Hgetk);
      apply Hrest.
Qed.

Lemma merge_tree_of (data : Value) :
  forall items,
    data = VDict items ->
    mappings_only data = true ->
    unique_keys data = true ->
    assoc_merge_each (dict_paths describe_numbers [] items) (NDict [])
    = Ok (tree_of describe_numbers data).
Proof.
  induction data as [v Hv | elems IH | items0 IH] using Value_nested_ind;
    intros items E Hm Hu.
  - subst v. discriminate Hv.
  - discriminate E.
  - injection E as <-.
    rewrite mappings_only_VDict in Hm. rewrite unique_keys_VDict in Hu.
    apply andb_prop in Hu. destruct Hu as [Hd Hu].
    rewrite tree_of_VDict.
    apply (merge_entries items0 IH Hm Hu Hd []).
    intros k _. reflexivity.
Qed.

End NestedMappings.

Section NestedMappingsResult.

Variable describe_numbers : bool.

Lemma mappings_only_no_index (data : Value) :
  mappings_only data = true ->
  forall p, In p (_get_paths describe_numbers data []) ->
            map collapse_seg p = p.
Proof.
  induction data as [v Hv | elems IH | items IH] using Value_nested_ind;
    intros Hm p Hp.
  - rewrite (_get_paths_scalar _ v [] Hv) in Hp. destruct Hp as [<-|[]].
    reflexivity.
  - discriminate Hm.
  - rewrite _get_paths_VDict in Hp. apply dict_paths_In_inv in Hp.
    destruct Hp as (k & v & q & -> & Hin & Hq).
    rewrite mappings_only_VDict, forallb_forall in Hm.
    rewrite Forall_forall in IH. simpl. f_equal.
    apply (IH (k, v) Hin (Hm (k, v) Hin) q Hq).
Qed.

Lemma _convert_lists_str_keys (d : list (Seg * Node)) :
  (forall k v, In (k, v) d -> is_str k = true) ->
  _convert_lists (NDict d)
  = SDict (map (fun '(k, v) => (k, _convert_lists v)) d).
Proof.
  intros H. destruct d as [|[[i|s] v] d]; try reflexivity.
  specialize (H (Index i) v (or_introl eq_refl)). discriminate H.
Qed.

Lemma tree_entries_str (l : list (string * Value)) :
  forall k v, In (k, v) (tree_entries describe_numbers l) -> is_str k = true.
Proof.
  induction l as [|[k0 v0] l IH]; intros k v Hin; simpl in Hin.
  - destruct Hin.
  - destruct (has_scalar v0).
    + destruct Hin as [E|Hin]; [injection E as <- _; reflexivity|].
      apply (IH k v Hin).
    + apply (IH k v Hin).
Qed.

Lemma _convert_lists_tree_of (data : Value) :
  mappings_only data = true ->
  _convert_lists (tree_of describe_numbers data) = summary describe_numbers data.
Proof.
  induction data as [v Hv | elems IH | items IH] using Value_nested_ind;
    intros Hm.
  - destruct v; try reflexivity; discriminate Hv.
  - discriminate Hm.
  - rewrite tree_of_VDict, summary_VDict.
    rewrite (_convert_lists_str_keys _ (tree_entries_str items)). f_equal.
    rewrite mappings_only_VDict in Hm.
    induction IH as [|[k v] l Hv _ IHl]; [reflexivity|].
    cbn [forallb snd] in Hm, Hv. apply andb_prop in Hm.
    destruct Hm as [Hmv Hml].
    cbn [tree_entries summary_entries]. destruct (has_scalar v).
    + cbn [map]. rewrite (Hv Hmv), (IHl Hml). reflexivity.
    + apply (IHl Hml).
Qed.

End NestedMappingsResult.

(** On nested mappings of scalars [assoc_shape] does what its docstring
    says: for a mapping that holds no sequence at any depth (each
    mapping holding every key once), called without [key_patterns] and
    without [sort], it returns the same nesting with every scalar
    replaced by its type label, the keys in the input's order, and the
    entries that hold no scalar (empty mappings) left out. *)
Lemma assoc_shape_of_nested_mappings :
  forall re_sub describe_numbers items,
    mappings_only (VDict items) = true ->
    unique_keys (VDict items) = true ->
    assoc_shape re_sub None describe_numbers false (VDict items)
    = Ok (summary describe_numbers (VDict items)).
Proof.
  intros re_sub dn items Hm Hu.
  unfold assoc_shape, assoc_collapsed_paths.
  rewrite _apply_patterns_None. cbn [bind].
  rewrite (_describe_numbers_ok dn _ (_get_paths_ends_str dn (VDict items))).
  cbn [bind]. unfold assoc_merge_paths, assoc_collapse_paths.
  assert (Hid : map (map collapse_seg) (_get_paths dn (VDict items) [])
                = _get_paths dn (VDict items) []).
  { rewrite <- (map_id (_get_paths dn (VDict items) [])) at 2.
    apply map_ext_in. intros p Hp.
    apply (mappings_only_no_index dn (VDict items) Hm p Hp). }
  rewrite Hid.
  rewrite (assoc_merge_each_fromkeys (_get_paths dn (VDict items) []) [] (NDict [])).
  - cbn [app]. rewrite _get_paths_VDict.
    rewrite (merge_tree_of dn (VDict items) items eq_refl Hm Hu). cbn [bind].
    rewrite (_convert_lists_tree_of dn (VDict items) Hm). reflexivity.
  - intros q [].
  - apply _get_paths_ends_str.
Qed.


(** ** What the merge can raise *)

Section MergeRaises.

Variable paths : list Path.

Lemma assoc_descend_raises (p : Path) :
  forall (pre : Path) (cur : Node) (e : exn),
    In (pre ++ p) paths ->
    ends_str p = true ->
    built paths pre cur ->
    assoc_descend p cur = Err e ->
    e = TypeError.
Proof.
  induction p as [|key p IH]; intros pre cur e Hin Hend Hb Hrun.
  - discriminate Hrun.
  - destruct p as [|r0 rest']; [discriminate Hrun|].
    destruct cur as [x|d].
    { simpl in Hrun. injection Hrun as <-. reflexivity. }
    rewrite assoc_descend_step in Hrun.
    assert (Hend' : ends_str (r0 :: rest') = true) by exact Hend.
    pose proof (built_fresh paths (pre ++ [key]) r0 rest' Hend') as Hnode.
    assert (Hfin : forall d1 child,
               built paths (pre ++ [key]) child ->
               (child' <- assoc_descend (r0 :: rest') child ;;
                Ok (NDict (assoc_set key child' d1))) = Err e ->
               e = TypeError).
    { intros d1 child Hchild Hk.
      destruct (assoc_descend (r0 :: rest') child) as [child'|e'] eqn:Hc;
        [discriminate Hk|].
      injection Hk as <-.
      apply (IH (pre ++ [key]) child e').
      - rewrite <- app_assoc. exact Hin.
      - exact Hend'.
      - exact Hchild.
      - exact Hc. }
    destruct (assoc_get key d) as [bound|] eqn:Hget.
    + pose proof (built_entry paths pre d key bound Hb Hget) as Hbound.
      destruct bound as [x|db].
      * inversion Hbound as [pre' s|]; subst. cbn [is_NoneType bind] in Hrun.
        destruct (String.eqb s "NoneType").
        -- rewrite assoc_get_set_same in Hrun. apply (Hfin _ _ Hnode Hrun).
        -- rewrite Hget in Hrun. apply (Hfin _ _ Hbound Hrun).
      * cbn [is_NoneType bind] in Hrun. rewrite Hget in Hrun.
        apply (Hfin _ _ Hbound Hrun).
    + cbn [bind] in Hrun. rewrite assoc_get_set_same in Hrun.
      apply (Hfin _ _ Hnode Hrun).
Qed.

Lemma assoc_merge_each_raises (l : list Path) :
  forall merged e,
    (forall p, In p l -> In p paths /\ ends_str p = true) ->
    built paths [] merged ->
    assoc_merge_each l merged = Err e ->
    e = TypeError.
Proof.
  induction l as [|p l IH]; intros merged e Hl Hb Hrun; simpl in Hrun.
  - discriminate Hrun.
  - destruct (Hl p (or_introl eq_refl)) as [Hin Hend].
    destruct (assoc_descend p merged) as [m1|e1] eqn:Hp; cbn [bind] in Hrun.
    + apply (IH m1 e).
      * intros q Hq. apply Hl. right. exact Hq.
      * apply (assoc_descend_built paths p [] merged m1); assumption.
      * exact Hrun.
    + injection Hrun as <-.
      apply (assoc_descend_raises p [] merged e1); assumption.
Qed.

End MergeRaises.

(** Once the stages before the merge have returned, the only exception
    [assoc_shape] can raise is [TypeError], and it raises it only when some
    position holds a scalar other than null in one place of the input
    and a mapping or a sequence in another. *)
Lemma assoc_shape_merge_raises_only_TypeError :
  forall re_sub key_patterns describe_numbers sort data paths e,
    assoc_collapsed_paths re_sub key_patterns describe_numbers sort data = Ok paths ->
    assoc_shape re_sub key_patterns describe_numbers sort data = Err e ->
    e = TypeError /\ no_leaf_conflict paths = false.
Proof.
  intros re_sub key_patterns dn sort data paths e Hpaths Hshape.
  unfold assoc_shape in Hshape. rewrite Hpaths in Hshape. cbn [bind] in Hshape.
  unfold assoc_merge_paths in Hshape.
  pose proof (assoc_collapsed_paths_facts re_sub key_patterns dn sort data paths Hpaths)
    as Hfacts.
  assert (Hl : forall p, In p paths -> In p paths /\ ends_str p = true).
  { intros p Hp. split; [exact Hp | apply (Hfacts p Hp)]. }
  destruct (assoc_merge_each paths (NDict [])) as [merged|e'] eqn:Hm;
    [discriminate Hshape|].
  injection Hshape as <-. split.
  - apply (assoc_merge_each_raises paths paths (NDict []) e' Hl); [|exact Hm].
    apply built_dict; [constructor | intros k v [] | intros k v []].
  - destruct (no_leaf_conflict paths) eqn:Hfree; [|reflexivity].
    destruct (assoc_merge_each_returns paths Hfree paths [] Hl (grown_empty paths []))
      as [merged Hok].
    rewrite Hok in Hm. discriminate Hm.
Qed.


(** ** The order of the keys *)

Section KeyOrder.

Lemma existsb_keys_dict_get {V : Type} (k : Seg) (d : list (Seg * V)) :
  existsb (fun k' => seg_eqb k' k) (map fst d)
  = match assoc_get k d with Some _ => true | None => false end.
Proof.
  induction d as [|[k' v'] d IH]; simpl.
  - reflexivity.
  - destruct (seg_eqb k' k); [reflexivity | exact IH].
Qed.

Lemma keys_dict_set_add {V : Type} (k : Seg) (v : V) (d : list (Seg * V)) :
  map fst (assoc_set k v d) = add_key k (map fst d).
Proof.
  unfold add_key. rewrite keys_dict_set, existsb_keys_dict_get.
  destruct (assoc_get k d); reflexivity.
Qed.

Lemma add_key_idempotent (k : Seg) (keys : list Seg) :
  add_key k (add_key k keys) = add_key k keys.
Proof.
  unfold add_key at 2.
  destruct (existsb (fun k' => seg_eqb k' k) keys) eqn:E.
  - unfold add_key. rewrite E. reflexivity.
  - unfold add_key. rewrite existsb_app, E. simpl.
    rewrite seg_eqb_refl. reflexivity.
Qed.

(** A turn of the loop adds its key to the dict's keys, if new, at
    the end, and moves no key. *)
Lemma assoc_descend_keys (k r0 : Seg) (rest' : Path) (d d' : list (Seg * Node)) :
  assoc_descend (k :: r0 :: rest') (NDict d) = Ok (NDict d') ->
  map fst d' = add_key k (map fst d).
Proof.
  intros H. rewrite assoc_descend_step in H.
  destruct (assoc_get k d) as [bound|] eqn:Hget.
  - destruct (is_NoneType bound) as [[|]|e]; [| |discriminate H];
      cbn [bind] in H.
    + rewrite assoc_get_set_same in H.
      destruct (assoc_descend (r0 :: rest') _) as [c|e] in H; [|discriminate H].
      injection H as <-. rewrite assoc_set_set. apply keys_dict_set_add.
    + rewrite Hget in H.
      destruct (assoc_descend (r0 :: rest') bound) as [c|e]; [|discriminate H].
      injection H as <-. apply keys_dict_set_add.
  - cbn [bind] in H. rewrite assoc_get_set_same in H.
    destruct (assoc_descend (r0 :: rest') _) as [c|e] in H; [|discriminate H].
    injection H as <-. rewrite assoc_set_set. apply keys_dict_set_add.
Qed.

Lemma assoc_merge_each_first_keys (l : list Path) :
  forall d d',
    assoc_merge_each l (NDict d) = Ok (NDict d') ->
    map fst d' = first_keys (map fst d) l.
Proof.
  induction l as [|p l IH]; intros d d' H; simpl in H.
  - injection H as <-. reflexivity.
  - destruct (assoc_descend p (NDict d)) as [m1|e] eqn:Hp; [|discriminate H].
    cbn [bind] in H. destruct (assoc_descend_dict _ _ _ Hp) as [d1 ->].
    rewrite (IH d1 d' H).
    destruct p as [|k [|r0 rest']].
    + injection Hp as <-. reflexivity.
    + injection Hp as <-. reflexivity.
    + cbn [first_keys]. rewrite (assoc_descend_keys k r0 rest' d d1 Hp). reflexivity.
Qed.

End KeyOrder.

Section TopLevelKeys.

Variable describe_numbers : bool.

Lemma assoc_merge_each_dict (l : list Path) :
  forall d m, assoc_merge_each l (NDict d) = Ok m -> exists d', m = NDict d'.
Proof.
  induction l as [|p l IH]; intros d m H; simpl in H.
  - injection H as <-. exists d. reflexivity.
  - destruct (assoc_descend p (NDict d)) as [m1|e] eqn:Hp; [|discriminate H].
    cbn [bind] in H. destruct (assoc_descend_dict _ _ _ Hp) as [d1 ->].
    apply (IH d1 m H).
Qed.

Lemma first_keys_app (l1 l2 : list Path) :
  forall keys,
    first_keys keys (l1 ++ l2) = first_keys (first_keys keys l1) l2.
Proof.
  induction l1 as [|p l1 IH]; intros keys; [reflexivity|].
  destruct p as [|k [|r0 rest]]; simpl; apply IH.
Qed.

Lemma first_keys_collapse (l : list Path) :
  forall keys,
    (forall p, In p l -> exists k q, p = Str k :: q) ->
    first_keys keys (map (map collapse_seg) l) = first_keys keys l.
Proof.
  induction l as [|p l IH]; intros keys H; [reflexivity|].
  destruct (H p (or_introl eq_refl)) as (k & q & ->).
  assert (Hl : forall p, In p l -> exists k q, p = Str k :: q).
  { intros p Hp. apply H. right. exact Hp. }
  destruct q as [|r0 rest]; simpl; apply IH; exact Hl.
Qed.

Lemma first_keys_block (k : Seg) (sub : list Path) :
  (forall q, In q sub -> q <> []) ->
  forall keys,
    first_keys keys (map (cons k) sub)
    = match sub with [] => keys | _ :: _ => add_key k keys end.
Proof.
  induction sub as [|q sub IH]; intros Hne keys; [reflexivity|].
  destruct q as [|r0 rest].
  { contradiction (Hne [] (or_introl eq_refl)). reflexivity. }
  cbn [map first_keys]. rewrite IH.
  - destruct sub; [reflexivity | apply add_key_idempotent].
  - intros q Hq. apply Hne. right. exact Hq.
Qed.

Lemma add_key_new (k : Seg) (keys : list Seg) :
  existsb (fun k' => seg_eqb k' k) keys = false ->
  add_key k keys = keys ++ [k].
Proof. intros H. unfold add_key. rewrite H. reflexivity. Qed.

Lemma first_keys_dict_paths (items : list (string * Value)) :
  distinct (map fst items) = true ->
  forall keys,
    (forall k, In k (map fst items) ->
               existsb (fun k' => seg_eqb k' (Str k)) keys = false) ->
    first_keys keys (dict_paths describe_numbers [] items)
    = keys ++ keys_with_scalars items.
Proof.
  unfold keys_with_scalars.
  induction items as [|[k v] items IH]; intros Hd keys Hnew.
  - simpl. rewrite app_nil_r. reflexivity.
  - cbn [map fst] in Hd, Hnew. apply distinct_cons in Hd.
    destruct Hd as [Hk Hd].
    cbn [dict_paths]. rewrite first_keys_app, extend_nil, first_keys_block.
    2: { intros q Hq E. apply _get_paths_ends_str in Hq. subst q.
         discriminate Hq. }
    cbn [filter snd]. destruct (has_scalar v) eqn:Hs.
    + pose proof (has_scalar_true describe_numbers v Hs) as Hne.
      destruct (_get_paths describe_numbers v []) as [|q sub];
        [contradiction Hne; reflexivity|].
      rewrite (add_key_new (Str k) keys (Hnew k (or_introl eq_refl))).
      rewrite (IH Hd (keys ++ [Str k])).
      * cbn [map fst]. rewrite <- app_assoc. reflexivity.
      * intros k' Hk'. rewrite existsb_app. simpl.
        rewrite (Hnew k' (or_intror Hk')). simpl.
        rewrite orb_false_r. apply (Hk k' Hk').
    + rewrite (has_scalar_false describe_numbers v Hs).
      apply (IH Hd keys). intros k' Hk'. apply Hnew. right. exact Hk'.
Qed.

Lemma dict_paths_head (items : list (string * Value)) (p : Path) :
  In p (dict_paths describe_numbers [] items) -> exists k q, p = Str k :: q.
Proof.
  intros Hp. apply dict_paths_In_inv in Hp.
  destruct Hp as (k & v & q & -> & _ & _). exists k, q. reflexivity.
Qed.

End TopLevelKeys.

(** Without [sort] the keys of the returned mapping follow the input:
    for a mapping given at the top level (each key once, whatever its
    values hold), called without [key_patterns], what [assoc_shape] returns is
    a mapping whose keys are the input's keys in the input's order,
    those whose value holds no scalar left out. *)
Lemma assoc_shape_keeps_key_order :
  forall re_sub describe_numbers items t,
    distinct (map fst items) = true ->
    assoc_shape re_sub None describe_numbers false (VDict items) = Ok t ->
    exists items',
      t = SDict items' /\ map fst items' = keys_with_scalars items.
Proof.
  intros re_sub dn items t Hd H.
  unfold assoc_shape, assoc_collapsed_paths in H.
  rewrite _apply_patterns_None in H. cbn [bind] in H.
  rewrite (_describe_numbers_ok dn _ (_get_paths_ends_str dn (VDict items)))
    in H.
  cbn [bind] in H. unfold assoc_merge_paths, assoc_collapse_paths in H.
  rewrite (assoc_merge_each_fromkeys _ [] (NDict [])) in H.
  2: { intros q []. }
  2: { intros q Hq. apply in_map_iff in Hq. destruct Hq as (p & <- & Hp).
       rewrite collapse_seg_ends_str. apply (_get_paths_ends_str dn _ p Hp). }
  cbn [app] in H.
  destruct (assoc_merge_each _ (NDict [])) as [merged|e] eqn:Hm; [|discriminate H].
  cbn [bind] in H. injection H as <-.
  destruct (assoc_merge_each_dict _ _ _ Hm) as [d' ->].
  pose proof (assoc_merge_each_first_keys _ _ _ Hm) as Hkeys.
  simpl (map fst []) in Hkeys.
  rewrite _get_paths_VDict in Hkeys.
  rewrite (first_keys_collapse _ _ (dict_paths_head dn items)) in Hkeys.
  rewrite (first_keys_dict_paths dn items Hd []) in Hkeys
    by (intros; reflexivity).
  cbn [app map] in Hkeys.
  exists (map (fun '(k, v) => (k, _convert_lists v)) d'). split.
  - apply _convert_lists_str_keys. intros k v Hin.
    assert (Hk : In k (keys_with_scalars items)).
    { rewrite <- Hkeys. apply (in_map fst d' (k, v) Hin). }
    apply in_map_iff in Hk. destruct Hk as (kv & <- & _). reflexivity.
  - rewrite map_map, <- Hkeys. apply map_ext. intros [k v]. reflexivity.
Qed.


Section SortedKeys.

Lemma add_key_In (k x : Seg) (keys : list Seg) :
  In x (add_key k keys) <-> In x keys \/ x = k.
Proof.
  unfold add_key.
  destruct (existsb (fun k' => seg_eqb k' k) keys) eqn:E.
  - split; [intros H; left; exact H|].
    intros [H| ->]; [exact H|].
    apply existsb_exists in E. destruct E as (k' & Hin & Heq).
    apply seg_eqb_eq in Heq. subst. exact Hin.
  - rewrite in_app_iff. simpl. split.
    + intros [H|[<-|[]]]; [left; exact H | right; reflexivity].
    + intros [H| ->]; [left; exact H | right; left; reflexivity].
Qed.

Lemma first_keys_In (l : list Path) :
  forall keys k,
    In k (first_keys keys l)
    <-> In k keys \/ exists r0 rest, In (k :: r0 :: rest) l.
Proof.
  induction l as [|p l IH]; intros keys k.
  - simpl. split; [intros H; left; exact H|].
    intros [H|(r0 & rest & [])]. exact H.
  - destruct p as [|k0 [|r0 rest]]; cbn [first_keys]; rewrite IH.
    + split.
      * intros [H|(r & rs & H)]; [left; exact H|].
        right. exists r, rs. right. exact H.
      * intros [H|(r & rs & [E|H])]; [left; exact H | discriminate E |].
        right. exists r, rs. exact H.
    + split.
      * intros [H|(r & rs & H)]; [left; exact H|].
        right. exists r, rs. right. exact H.
      * intros [H|(r & rs & [E|H])]; [left; exact H | discriminate E |].
        right. exists r, rs. exact H.
    + rewrite add_key_In. split.
      * intros [[H| ->]|(r & rs & H)].
        -- left. exact H.
        -- right. exists r0, rest. left. reflexivity.
        -- right. exists r, rs. right. exact H.
      * intros [H|(r & rs & [E|H])].
        -- left. left. exact H.
        -- injection E as -> _ _. left. right. reflexivity.
        -- right. exists r, rs. exact H.
Qed.

Lemma StronglySorted_snoc (keys : list Seg) (k : Seg) :
  StronglySorted key_before keys ->
  Forall (fun a => key_before a k) keys ->
  StronglySorted key_before (keys ++ [k]).
Proof.
  induction 1 as [|a keys Hs IH Ha]; intros Hk; simpl.
  - constructor; constructor.
  - inversion Hk as [|a' l' Hak Hk']; subst.
    constructor; [apply IH; exact Hk'|].
    apply Forall_app. split; [exact Ha|]. constructor; [exact Hak | constructor].
Qed.

Lemma path_le_head (k k' : Seg) (p q : Path) :
  path_le (k :: p) (k' :: q) -> seg_compare k k' <> Gt.
Proof.
  unfold path_le. simpl. intros H E. rewrite E in H. apply H. reflexivity.
Qed.

(** The first keys of an ascending list of paths are ascending. *)
Lemma first_keys_sorted (l : list Path) :
  StronglySorted path_le l ->
  forall keys,
    StronglySorted key_before keys ->
    (forall a k r0 rest,
        In a keys -> In (k :: r0 :: rest) l -> seg_compare a k <> Gt) ->
    StronglySorted key_before (first_keys keys l).
Proof.
  induction 1 as [|p l Hs IH Hp]; intros keys Hk Hle; [exact Hk|].
  assert (Hle' : forall a k r0 rest,
             In a keys -> In (k :: r0 :: rest) l -> seg_compare a k <> Gt).
  { intros a k r0 rest Ha Hin. apply (Hle a k r0 rest Ha). right. exact Hin. }
  destruct p as [|k [|r0 rest]]; cbn [first_keys];
    try (apply IH; assumption).
  apply IH.
  - unfold add_key.
    destruct (existsb (fun k' => seg_eqb k' k) keys) eqn:E; [exact Hk|].
    apply StronglySorted_snoc; [exact Hk|].
    apply Forall_forall. intros a Ha. unfold key_before.
    pose proof (Hle a k r0 rest Ha (or_introl eq_refl)) as Hak.
    destruct (seg_compare a k) eqn:C; [|reflexivity | contradiction Hak; reflexivity].
    apply seg_compare_eq in C. subst a.
    assert (Hex : existsb (fun k' => seg_eqb k' k) keys = true).
    { apply existsb_exists. exists k. split; [exact Ha | apply seg_eqb_refl]. }
    rewrite Hex in E. discriminate E.
  - intros a k' r0' rest' Ha Hin. apply add_key_In in Ha.
    destruct Ha as [Ha| ->]; [apply (Hle' a k' r0' rest' Ha Hin)|].
    rewrite Forall_forall in Hp.
    apply (path_le_head k k' (r0 :: rest) (r0' :: rest')). apply Hp. exact Hin.
Qed.

End SortedKeys.

(** With [sort] the keys of the returned mapping are sorted: for a
    mapping given at the top level (every mapping in it holding each
    key once), called with [sort=True] and without [key_patterns], what
    [assoc_shape] returns is a mapping whose keys are in strictly ascending
    order and are the input's keys whose value holds a scalar. *)
Lemma assoc_shape_sort_orders_top_level_keys :
  forall re_sub describe_numbers items t,
    unique_keys (VDict items) = true ->
    assoc_shape re_sub None describe_numbers true (VDict items) = Ok t ->
    exists items',
      t = SDict items'
      /\ StronglySorted key_before (map fst items')
      /\ (forall k, In k (map fst items') <-> In k (keys_with_scalars items)).
Proof.
  intros re_sub dn items t Hu H.
  destruct (sorted_spec _ (_get_paths_comparable dn (VDict items) Hu))
    as (sp & Hsp & Hperm & Hsorted).
  assert (Hin_sp : forall p, In p sp -> In p (_get_paths dn (VDict items) [])).
  { intros p Hp. apply (Permutation_in p (Permutation_sym Hperm) Hp). }
  unfold assoc_shape, assoc_collapsed_paths in H.
  rewrite _apply_patterns_None in H. cbn [bind] in H.
  rewrite (_describe_numbers_ok dn _ (_get_paths_ends_str dn (VDict items)))
    in H.
  cbn [bind] in H. rewrite Hsp in H. cbn [bind] in H.
  unfold assoc_merge_paths, assoc_collapse_paths in H.
  rewrite (assoc_merge_each_fromkeys _ [] (NDict [])) in H.
  2: { intros q []. }
  2: { intros q Hq. apply in_map_iff in Hq. destruct Hq as (p & <- & Hp).
       rewrite collapse_seg_ends_str.
       apply (_get_paths_ends_str dn _ p (Hin_sp p Hp)). }
  cbn [app] in H.
  destruct (assoc_merge_each _ (NDict [])) as [merged|e] eqn:Hm; [|discriminate H].
  cbn [bind] in H. injection H as <-.
  destruct (assoc_merge_each_dict _ _ _ Hm) as [d' ->].
  pose proof (assoc_merge_each_first_keys _ _ _ Hm) as Hkeys.
  simpl (map fst []) in Hkeys.
  rewrite first_keys_collapse in Hkeys.
  2: { intros p Hp. apply Hin_sp in Hp. rewrite _get_paths_VDict in Hp.
       apply (dict_paths_head dn items p Hp). }
  assert (Hmem : forall k, In k (map fst d') <-> In k (keys_with_scalars items)).
  { intros k. rewrite Hkeys, first_keys_In.
    rewrite unique_keys_VDict in Hu. apply andb_prop in Hu.
    destruct Hu as [Hd _].
    pose proof (first_keys_dict_paths dn items Hd []
                  (fun _ _ => eq_refl)) as Hfk.
    cbn [app] in Hfk. rewrite <- Hfk, first_keys_In.
    rewrite <- _get_paths_VDict. split.
    - intros [[]|(r0 & rest & Hp)]. right. exists r0, rest.
      apply Hin_sp. exact Hp.
    - intros [[]|(r0 & rest & Hp)]. right. exists r0, rest.
      apply (Permutation_in _ Hperm Hp). }
  exists (map (fun '(k, v) => (k, _convert_lists v)) d').
  assert (Hfst : map fst (map (fun '(k, v) => (k, _convert_lists v)) d')
                 = map fst d').
  { rewrite map_map. apply map_ext. intros [k v]. reflexivity. }
  split; [|split].
  - apply _convert_lists_str_keys. intros k v Hin.
    assert (Hk : In k (keys_with_scalars items)).
    { apply Hmem. apply (in_map fst d' (k, v) Hin). }
    apply in_map_iff in Hk. destruct Hk as (kv & <- & _). reflexivity.
  - rewrite Hfst, Hkeys. apply (first_keys_sorted sp Hsorted []).
    + constructor.
    + intros a k r0 rest [].
  - intros k. rewrite Hfst. apply Hmem.
Qed.


(** ** Sequences of scalars *)

Section ScalarSequences.

Variable describe_numbers : bool.

Lemma seq_paths_scalars (elems : list Value) :
  Forall (fun v => is_scalar v = true) elems ->
  forall i,
    seq_paths describe_numbers [] i elems
    = number i (map (fun v => [Str (scalar_label describe_numbers v)]) elems).
Proof.
  induction 1 as [|v l Hv _ IH]; intros i; [reflexivity|].
  cbn [seq_paths map number]. rewrite (_get_paths_scalar _ v [] Hv), IH.
  reflexivity.
Qed.

Lemma number_app (qs1 qs2 : list Path) :
  forall i,
    number i (qs1 ++ qs2)
    = number i qs1 ++ number (i + List.length qs1) qs2.
Proof.
  induction qs1 as [|q qs1 IH]; intros i; simpl.
  - rewrite Nat.add_0_r. reflexivity.
  - rewrite IH. replace (S i + List.length qs1) with (i + S (List.length qs1))
      by lia. reflexivity.
Qed.

Lemma number_In (qs : list Path) :
  forall i p,
    In p (number i qs) ->
    exists j q, p = Index j :: q /\ i <= j < i + List.length qs.
Proof.
  induction qs as [|q qs IH]; intros i p Hp; simpl in Hp.
  - destruct Hp.
  - destruct Hp as [<-|Hp].
    + exists i, q. split; [reflexivity | simpl; lia].
    + destruct (IH (S i) p Hp) as (j & q' & -> & Hj).
      exists j, q'. split; [reflexivity | simpl; lia].
Qed.

Lemma sorted_onto_number (qs2 : list Path) :
  forall i qs1,
    sorted_onto (number i qs1) (number (i + List.length qs1) qs2)
    = Ok (number i (qs1 ++ qs2)).
Proof.
  induction qs2 as [|q qs2 IH]; intros i qs1.
  - simpl. rewrite app_nil_r. reflexivity.
  - cbn [number sorted_onto]. rewrite insert_sorted_last.
    + cbn [bind].
      assert (E1 : number i (qs1 ++ [q])
                   = number i qs1
                     ++ [(Index (i + List.length qs1) :: q : Path)]).
      { rewrite number_app. reflexivity. }
      assert (E2 : S (i + List.length qs1) = i + List.length (qs1 ++ [q])).
      { rewrite length_app. simpl. lia. }
      rewrite <- E1, E2, IH, <- app_assoc. reflexivity.
    + intros p Hp. apply number_In in Hp. destruct Hp as (j & q' & -> & Hj).
      simpl. destruct (Nat.eqb_spec (i + List.length qs1) j) as [E|_]; [lia|].
      simpl. destruct (Nat.ltb_spec (i + List.length qs1) j) as [E|_]; [lia|].
      reflexivity.
Qed.

Lemma sorted_number (qs : list Path) :
  sorted (number 0 qs) = Ok (number 0 qs).
Proof. apply (sorted_onto_number qs 0 []). Qed.

Lemma collapse_number_labels (labels : list string) :
  forall i,
    map (map collapse_seg) (number i (map (fun l => [Str l]) labels))
    = map (fun l => [Index 0; Str l]) labels.
Proof.
  induction labels as [|l labels IH]; intros i; simpl.
  - reflexivity.
  - rewrite IH. reflexivity.
Qed.

(** The labels of the elements, merged in turn: the slot keeps the
    first that is not null. *)
Lemma merge_labels (labels : list string) :
  forall cur,
    assoc_merge_each (map (fun l => [Index 0; Str l]) labels)
               (NDict [(Index 0, NLeaf (Str cur))])
    = Ok (NDict [(Index 0,
                  NLeaf (Str (if String.eqb cur "NoneType"
                              then first_label labels else cur)))]).
Proof.
  induction labels as [|l labels IH]; intros cur.
  - simpl. destruct (String.eqb_spec cur "NoneType") as [->|_]; reflexivity.
  - cbn [map assoc_merge_each]. rewrite assoc_descend_step.
    cbn [assoc_get seg_eqb Nat.eqb is_NoneType bind].
    destruct (String.eqb cur "NoneType") eqn:E.
    + cbn [assoc_set assoc_get seg_eqb Nat.eqb assoc_descend bind].
      rewrite (IH l). reflexivity.
    + cbn [assoc_set assoc_get seg_eqb Nat.eqb assoc_descend bind].
      rewrite (IH cur), E. reflexivity.
Qed.

End ScalarSequences.

(** The docstring's rule for lists, on scalars: for a non-empty
    sequence of scalars, called without [key_patterns], [assoc_shape] returns
    a one-element list holding the label of the first element that is
    not null, or ["NoneType"] when every element is null; [sort] makes
    no difference. *)
Lemma assoc_shape_of_scalar_sequence :
  forall re_sub describe_numbers sort elems,
    elems <> [] ->
    Forall (fun v => is_scalar v = true) elems ->
    assoc_shape re_sub None describe_numbers sort (VSeq elems)
    = Ok (SList [SLeaf (Str (first_label
                               (map (scalar_label describe_numbers) elems)))]).
Proof.
  intros re_sub dn sort elems Hne Hall.
  unfold assoc_shape, assoc_collapsed_paths.
  rewrite _apply_patterns_None. cbn [bind].
  rewrite (_describe_numbers_ok dn _ (_get_paths_ends_str dn (VSeq elems))).
  cbn [bind]. rewrite _get_paths_VSeq, (seq_paths_scalars dn elems Hall 0).
  assert (Hsort : (if sort
                   then sorted (number 0 (map (fun v => [Str (scalar_label dn v)])
                                              elems))
                   else Ok (number 0 (map (fun v => [Str (scalar_label dn v)])
                                          elems)))
                  = Ok (number 0 (map (fun v => [Str (scalar_label dn v)])
                                      elems))).
  { destruct sort; [apply sorted_number | reflexivity]. }
  rewrite Hsort. cbn [bind]. unfold assoc_merge_paths, assoc_collapse_paths.
  replace (map (fun v => [Str (scalar_label dn v)]) elems)
    with (map (fun l => [Str l]) (map (scalar_label dn) elems))
    by (rewrite map_map; reflexivity).
  rewrite collapse_number_labels.
  rewrite (assoc_merge_each_fromkeys _ [] (NDict [])).
  - cbn [app]. destruct elems as [|v elems]; [contradiction Hne; reflexivity|].
    cbn [map assoc_merge_each assoc_descend assoc_get assoc_set bind seg_eqb Nat.eqb].
    rewrite (merge_labels (map (scalar_label dn) elems) (scalar_label dn v)).
    reflexivity.
  - intros q [].
  - intros q Hq. apply in_map_iff in Hq. destruct Hq as (l & <- & _).
    reflexivity.
Qed.


(** ** What [describe_numbers] changes *)

Section NodeInduction.

Variable P : Node -> Prop.
Hypothesis Hleaf : forall x, P (NLeaf x).
Hypothesis Hdict : forall d, Forall (fun kv => P (snd kv)) d -> P (NDict d).

Lemma Node_nested_ind : forall n, P n.
Proof.
  fix IH 1. intros [x|d].
  - apply Hleaf.
  - apply Hdict. induction d as [|[k v] d IHd].
    + constructor.
    + constructor; [apply IH | exact IHd].
Qed.

End NodeInduction.

Section Erase.

Lemma erase_NoneType (l : string) :
  String.eqb (erase l) "NoneType" = String.eqb l "NoneType".
Proof.
  unfold erase.
  destruct (String.eqb_spec l "int:zero") as [->|_]; [reflexivity|].
  destruct (String.eqb_spec l "int:nonzero") as [->|_]; [reflexivity|].
  destruct (String.eqb_spec l "float:zero") as [->|_]; [reflexivity|].
  destruct (String.eqb_spec l "float:nonzero") as [->|_]; reflexivity.
Qed.

Lemma erase_scalar_label (v : Value) :
  erase (scalar_label true v) = erase (scalar_label false v).
Proof.
  destruct v as [| b | z | f | s | typename | elems | items];
    try reflexivity.
  - unfold scalar_label. simpl. destruct (Z.eqb z 0); reflexivity.
  - unfold scalar_label. simpl. destruct f; reflexivity.
Qed.

Lemma erase_last_cons (x : Seg) (q : Path) :
  q <> [] -> erase_last (x :: q) = x :: erase_last q.
Proof. destruct q; [intros H; contradiction H; reflexivity | reflexivity]. Qed.

Lemma erase_last_nil (p : Path) : erase_last p = [] -> p = [].
Proof. destruct p as [|x [|y p]]; simpl; intros H; [reflexivity | |]; discriminate H. Qed.


Lemma erase_last_extend (k : Seg) (sub1 sub2 : list Path) :
  (forall q, In q sub1 -> q <> []) ->
  (forall q, In q sub2 -> q <> []) ->
  map erase_last sub1 = map erase_last sub2 ->
  map erase_last (extend [] k sub1) = map erase_last (extend [] k sub2).
Proof.
  intros H1 H2 E. rewrite !extend_nil, !map_map.
  rewrite (map_ext_in _ (fun q => k :: erase_last q) sub1)
    by (intros q Hq; apply erase_last_cons, H1, Hq).
  rewrite (map_ext_in _ (fun q => k :: erase_last q) sub2)
    by (intros q Hq; apply erase_last_cons, H2, Hq).
  rewrite <- !(map_map erase_last (cons k)), E. reflexivity.
Qed.

Lemma _get_paths_nonempty (dn : bool) (data : Value) (q : Path) :
  In q (_get_paths dn data []) -> q <> [].
Proof.
  intros Hq E. apply _get_paths_ends_str in Hq. subst q. discriminate Hq.
Qed.

(** The two settings extract the same paths, qualifiers apart. *)
Lemma _get_paths_erase (data : Value) :
  map erase_last (_get_paths true data [])
  = map erase_last (_get_paths false data []).
Proof.
  induction data as [v Hv | elems IH | items IH] using Value_nested_ind.
  - rewrite !(_get_paths_scalar _ v [] Hv). simpl.
    rewrite erase_scalar_label. reflexivity.
  - rewrite !_get_paths_VSeq. generalize 0.
    induction IH as [|v l Hv _ IHl]; intros i; [reflexivity|].
    cbn [seq_paths]. rewrite !map_app, IHl. f_equal.
    apply erase_last_extend; [apply _get_paths_nonempty.. | exact Hv].
  - rewrite !_get_paths_VDict.
    induction IH as [|[k v] l Hv _ IHl]; [reflexivity|].
    cbn [dict_paths]. rewrite !map_app, IHl. f_equal.
    apply erase_last_extend; [apply _get_paths_nonempty.. | exact Hv].
Qed.

Lemma collapse_erase_last (p : Path) :
  map collapse_seg (erase_last p) = erase_last (map collapse_seg p).
Proof.
  induction p as [|x p IH]; [reflexivity|].
  destruct p as [|y p]; [destruct x; reflexivity|].
  cbn [erase_last map] in IH |- *. rewrite IH. reflexivity.
Qed.

End Erase.

Section EraseMerge.

Lemma assoc_get_node_map (f : Seg -> Seg) (k : Seg) (d : list (Seg * Node)) :
  assoc_get k (map (fun '(k, v) => (k, node_map f v)) d)
  = option_map (node_map f) (assoc_get k d).
Proof.
  induction d as [|[k' v'] d IH]; simpl.
  - reflexivity.
  - destruct (seg_eqb k' k); [reflexivity | exact IH].
Qed.

Lemma assoc_set_node_map (f : Seg -> Seg) (k : Seg) (v : Node)
                        (d : list (Seg * Node)) :
  assoc_set k (node_map f v) (map (fun '(k, v) => (k, node_map f v)) d)
  = map (fun '(k, v) => (k, node_map f v)) (assoc_set k v d).
Proof.
  induction d as [|[k' v'] d IH]; simpl.
  - reflexivity.
  - destruct (seg_eqb k' k); simpl; [reflexivity | rewrite IH; reflexivity].
Qed.

Lemma is_NoneType_erase (n : Node) :
  is_NoneType (node_map erase_seg n) = is_NoneType n.
Proof.
  destruct n as [[i|s]|d]; simpl; try reflexivity.
  rewrite erase_NoneType. reflexivity.
Qed.

Lemma erase_last_shape (r0 : Seg) (rest' : Path) :
  exists r0' reste,
    erase_last (r0 :: rest') = r0' :: reste
    /\ match reste with [] => NLeaf r0' | _ :: _ => NDict [] end
       = node_map erase_seg
           match rest' with [] => NLeaf r0 | _ :: _ => NDict [] end.
Proof.
  destruct rest' as [|r1 rest''].
  - exists (erase_seg r0), []. split; reflexivity.
  - rewrite erase_last_cons by discriminate.
    destruct (erase_last (r1 :: rest'')) as [|a q] eqn:E.
    + apply erase_last_nil in E. discriminate E.
    + exists r0, (a :: q). split; reflexivity.
Qed.


Lemma _convert_lists_node_map (f : Seg -> Seg) (n : Node) :
  _convert_lists (node_map f n) = shape_map f (_convert_lists n).
Proof.
  induction n as [x | d IH] using Node_nested_ind; [reflexivity|].
  destruct d as [|[[i|s] v] d]; [reflexivity | |].
  - change (_convert_lists (node_map f (NDict ((Index i, v) :: d))))
      with (SList (map (fun '(_, v) => _convert_lists v)
                       (map (fun '(k, v) => (k, node_map f v))
                            ((Index i, v) :: d)))).
    change (_convert_lists (NDict ((Index i, v) :: d)))
      with (SList (map (fun '(_, v) => _convert_lists v) ((Index i, v) :: d))).
    cbn [shape_map]. f_equal. rewrite !map_map.
    apply map_ext_in. intros [k w] Hin.
    rewrite Forall_forall in IH. apply (IH (k, w) Hin).
  - change (_convert_lists (node_map f (NDict ((Str s, v) :: d))))
      with (SDict (map (fun '(k, v) => (k, _convert_lists v))
                       (map (fun '(k, v) => (k, node_map f v))
                            ((Str s, v) :: d)))).
    change (_convert_lists (NDict ((Str s, v) :: d)))
      with (SDict (map (fun '(k, v) => (k, _convert_lists v)) ((Str s, v) :: d))).
    cbn [shape_map]. f_equal. rewrite !map_map.
    apply map_ext_in. intros [k w] Hin.
    rewrite Forall_forall in IH. pose proof (IH (k, w) Hin) as E.
    cbn [snd] in E. cbn beta iota. rewrite E. reflexivity.
Qed.


End EraseMerge.


(** * The lookups of the module's dicts *)

(** ** One lookup *)

Section Lookups.

Lemma hash_eqb_refl (h : Hash) : hash_eqb h h = true.
Proof.
  destruct h as [n|s]; simpl; [apply Nat.eqb_refl | apply String.eqb_refl].
Qed.

Lemma clash_same (x y : Seg) : seg_eqb x y = true -> clash x y = false.
Proof.
  intros E. unfold clash. rewrite E. apply andb_false_r.
Qed.


(** Only the empty string and the index 0 collide. *)
Lemma clash_inv (x y : Seg) :
  clash x y = true ->
  (x = Str EmptyString /\ y = Index 0) \/ (x = Index 0 /\ y = Str EmptyString).
Proof.
  destruct x as [i|[|c s]], y as [j|[|c' t]];
    cbv beta iota delta [clash seg_hash hash_eqb seg_eqb];
    intros H; try discriminate H.
  - destruct (Nat.eqb i j); discriminate H.
  - rewrite andb_true_r in H. apply Nat.eqb_eq in H. subst. right. auto.
  - rewrite andb_true_r in H. apply Nat.eqb_eq in H. subst. left. auto.
  - destruct (String.eqb (String c s) (String c' t)); discriminate H.
Qed.

(** A key held by the dict and the key looked up: they collide and the
    comparison raises, or the dict tells them apart by value. *)
Lemma key_eq_spec (k key : Seg) :
  key_eq k key = if clash k key then Err AttributeError else Ok (seg_eqb k key).
Proof.
  destruct k as [i|[|c s]], key as [j|[|c' t]];
    cbv beta iota delta [key_eq clash seg_hash hash_eqb seg_eq seg_eqb];
    try reflexivity.
  - destruct (Nat.eqb i j); reflexivity.
  - destruct (Nat.eqb i 0); reflexivity.
  - destruct (Nat.eqb 0 j); reflexivity.
  - destruct (String.eqb (String c s) (String c' t)); reflexivity.
Qed.

Context {V : Type}.

Lemma dict_get_spec (key : Seg) (d : list (Seg * V)) :
  dict_get key d
  = if clash_before key d then Err AttributeError else Ok (assoc_get key d).
Proof.
  induction d as [|[k v] d IH]; cbn [dict_get clash_before assoc_get].
  - reflexivity.
  - rewrite key_eq_spec. destruct (seg_eqb k key) eqn:E.
    + rewrite (clash_same k key E). reflexivity.
    + destruct (clash k key); cbn [bind orb]; [reflexivity | exact IH].
Qed.

Lemma dict_set_spec (key : Seg) (node : V) (d : list (Seg * V)) :
  dict_set key node d
  = if clash_before key d then Err AttributeError
    else Ok (assoc_set key node d).
Proof.
  induction d as [|[k v] d IH]; cbn [dict_set clash_before assoc_set].
  - reflexivity.
  - rewrite key_eq_spec. destruct (seg_eqb k key) eqn:E.
    + rewrite (clash_same k key E). reflexivity.
    + destruct (clash k key); cbn [bind orb]; [reflexivity|].
      rewrite IH. destruct (clash_before key d); reflexivity.
Qed.

Lemma dict_get_Ok (key : Seg) (d : list (Seg * V)) (r : option V) :
  dict_get key d = Ok r -> clash_before key d = false /\ assoc_get key d = r.
Proof.
  rewrite dict_get_spec. destruct (clash_before key d); intros H.
  - discriminate H.
  - injection H as <-. split; reflexivity.
Qed.


Lemma clash_before_false (key : Seg) (d : list (Seg * V)) :
  (forall k v, In (k, v) d -> clash k key = false) ->
  clash_before key d = false.
Proof.
  induction d as [|[k v] d IH]; intros H; cbn [clash_before].
  - reflexivity.
  - destruct (seg_eqb k key); [reflexivity|].
    rewrite (H k v (or_introl eq_refl)). cbn [orb].
    apply IH. intros k' v' Hin. apply (H k' v'). right. exact Hin.
Qed.


(** Writing under [key] leaves the lookup of [key] as it was. *)
Lemma clash_before_set (key : Seg) (x : V) (d : list (Seg * V)) :
  clash_before key (assoc_set key x d) = clash_before key d.
Proof.
  induction d as [|[k v] d IH]; cbn [assoc_set clash_before].
  - rewrite seg_eqb_refl. reflexivity.
  - destruct (seg_eqb k key) eqn:E; cbn [clash_before]; rewrite E.
    + reflexivity.
    + rewrite IH. reflexivity.
Qed.

(** Writing under any key leaves the lookup of a key that is bound as
    it was: a new key goes last, behind the key found. *)
Lemma clash_before_set_bound (k key : Seg) (x : V) (d : list (Seg * V)) :
  assoc_get k d <> None ->
  clash_before k (assoc_set key x d) = clash_before k d.
Proof.
  induction d as [|[k0 v0] d IH]; cbn [assoc_set clash_before assoc_get];
    intros H.
  - contradiction H. reflexivity.
  - destruct (seg_eqb k0 key); cbn [clash_before]; [reflexivity|].
    destruct (seg_eqb k0 k); [reflexivity|].
    rewrite (IH H). reflexivity.
Qed.

Lemma assoc_get_set (k key : Seg) (x : V) (d : list (Seg * V)) :
  assoc_get k (assoc_set key x d)
  = if seg_eqb key k then Some x else assoc_get k d.
Proof.
  destruct (seg_eqb key k) eqn:E.
  - apply seg_eqb_eq in E. subst. apply assoc_get_set_same.
  - apply assoc_get_set_other. exact E.
Qed.

(** A key that is found is found again after any write. *)
Lemma dict_get_set_bound (k key : Seg) (x v : V) (d : list (Seg * V)) :
  dict_get k d = Ok (Some v) ->
  dict_get k (assoc_set key x d)
  = Ok (Some (if seg_eqb key k then x else v)).
Proof.
  intros H. apply dict_get_Ok in H. destruct H as [C G].
  rewrite dict_get_spec, clash_before_set_bound, C, assoc_get_set, G.
  - destruct (seg_eqb key k); reflexivity.
  - rewrite G. discriminate.
Qed.

End Lookups.

(** ** One turn of the merge loop *)

Section Turn.

(** One turn of the loop on a dict: the lookup of the key raises, or the
    turn goes as it does with the keys told apart by value. *)
Lemma descend_turn (key r0 : Seg) (rest' : Path) (d : list (Seg * Node)) :
  descend (key :: r0 :: rest') (NDict d)
  = if clash_before key d then Err AttributeError
    else
      (d1 <- match assoc_get key d with
             | None =>
                 Ok (assoc_set key
                       match rest' with [] => NLeaf r0 | _ :: _ => NDict [] end d)
             | Some bound =>
                 null <- is_NoneType bound ;;
                 Ok (if null
                     then assoc_set key
                            match rest' with
                            | [] => NLeaf r0
                            | _ :: _ => NDict []
                            end d
                     else d)
             end ;;
       match assoc_get key d1 with
       | Some child =>
           child' <- descend (r0 :: rest') child ;;
           Ok (NDict (assoc_set key child' d1))
       | None => Err KeyError
       end).
Proof.
  cbn [descend]. rewrite dict_get_spec.
  destruct (clash_before key d) eqn:C; cbn [bind]; [reflexivity|].
  assert (Hback : forall d1 : list (Seg * Node),
             clash_before key d1 = false ->
             (next <- dict_get key d1 ;;
              match next with
              | Some child =>
                  child' <- descend (r0 :: rest') child ;;
                  d2 <- dict_set key child' d1 ;; Ok (NDict d2)
              | None => Err KeyError
              end)
             = match assoc_get key d1 with
               | Some child =>
                   child' <- descend (r0 :: rest') child ;;
                   Ok (NDict (assoc_set key child' d1))
               | None => Err KeyError
               end).
  { intros d1 C1. rewrite dict_get_spec, C1. cbn [bind].
    destruct (assoc_get key d1) as [child|]; [|reflexivity].
    destruct (descend (r0 :: rest') child) as [child'|e]; [|reflexivity].
    cbn [bind]. rewrite dict_set_spec, C1. reflexivity. }
  destruct (assoc_get key d) as [bound|].
  - destruct (is_NoneType bound) as [[|]|e]; cbn [bind].
    + rewrite dict_set_spec, C. cbn [bind].
      apply Hback. rewrite clash_before_set. exact C.
    + apply Hback. exact C.
    + reflexivity.
  - rewrite dict_set_spec, C. cbn [bind].
    apply Hback. rewrite clash_before_set. exact C.
Qed.

End Turn.

(** ** The merge raises on a collision or goes as by value *)

Section MergeRefines.

Lemma descend_refines (p : Path) :
  forall m, descend p m = assoc_descend p m \/ descend p m = Err AttributeError.
Proof.
  induction p as [|key p IH]; intros m; [left; reflexivity|].
  destruct p as [|r0 rest']; [left; reflexivity|].
  destruct m as [x|d]; [left; reflexivity|].
  rewrite descend_turn, assoc_descend_step.
  destruct (clash_before key d); [right; reflexivity|].
  destruct (match assoc_get key d with
            | None =>
                Ok (assoc_set key
                      match rest' with [] => NLeaf r0 | _ :: _ => NDict [] end d)
            | Some bound =>
                null <- is_NoneType bound ;;
                Ok (if null
                    then assoc_set key
                           match rest' with
                           | [] => NLeaf r0
                           | _ :: _ => NDict []
                           end d
                    else d)
            end) as [d1|e]; cbn [bind]; [|left; reflexivity].
  destruct (assoc_get key d1) as [child|]; [|left; reflexivity].
  destruct (IH child) as [E|E]; rewrite E; [left | right]; reflexivity.
Qed.

Lemma descend_Ok (p : Path) (m m' : Node) :
  descend p m = Ok m' -> assoc_descend p m = Ok m'.
Proof.
  intros H. destruct (descend_refines p m) as [E|E].
  - rewrite <- E. exact H.
  - rewrite E in H. discriminate H.
Qed.

Lemma merge_each_refines (l : list Path) :
  forall m,
    merge_each l m = assoc_merge_each l m \/ merge_each l m = Err AttributeError.
Proof.
  induction l as [|p l IH]; intros m; cbn [merge_each assoc_merge_each].
  - left. reflexivity.
  - destruct (descend_refines p m) as [E|E]; rewrite E.
    + destruct (assoc_descend p m) as [m1|e]; cbn [bind].
      * apply IH.
      * left. reflexivity.
    + right. reflexivity.
Qed.

Lemma merge_each_Ok (l : list Path) (m m' : Node) :
  merge_each l m = Ok m' -> assoc_merge_each l m = Ok m'.
Proof.
  intros H. destruct (merge_each_refines l m) as [E|E].
  - rewrite <- E. exact H.
  - rewrite E in H. discriminate H.
Qed.

Lemma _merge_paths_refines (l : list Path) :
  _merge_paths l = assoc_merge_paths l \/ _merge_paths l = Err AttributeError.
Proof.
  unfold _merge_paths, assoc_merge_paths.
  destruct (merge_each_refines l (NDict [])) as [E|E]; rewrite E.
  - left. reflexivity.
  - right. reflexivity.
Qed.

Lemma _merge_paths_Ok (l : list Path) (t : Shape) :
  _merge_paths l = Ok t -> assoc_merge_paths l = Ok t.
Proof.
  intros H. destruct (_merge_paths_refines l) as [E|E].
  - rewrite <- E. exact H.
  - rewrite E in H. discriminate H.
Qed.

End MergeRefines.

(** ** The lookups of [dict.fromkeys] *)

Section TupleLookups.

Lemma path_eqb_sym (p q : Path) : path_eqb p q = path_eqb q p.
Proof.
  destruct (path_eqb p q) eqn:E1, (path_eqb q p) eqn:E2; try reflexivity.
  - apply path_eqb_eq in E1. subst. rewrite path_eqb_refl in E2. discriminate E2.
  - apply path_eqb_eq in E2. subst. rewrite path_eqb_refl in E1. discriminate E1.
Qed.

Lemma hashes_eqb_refl (l : list Hash) : hashes_eqb l l = true.
Proof.
  induction l as [|h l IH]; simpl; [reflexivity|].
  rewrite hash_eqb_refl. exact IH.
Qed.

(** Two items of one hash: they are equal, or comparing them raises. *)
Lemma seg_eq_same_hash (x y : Seg) :
  hash_eqb (seg_hash x) (seg_hash y) = true ->
  seg_eq x y = if seg_eqb x y then Ok true else Err AttributeError.
Proof.
  intros H. pose proof (key_eq_spec x y) as E.
  unfold key_eq, clash in E. rewrite H in E. rewrite E.
  destruct (seg_eqb x y); reflexivity.
Qed.

Lemma tuple_eq_same_hash (p : Path) :
  forall q,
    hashes_eqb (tuple_hash p) (tuple_hash q) = true ->
    tuple_eq p q = if path_eqb p q then Ok true else Err AttributeError.
Proof.
  induction p as [|x p IH]; intros [|y q]; cbn; intros H;
    try discriminate H; try reflexivity.
  apply andb_prop in H. destruct H as [Hx Hp].
  rewrite (seg_eq_same_hash x y Hx).
  destruct (seg_eqb x y); cbn [bind andb]; [|reflexivity].
  apply IH. exact Hp.
Qed.

Lemma tuple_key_eq_spec (p key : Path) :
  tuple_key_eq p key
  = if tuple_clash p key then Err AttributeError else Ok (path_eqb p key).
Proof.
  unfold tuple_key_eq, tuple_clash.
  destruct (hashes_eqb (tuple_hash p) (tuple_hash key)) eqn:H; cbn [andb].
  - rewrite (tuple_eq_same_hash p key H).
    destruct (path_eqb p key); reflexivity.
  - destruct (path_eqb p key) eqn:E; [|reflexivity].
    apply path_eqb_eq in E. subst. rewrite hashes_eqb_refl in H. discriminate H.
Qed.

Lemma tuple_in_spec (key : Path) (seen : list Path) :
  tuple_in key seen
  = if clash_among key seen then Err AttributeError
    else Ok (existsb (path_eqb key) seen).
Proof.
  induction seen as [|p seen IH]; cbn [tuple_in clash_among existsb].
  - reflexivity.
  - rewrite tuple_key_eq_spec, (path_eqb_sym key p).
    destruct (path_eqb p key) eqn:E.
    + unfold tuple_clash. rewrite E. rewrite andb_false_r. reflexivity.
    + destruct (tuple_clash p key); cbn [bind orb]; [reflexivity|].
      rewrite IH. reflexivity.
Qed.

Lemma clash_among_false (key : Path) (seen : list Path) :
  (forall p, In p seen -> tuple_clash p key = false) ->
  clash_among key seen = false.
Proof.
  induction seen as [|p seen IH]; intros H; cbn [clash_among].
  - reflexivity.
  - destruct (path_eqb p key); [reflexivity|].
    rewrite (H p (or_introl eq_refl)). cbn [orb].
    apply IH. intros q Hq. apply H. right. exact Hq.
Qed.

Lemma clash_among_true (key : Path) (seen : list Path) :
  clash_among key seen = true ->
  exists p, In p seen /\ tuple_clash p key = true.
Proof.
  induction seen as [|p seen IH]; cbn [clash_among]; intros H.
  - discriminate H.
  - destruct (path_eqb p key); [discriminate H|].
    destruct (tuple_clash p key) eqn:C.
    + exists p. split; [left; reflexivity | exact C].
    + cbn [orb] in H. destruct (IH H) as (q & Hq & Cq).
      exists q. split; [right; exact Hq | exact Cq].
Qed.

Lemma fromkeys_refines (l : list Path) :
  forall seen,
    fromkeys seen l = Ok (assoc_fromkeys seen l)
    \/ fromkeys seen l = Err AttributeError.
Proof.
  induction l as [|p l IH]; intros seen; cbn [fromkeys assoc_fromkeys].
  - left. reflexivity.
  - rewrite tuple_in_spec.
    destruct (clash_among p seen); cbn [bind]; [right; reflexivity|].
    destruct (existsb (path_eqb p) seen); apply IH.
Qed.

Lemma fromkeys_Ok (l seen r : list Path) :
  fromkeys seen l = Ok r -> r = assoc_fromkeys seen l.
Proof.
  intros H. destruct (fromkeys_refines l seen) as [E|E]; rewrite E in H.
  - injection H as <-. reflexivity.
  - discriminate H.
Qed.

Lemma fromkeys_Err (l : list Path) :
  forall seen e,
    fromkeys seen l = Err e ->
    e = AttributeError
    /\ exists p q, In p (seen ++ l) /\ In q (seen ++ l)
                   /\ tuple_clash p q = true.
Proof.
  induction l as [|a l IH]; intros seen e; cbn [fromkeys].
  - intros H. discriminate H.
  - rewrite tuple_in_spec. destruct (clash_among a seen) eqn:C; cbn [bind].
    + intros H. injection H as <-. split; [reflexivity|].
      destruct (clash_among_true a seen C) as (p & Hp & Cp).
      exists p, a. repeat split.
      * apply in_or_app. left. exact Hp.
      * apply in_or_app. right. left. reflexivity.
      * exact Cp.
    + destruct (existsb (path_eqb a) seen); intros H.
      * destruct (IH seen e H) as (He & p & q & Hp & Hq & Cpq).
        split; [exact He|]. exists p, q. repeat split; try exact Cpq.
        -- apply in_app_or in Hp. apply in_or_app.
           destruct Hp as [Hp|Hp]; [left | right; right]; exact Hp.
        -- apply in_app_or in Hq. apply in_or_app.
           destruct Hq as [Hq|Hq]; [left | right; right]; exact Hq.
      * destruct (IH (seen ++ [a]) e H) as (He & p & q & Hp & Hq & Cpq).
        split; [exact He|]. exists p, q.
        rewrite <- app_assoc in Hp, Hq. repeat split; assumption.
Qed.

Lemma fromkeys_app (l1 l2 : list Path) :
  forall seen,
    fromkeys seen (l1 ++ l2) = (r <- fromkeys seen l1 ;; fromkeys r l2).
Proof.
  induction l1 as [|p l1 IH]; intros seen; cbn [app fromkeys bind].
  - reflexivity.
  - destruct (tuple_in p seen) as [[|]|e]; cbn [bind]; try apply IH.
    reflexivity.
Qed.

End TupleLookups.

(** ** The whole call *)

Section CallRefines.

Variable re_sub : string -> string -> string -> result string.
Variable key_patterns : option (list (string * string)).
Variable describe_numbers : bool.
Variable sort : bool.

(** The stages before [_collapse_paths] raise, or hand it a list of
    paths that end in their labels. *)
Lemma collapsed_paths_stage (data : Value) :
  (exists e,
      collapsed_paths re_sub key_patterns describe_numbers sort data = Err e
      /\ assoc_collapsed_paths re_sub key_patterns describe_numbers sort data
         = Err e)
  \/ (exists l,
         collapsed_paths re_sub key_patterns describe_numbers sort data
         = _collapse_paths l
         /\ assoc_collapsed_paths re_sub key_patterns describe_numbers sort data
            = Ok (assoc_collapse_paths l)
         /\ forall p, In p l -> ends_str p = true).
Proof.
  destruct (assoc_collapsed_paths re_sub key_patterns describe_numbers sort data)
    as [paths|e] eqn:Hassoc.
  - right.
    pose proof (assoc_collapsed_paths_facts re_sub key_patterns describe_numbers
                  sort data paths Hassoc) as Hfacts.
    unfold assoc_collapsed_paths in Hassoc. unfold collapsed_paths.
    destruct (_apply_patterns re_sub key_patterns
                (_get_paths describe_numbers data [])) as [l1|e1];
      [|discriminate Hassoc].
    cbn [bind] in *.
    destruct (_describe_numbers describe_numbers l1) as [l2|e2];
      [|discriminate Hassoc].
    cbn [bind] in *.
    destruct (if sort then sorted l2 else Ok l2) as [l3|e3];
      [|discriminate Hassoc].
    cbn [bind] in *. injection Hassoc as <-.
    exists l3. repeat split.
    intros p Hp. rewrite <- collapse_seg_ends_str.
    apply (Hfacts (map collapse_seg p)).
    unfold assoc_collapse_paths. apply assoc_fromkeys_In_iff. right.
    apply in_map. exact Hp.
  - left. exists e. split; [|reflexivity].
    unfold assoc_collapsed_paths in Hassoc. unfold collapsed_paths.
    destruct (_apply_patterns re_sub key_patterns
                (_get_paths describe_numbers data [])) as [l1|e1];
      [|exact Hassoc].
    cbn [bind] in *.
    destruct (_describe_numbers describe_numbers l1) as [l2|e2];
      [|exact Hassoc].
    cbn [bind] in *.
    destruct (if sort then sorted l2 else Ok l2) as [l3|e3];
      [|exact Hassoc].
    discriminate Hassoc.
Qed.

Lemma collapsed_paths_Ok (data : Value) (paths : list Path) :
  collapsed_paths re_sub key_patterns describe_numbers sort data = Ok paths ->
  assoc_collapsed_paths re_sub key_patterns describe_numbers sort data = Ok paths.
Proof.
  intros H. destruct (collapsed_paths_stage data) as [(e & E & _)|(l & E & E' & _)].
  - rewrite E in H. discriminate H.
  - rewrite E in H. unfold _collapse_paths in H. apply fromkeys_Ok in H.
    rewrite E'. subst paths. reflexivity.
Qed.

(** What [shape] hands to the merge ends in its labels and holds no
    index but the collapsed one. *)
Lemma collapsed_paths_facts (data : Value) (paths : list Path) :
  collapsed_paths re_sub key_patterns describe_numbers sort data = Ok paths ->
  forall p, In p paths -> ends_str p = true /\ forallb collapsed p = true.
Proof.
  intros H. apply collapsed_paths_Ok in H.
  apply (assoc_collapsed_paths_facts _ _ _ _ _ _ H).
Qed.

Lemma shape_Ok (data : Value) (t : Shape) :
  shape re_sub key_patterns describe_numbers sort data = Ok t ->
  assoc_shape re_sub key_patterns describe_numbers sort data = Ok t.
Proof.
  unfold shape, assoc_shape. intros H.
  destruct (collapsed_paths re_sub key_patterns describe_numbers sort data)
    as [paths|e] eqn:Hpaths; [|discriminate H].
  rewrite (collapsed_paths_Ok data paths Hpaths). cbn [bind] in *.
  apply _merge_paths_Ok. exact H.
Qed.

End CallRefines.

(** ** Paths whose keys do not collide *)

Section Agreement.

Lemma key_clash_prefix (pre : Path) (k1 k2 : Seg) (rest1 rest2 : Path) :
  rest1 <> [] -> rest2 <> [] ->
  key_clash (pre ++ k1 :: rest1) (pre ++ k2 :: rest2) = false ->
  clash k1 k2 = false.
Proof.
  intros H1 H2.
  induction pre as [|x pre IH]; simpl app.
  - destruct rest1 as [|a rest1]; [contradiction H1; reflexivity|].
    destruct rest2 as [|b rest2]; [contradiction H2; reflexivity|].
    simpl. destruct (seg_eqb k1 k2) eqn:E.
    + intros _. apply clash_same. exact E.
    + intros H. exact H.
  - destruct (pre ++ k1 :: rest1) as [|a l1] eqn:E1.
    { destruct pre; discriminate E1. }
    destruct (pre ++ k2 :: rest2) as [|b l2] eqn:E2.
    { destruct pre; discriminate E2. }
    simpl. rewrite seg_eqb_refl. exact IH.
Qed.

Lemma no_key_clash_In (paths : list Path) (p q : Path) :
  no_key_clash paths = true -> In p paths -> In q paths ->
  key_clash p q = false.
Proof.
  unfold no_key_clash. intros H Hp Hq.
  rewrite forallb_forall in H. specialize (H p Hp).
  rewrite forallb_forall in H. specialize (H q Hq).
  apply negb_true_iff. exact H.
Qed.

Lemma no_key_clash_intro (paths : list Path) :
  (forall p q, In p paths -> In q paths -> key_clash p q = false) ->
  no_key_clash paths = true.
Proof.
  intros H. unfold no_key_clash.
  apply forallb_forall. intros p Hp.
  apply forallb_forall. intros q Hq.
  rewrite (H p q Hp Hq). reflexivity.
Qed.


(** Two tuples of one hash that end in their labels part on a key. *)
Lemma tuple_clash_key_clash (p : Path) :
  forall q,
    ends_str p = true -> ends_str q = true ->
    tuple_clash p q = true -> key_clash p q = true.
Proof.
  induction p as [|x p IH]; intros [|y q] Hp Hq H;
    try discriminate Hp; try discriminate Hq.
  unfold tuple_clash in H. cbn [tuple_hash map hashes_eqb path_eqb] in H.
  apply andb_prop in H. destruct H as [Hh Hne].
  apply andb_prop in Hh. destruct Hh as [Hx Hrest].
  destruct p as [|x' p], q as [|y' q]; try discriminate Hrest.
  - exfalso.
    destruct x as [i|s]; [discriminate Hp|].
    destruct y as [j|t]; [discriminate Hq|].
    assert (E : seg_eqb (Str s) (Str t) = true).
    { destruct (seg_eqb (Str s) (Str t)) eqn:E; [reflexivity|].
      assert (C : clash (Str s) (Str t) = true).
      { unfold clash. rewrite Hx, E. reflexivity. }
      apply clash_inv in C. destruct C as [[_ C]|[C _]]; discriminate C. }
    rewrite E in Hne. discriminate Hne.
  - cbn [key_clash]. destruct (seg_eqb x y) eqn:E.
    + apply (IH (y' :: q)).
      * exact Hp.
      * exact Hq.
      * unfold tuple_clash. fold (tuple_hash (x' :: p)) in Hrest.
        fold (tuple_hash (y' :: q)) in Hrest. rewrite Hrest.
        cbn [andb] in *. exact Hne.
    + unfold clash. rewrite Hx, E. reflexivity.
Qed.

Lemma fromkeys_agrees (l : list Path) :
  forall seen,
    (forall p q, In p (seen ++ l) -> In q (seen ++ l) ->
                 tuple_clash p q = false) ->
    fromkeys seen l = Ok (assoc_fromkeys seen l).
Proof.
  induction l as [|a l IH]; intros seen H; cbn [fromkeys assoc_fromkeys].
  - reflexivity.
  - rewrite tuple_in_spec, clash_among_false.
    + cbn [bind]. destruct (existsb (path_eqb a) seen).
      * apply IH. intros p q Hp Hq. apply H.
        -- apply in_app_or in Hp. apply in_or_app.
           destruct Hp as [Hp|Hp]; [left | right; right]; exact Hp.
        -- apply in_app_or in Hq. apply in_or_app.
           destruct Hq as [Hq|Hq]; [left | right; right]; exact Hq.
      * apply IH. intros p q Hp Hq. rewrite <- app_assoc in Hp, Hq.
        apply H; assumption.
    + intros p Hp. apply H.
      * apply in_or_app. left. exact Hp.
      * apply in_or_app. right. left. reflexivity.
Qed.

Variable paths : list Path.
Hypothesis Hclash : no_key_clash paths = true.

(** No lookup of the merge raises on paths whose keys do not collide. *)
Lemma descend_agrees (p : Path) :
  forall (pre : Path) (cur : Node),
    In (pre ++ p) paths ->
    ends_str p = true ->
    built paths pre cur ->
    descend p cur = assoc_descend p cur.
Proof.
  induction p as [|key p IH]; intros pre cur Hin Hend Hb; [reflexivity|].
  destruct p as [|r0 rest']; [reflexivity|].
  destruct cur as [x|d]; [reflexivity|].
  rewrite descend_turn, assoc_descend_step.
  assert (C : clash_before key d = false).
  { apply clash_before_false. intros k v Hkv.
    inversion Hb as [|pre' d' _ Hcov _]; subst.
    destruct (Hcov k v Hkv) as (rest & Hne & Hrest).
    apply (key_clash_prefix pre k key rest (r0 :: rest') Hne).
    - discriminate.
    - apply (no_key_clash_In paths); assumption. }
  rewrite C.
  assert (Hend' : ends_str (r0 :: rest') = true) by exact Hend.
  pose proof (built_fresh paths (pre ++ [key]) r0 rest' Hend') as Hnode.
  assert (Hrec : forall (d1 : list (Seg * Node)) child,
             built paths (pre ++ [key]) child ->
             (child' <- descend (r0 :: rest') child ;;
              Ok (NDict (assoc_set key child' d1)))
             = (child' <- assoc_descend (r0 :: rest') child ;;
                Ok (NDict (assoc_set key child' d1)))).
  { intros d1 child Hchild.
    rewrite (IH (pre ++ [key]) child); [reflexivity| |exact Hend'|exact Hchild].
    rewrite <- app_assoc. exact Hin. }
  destruct (assoc_get key d) as [bound|] eqn:Hget.
  - destruct (is_NoneType bound) as [[|]|e]; cbn [bind]; [| |reflexivity].
    + rewrite assoc_get_set_same. apply Hrec. exact Hnode.
    + rewrite Hget. apply Hrec. apply (built_entry paths pre d key bound Hb Hget).
  - cbn [bind]. rewrite assoc_get_set_same. apply Hrec. exact Hnode.
Qed.

Lemma merge_each_agrees (l : list Path) :
  forall merged,
    (forall p, In p l -> In p paths /\ ends_str p = true) ->
    built paths [] merged ->
    merge_each l merged = assoc_merge_each l merged.
Proof.
  induction l as [|p l IH]; intros merged Hl Hb;
    cbn [merge_each assoc_merge_each]; [reflexivity|].
  destruct (Hl p (or_introl eq_refl)) as [Hin Hend].
  rewrite (descend_agrees p [] merged Hin Hend Hb).
  destruct (assoc_descend p merged) as [m1|e] eqn:Hp; cbn [bind]; [|reflexivity].
  apply IH.
  - intros q Hq. apply Hl. right. exact Hq.
  - apply (assoc_descend_built paths p [] merged m1); assumption.
Qed.

Lemma _merge_paths_agrees :
  (forall p, In p paths -> ends_str p = true) ->
  _merge_paths paths = assoc_merge_paths paths.
Proof.
  intros Hend. unfold _merge_paths, assoc_merge_paths.
  rewrite merge_each_agrees; [reflexivity| |].
  - intros p Hp. split; [exact Hp | apply Hend; exact Hp].
  - apply built_dict; [constructor | intros k v [] | intros k v []].
Qed.

End Agreement.

(** ** Calls in which no keys collide *)

Section CallAgrees.

Variable re_sub : string -> string -> string -> result string.
Variable describe_numbers : bool.
Variable sort : bool.

Lemma shape_agrees (key_patterns : option (list (string * string)))
                   (data : Value) (paths : list Path) :
  assoc_collapsed_paths re_sub key_patterns describe_numbers sort data = Ok paths ->
  no_key_clash paths = true ->
  collapsed_paths re_sub key_patterns describe_numbers sort data = Ok paths
  /\ shape re_sub key_patterns describe_numbers sort data
     = assoc_shape re_sub key_patterns describe_numbers sort data.
Proof.
  intros H Hclash.
  pose proof (assoc_collapsed_paths_facts _ _ _ _ _ _ H) as Hfacts.
  destruct (collapsed_paths_stage re_sub key_patterns describe_numbers sort data)
    as [(e & _ & E')|(l & E & E' & Hend)].
  - rewrite E' in H. discriminate H.
  - assert (Hc : collapsed_paths re_sub key_patterns describe_numbers sort data
                 = Ok paths).
    { rewrite E. rewrite E' in H. injection H as <-.
      unfold _collapse_paths, assoc_collapse_paths.
      apply fromkeys_agrees. cbn [app]. intros p q Hp Hq.
      destruct (tuple_clash p q) eqn:C; [|reflexivity].
      assert (Hkc : key_clash p q = false).
      { apply (no_key_clash_In _ p q Hclash);
          apply assoc_fromkeys_In_iff; right; assumption. }
      rewrite (tuple_clash_key_clash p q) in Hkc; [discriminate Hkc| | |exact C].
      - apply in_map_iff in Hp. destruct Hp as (p0 & <- & Hp0).
        rewrite collapse_seg_ends_str. apply Hend. exact Hp0.
      - apply in_map_iff in Hq. destruct Hq as (q0 & <- & Hq0).
        rewrite collapse_seg_ends_str. apply Hend. exact Hq0. }
    split; [exact Hc|].
    unfold shape, assoc_shape. rewrite Hc, H. cbn [bind].
    apply (_merge_paths_agrees paths Hclash).
    intros p Hp. apply (Hfacts p Hp).
Qed.

(** Without [key_patterns], the paths handed to the merge are the
    extracted paths with their indices collapsed. *)
Lemma assoc_collapsed_paths_In (data : Value) (paths : list Path) :
  assoc_collapsed_paths re_sub None describe_numbers sort data = Ok paths ->
  forall p, In p paths ->
            exists q, In q (_get_paths describe_numbers data [])
                      /\ p = map collapse_seg q.
Proof.
  unfold assoc_collapsed_paths. rewrite _apply_patterns_None. cbn [bind].
  rewrite (_describe_numbers_ok describe_numbers _
             (_get_paths_ends_str describe_numbers data)).
  cbn [bind]. intros H p Hp.
  destruct (if sort then sorted (_get_paths describe_numbers data [])
            else Ok (_get_paths describe_numbers data [])) as [l|e] eqn:Hs;
    [|discriminate H].
  cbn [bind] in H. injection H as <-.
  unfold assoc_collapse_paths in Hp. apply assoc_fromkeys_In in Hp.
  destruct Hp as [[]|Hp]. apply in_map_iff in Hp.
  destruct Hp as (q & <- & Hq). exists q. split; [|reflexivity].
  destruct sort.
  - destruct (sorted_onto_In _ [] l Hs q Hq) as [[]|Hin]. exact Hin.
  - injection Hs as <-. exact Hq.
Qed.

Lemma shape_agrees_when (data : Value) :
  (forall p q,
      In p (_get_paths describe_numbers data []) ->
      In q (_get_paths describe_numbers data []) ->
      key_clash (map collapse_seg p) (map collapse_seg q) = false) ->
  shape re_sub None describe_numbers sort data
  = assoc_shape re_sub None describe_numbers sort data.
Proof.
  intros Hfree.
  destruct (assoc_collapsed_paths re_sub None describe_numbers sort data)
    as [paths|e] eqn:H.
  - apply (shape_agrees None data paths H).
    apply no_key_clash_intro. intros p q Hp Hq.
    destruct (assoc_collapsed_paths_In data paths H p Hp) as (p0 & Hp0 & ->).
    destruct (assoc_collapsed_paths_In data paths H q Hq) as (q0 & Hq0 & ->).
    apply Hfree; assumption.
  - destruct (collapsed_paths_stage re_sub None describe_numbers sort data)
      as [(e' & E & E')|(l & _ & E' & _)].
    + unfold shape, assoc_shape. rewrite E, E'. reflexivity.
    + rewrite E' in H. discriminate H.
Qed.

End CallAgrees.

Section ClashFree.

Lemma clash_strs (x y : Seg) :
  is_str x = true -> is_str y = true -> clash x y = false.
Proof.
  intros Hx Hy. destruct (clash x y) eqn:C; [|reflexivity].
  apply clash_inv in C. destruct C as [[_ ->]|[-> _]]; discriminate.
Qed.

(** Paths made of strings only have no keys that collide. *)
Lemma key_clash_strs (p : Path) :
  forall q,
    forallb is_str p = true -> forallb is_str q = true ->
    key_clash p q = false.
Proof.
  induction p as [|x p IH]; intros q Hp Hq; [reflexivity|].
  destruct p as [|x' p]; [reflexivity|].
  destruct q as [|y q]; [reflexivity|].
  destruct q as [|y' q]; [reflexivity|].
  cbn [forallb] in Hp, Hq.
  apply andb_prop in Hp. destruct Hp as [Hx Hp].
  apply andb_prop in Hq. destruct Hq as [Hy Hq].
  change (key_clash (x :: x' :: p) (y :: y' :: q))
    with (if seg_eqb x y then key_clash (x' :: p) (y' :: q) else clash x y).
  destruct (seg_eqb x y).
  - apply IH; assumption.
  - apply clash_strs; assumption.
Qed.

Lemma mappings_only_strs (describe_numbers : bool) (data : Value) :
  mappings_only data = true ->
  forall p, In p (_get_paths describe_numbers data []) ->
            forallb is_str p = true.
Proof.
  induction data as [v Hv | elems IH | items IH] using Value_nested_ind;
    intros Hm p Hp.
  - rewrite (_get_paths_scalar _ v [] Hv) in Hp. destruct Hp as [<-|[]].
    reflexivity.
  - discriminate Hm.
  - rewrite _get_paths_VDict in Hp. apply dict_paths_In_inv in Hp.
    destruct Hp as (k & v & q & -> & Hin & Hq).
    rewrite mappings_only_VDict, forallb_forall in Hm.
    rewrite Forall_forall in IH. cbn [forallb is_str andb].
    apply (IH (k, v) Hin (Hm (k, v) Hin) q Hq).
Qed.

End ClashFree.

(** * The claims that rest on the merge *)

(** C7. Homogeneous collapsing.  For every non-empty sequence whose
    elements are all mappings [{"a": <integer>}], whatever its length
    and whether or not [sort] is set, [shape] returns the one-element
    list [[{"a": "int"}]]. *)
Theorem homogeneous_collapsing :
  forall re_sub sort (elems : list Value),
    elems <> [] ->
    Forall (fun v => exists z, v = VDict [("a", VInt z)]) elems ->
    shape re_sub None false sort (VSeq elems)
    = Ok (SList [SDict [(Str "a", SLeaf (Str "int"))]]).
Proof.
  intros re_sub sort elems Hne Hall.
  rewrite shape_agrees_when.
  - apply assoc_homogeneous_collapsing; assumption.
  - rewrite _get_paths_VSeq, (seq_paths_a_int elems 0 Hall).
    intros p q Hp Hq.
    apply in_map_iff in Hp. destruct Hp as (i & <- & _).
    apply in_map_iff in Hq. destruct Hq as (j & <- & _).
    reflexivity.
Qed.

(** [shape([{"a": 1}, {"a": 2}, {"a": 3}])]. *)
Lemma homogeneous_collapsing_witness :
  shape literal_sub None false false
        (VSeq [VDict [("a", VInt 1)]; VDict [("a", VInt 2)]; VDict [("a", VInt 3)]])
  = Ok (SList [SDict [(Str "a", SLeaf (Str "int"))]]).
Proof.
  apply homogeneous_collapsing.
  - discriminate.
  - repeat constructor; eexists; reflexivity.
Defined.

(** C5, as the code has it.  When the input, under the options of the
    call, reaches no position of the merged tree both through a
    sequence index and through a mapping key, the value [shape] returns
    is made only of mappings with string keys, lists and strings, and
    every list in it has exactly one element. *)
Theorem shape_plain_when_one_kind :
  forall re_sub key_patterns describe_numbers sort data t,
    one_kind_per_position re_sub key_patterns describe_numbers sort data = true ->
    shape re_sub key_patterns describe_numbers sort data = Ok t ->
    plain t = true.
Proof.
  intros re_sub key_patterns dn sort data t Hkind Hshape.
  unfold one_kind_per_position in Hkind. unfold shape in Hshape.
  destruct (collapsed_paths re_sub key_patterns dn sort data)
    as [paths|e] eqn:Hpaths; [|discriminate Hshape].
  cbn [bind] in Hshape.
  apply (assoc_merge_paths_plain paths t Hkind).
  - apply (collapsed_paths_facts re_sub key_patterns dn sort data paths Hpaths).
  - apply _merge_paths_Ok. exact Hshape.
Qed.

(** [shape([{"a": [1, None], "b": "x"}, {"a": [], "c": 0.0}],
    describe_numbers=True, sort=True)]. *)
Lemma shape_plain_when_one_kind_witness :
  plain (SList [SDict [(Str "a", SList [SLeaf (Str "int:nonzero")]);
                       (Str "b", SLeaf (Str "str"));
                       (Str "c", SLeaf (Str "float:zero"))]]) = true.
Proof.
  apply (shape_plain_when_one_kind literal_sub None true true
           (VSeq [VDict [("a", VSeq [VInt 1; VNone]); ("b", VStr "x")];
                  VDict [("a", VSeq []); ("c", VFloat (S754_zero false))]])).
  - reflexivity.
  - reflexivity.
Defined.

(** On nested mappings of scalars [shape] does what its docstring
    says: for a mapping that holds no sequence at any depth (each
    mapping holding every key once), called without [key_patterns] and
    without [sort], it returns the same nesting with every scalar
    replaced by its type label, the keys in the input's order, and the
    entries that hold no scalar (empty mappings) left out. *)
Theorem shape_of_nested_mappings :
  forall re_sub describe_numbers items,
    mappings_only (VDict items) = true ->
    unique_keys (VDict items) = true ->
    shape re_sub None describe_numbers false (VDict items)
    = Ok (summary describe_numbers (VDict items)).
Proof.
  intros re_sub dn items Hm Hu.
  rewrite shape_agrees_when.
  - apply assoc_shape_of_nested_mappings; assumption.
  - intros p q Hp Hq.
    pose proof (mappings_only_no_index dn (VDict items) Hm p Hp) as Ep.
    pose proof (mappings_only_no_index dn (VDict items) Hm q Hq) as Eq.
    rewrite Ep, Eq.
    apply key_clash_strs; apply (mappings_only_strs dn (VDict items) Hm);
      assumption.
Qed.

(** [shape({"id": 0, "meta": {}, "user": {"name": "x", "admin": False,
    "score": 3.5}, "note": None}, describe_numbers=True)]. *)
Lemma shape_of_nested_mappings_witness :
  shape literal_sub None true false
        (VDict [("id", VInt 0);
                ("meta", VDict []);
                ("user", VDict [("name", VStr "x"); ("admin", VBool false);
                                ("score", VFloat float_3_5)]);
                ("note", VNone)])
  = Ok (SDict [(Str "id", SLeaf (Str "int:zero"));
               (Str "user", SDict [(Str "name", SLeaf (Str "str"));
                                   (Str "admin", SLeaf (Str "bool"));
                                   (Str "score", SLeaf (Str "float:nonzero"))]);
               (Str "note", SLeaf (Str "NoneType"))]).
Proof.
  apply (shape_of_nested_mappings literal_sub true
           [("id", VInt 0);
            ("meta", VDict []);
            ("user", VDict [("name", VStr "x"); ("admin", VBool false);
                            ("score", VFloat float_3_5)]);
            ("note", VNone)]); reflexivity.
Defined.

(** The docstring's rule for lists, on scalars: for a non-empty
    sequence of scalars, called without [key_patterns], [shape] returns
    a one-element list holding the label of the first element that is
    not null, or ["NoneType"] when every element is null; [sort] makes
    no difference. *)
Theorem shape_of_scalar_sequence :
  forall re_sub describe_numbers sort elems,
    elems <> [] ->
    Forall (fun v => is_scalar v = true) elems ->
    shape re_sub None describe_numbers sort (VSeq elems)
    = Ok (SList [SLeaf (Str (first_label
                               (map (scalar_label describe_numbers) elems)))]).
Proof.
  intros re_sub dn sort elems Hne Hall.
  rewrite shape_agrees_when.
  - apply assoc_shape_of_scalar_sequence; assumption.
  - assert (Hform : forall p, In p (_get_paths dn (VSeq elems) []) ->
                              exists l, map collapse_seg p = [Index 0; Str l]).
    { intros p Hp. rewrite _get_paths_VSeq in Hp.
      apply seq_paths_In_inv in Hp. destruct Hp as (j & v & q & -> & Hnth & Hq).
      rewrite Forall_forall in Hall.
      rewrite (_get_paths_scalar dn v [] (Hall v (nth_error_In _ _ Hnth))) in Hq.
      destruct Hq as [<-|[]]. eexists. reflexivity. }
    intros p q Hp Hq.
    destruct (Hform p Hp) as [l ->]. destruct (Hform q Hq) as [l' ->].
    reflexivity.
Qed.

(** [shape([None, None, 3.5, "x", 0], describe_numbers=True,
    sort=True)]. *)
Lemma shape_of_scalar_sequence_witness :
  shape literal_sub None true true
        (VSeq [VNone; VNone; VFloat float_3_5; VStr "x"; VInt 0])
  = Ok (SList [SLeaf (Str "float:nonzero")]).
Proof.
  apply (shape_of_scalar_sequence literal_sub true true
           [VNone; VNone; VFloat float_3_5; VStr "x"; VInt 0]).
  - discriminate.
  - repeat constructor.
Defined.

(** Without [sort] the keys of the returned mapping follow the input:
    for a mapping given at the top level (each key once, whatever its
    values hold), called without [key_patterns], what [shape] returns is
    a mapping whose keys are the input's keys in the input's order,
    those whose value holds no scalar left out. *)
Theorem shape_keeps_key_order :
  forall re_sub describe_numbers items t,
    distinct (map fst items) = true ->
    shape re_sub None describe_numbers false (VDict items) = Ok t ->
    exists items',
      t = SDict items' /\ map fst items' = keys_with_scalars items.
Proof.
  intros re_sub dn items t Hd H.
  apply (assoc_shape_keeps_key_order re_sub dn items t Hd).
  apply shape_Ok. exact H.
Qed.

(** [shape({"z": [1, 2], "m": [], "a": "x"})]. *)
Lemma shape_keeps_key_order_witness :
  exists items',
    SDict [(Str "z", SList [SLeaf (Str "int")]); (Str "a", SLeaf (Str "str"))]
    = SDict items'
    /\ map fst items'
       = keys_with_scalars
           [("z", VSeq [VInt 1; VInt 2]); ("m", VSeq []); ("a", VStr "x")].
Proof.
  apply (shape_keeps_key_order literal_sub false
           [("z", VSeq [VInt 1; VInt 2]); ("m", VSeq []); ("a", VStr "x")]
           (SDict [(Str "z", SList [SLeaf (Str "int")]);
                   (Str "a", SLeaf (Str "str"))])); reflexivity.
Defined.

(** With [sort] the keys of the returned mapping are sorted: for a
    mapping given at the top level (every mapping in it holding each
    key once), called with [sort=True] and without [key_patterns], what
    [shape] returns is a mapping whose keys are in strictly ascending
    order and are the input's keys whose value holds a scalar. *)
Theorem shape_sort_orders_top_level_keys :
  forall re_sub describe_numbers items t,
    unique_keys (VDict items) = true ->
    shape re_sub None describe_numbers true (VDict items) = Ok t ->
    exists items',
      t = SDict items'
      /\ StronglySorted key_before (map fst items')
      /\ (forall k, In k (map fst items') <-> In k (keys_with_scalars items)).
Proof.
  intros re_sub dn items t Hu H.
  apply (assoc_shape_sort_orders_top_level_keys re_sub dn items t Hu).
  apply shape_Ok. exact H.
Qed.

(** [shape({"z": [1, 2], "m": [], "a": "x"}, sort=True)]. *)
Lemma shape_sort_orders_top_level_keys_witness :
  exists items',
    SDict [(Str "a", SLeaf (Str "str")); (Str "z", SList [SLeaf (Str "int")])]
    = SDict items'
    /\ StronglySorted key_before (map fst items')
    /\ (forall k,
           In k (map fst items')
           <-> In k (keys_with_scalars
                       [("z", VSeq [VInt 1; VInt 2]); ("m", VSeq []);
                        ("a", VStr "x")])).
Proof.
  apply (shape_sort_orders_top_level_keys literal_sub false
           [("z", VSeq [VInt 1; VInt 2]); ("m", VSeq []); ("a", VStr "x")]
           (SDict [(Str "a", SLeaf (Str "str"));
                   (Str "z", SList [SLeaf (Str "int")])])); reflexivity.
Defined.

(** [shape] returns whenever the stages before the merge do, no
    position holds a scalar other than null in one place of the input
    and a mapping or a sequence in another, and no position is reached
    through the empty string as a key in one place and through an index
    in another. *)
Theorem shape_returns_without_leaf_conflict :
  forall re_sub key_patterns describe_numbers sort data paths,
    collapsed_paths re_sub key_patterns describe_numbers sort data = Ok paths ->
    no_leaf_conflict paths = true ->
    no_key_clash paths = true ->
    exists t, shape re_sub key_patterns describe_numbers sort data = Ok t.
Proof.
  intros re_sub key_patterns dn sort data paths Hpaths Hfree Hclash.
  pose proof (collapsed_paths_facts _ _ _ _ _ _ Hpaths) as Hfacts.
  pose proof (collapsed_paths_Ok _ _ _ _ _ _ Hpaths) as Hassoc.
  destruct (assoc_shape_returns_without_leaf_conflict
              re_sub key_patterns dn sort data paths Hassoc Hfree) as [t Ht].
  exists t. unfold shape. rewrite Hpaths. cbn [bind].
  rewrite (_merge_paths_agrees paths Hclash).
  - unfold assoc_shape in Ht. rewrite Hassoc in Ht. exact Ht.
  - intros p Hp. apply (Hfacts p Hp).
Qed.

(** [shape([{"id": None, "tags": ["x"]}, {"id": {"n": 0}, "tags": []}],
    key_patterns={"id": "ID"}, describe_numbers=True)]. *)
Lemma shape_returns_without_leaf_conflict_witness :
  exists t,
    shape literal_sub (Some [("id", "ID")]) true false
          (VSeq [VDict [("id", VNone); ("tags", VSeq [VStr "x"])];
                 VDict [("id", VDict [("n", VInt 0)]); ("tags", VSeq [])]])
    = Ok t.
Proof.
  eapply shape_returns_without_leaf_conflict.
  - reflexivity.
  - reflexivity.
  - reflexivity.
Defined.

(** Once the stages before the merge have returned, [shape] can raise
    two exceptions only: [TypeError], and then some position holds a
    scalar other than null in one place of the input and a mapping or a
    sequence in another; or [AttributeError], and then some position is
    reached through the empty string as a key in one place and through
    an index in another. *)
Theorem shape_merge_raises_on_conflict_or_clash :
  forall re_sub key_patterns describe_numbers sort data paths e,
    collapsed_paths re_sub key_patterns describe_numbers sort data = Ok paths ->
    shape re_sub key_patterns describe_numbers sort data = Err e ->
    (e = TypeError /\ no_leaf_conflict paths = false)
    \/ (e = AttributeError /\ no_key_clash paths = false).
Proof.
  intros re_sub key_patterns dn sort data paths e Hpaths Hshape.
  pose proof (collapsed_paths_facts _ _ _ _ _ _ Hpaths) as Hfacts.
  pose proof (collapsed_paths_Ok _ _ _ _ _ _ Hpaths) as Hassoc.
  unfold shape in Hshape. rewrite Hpaths in Hshape. cbn [bind] in Hshape.
  assert (Hold : assoc_merge_paths paths = Err e ->
                 e = TypeError /\ no_leaf_conflict paths = false).
  { intros H.
    apply (assoc_shape_merge_raises_only_TypeError
             re_sub key_patterns dn sort data paths e Hassoc).
    unfold assoc_shape. rewrite Hassoc. exact H. }
  destruct (no_key_clash paths) eqn:K.
  - left. apply Hold. rewrite <- (_merge_paths_agrees paths K); [exact Hshape|].
    intros p Hp. apply (Hfacts p Hp).
  - destruct (_merge_paths_refines paths) as [E|E]; rewrite E in Hshape.
    + left. apply Hold. exact Hshape.
    + right. injection Hshape as <-. split; reflexivity.
Qed.

(** [shape([5, {"a": 1}])] raises [TypeError], and [shape([{k: 1},
    ["x"]])] raises [AttributeError] when [k] is the empty string. *)
Lemma shape_merge_raises_on_conflict_or_clash_witness :
  ((TypeError = TypeError
    /\ no_leaf_conflict [[Index 0; Str "int"]; [Index 0; Str "a"; Str "int"]]
       = false)
   \/ (TypeError = AttributeError
       /\ no_key_clash [[Index 0; Str "int"]; [Index 0; Str "a"; Str "int"]]
          = false))
  /\ ((AttributeError = TypeError
       /\ no_leaf_conflict [[Index 0; Str EmptyString; Str "int"];
                            [Index 0; Index 0; Str "str"]]
          = false)
      \/ (AttributeError = AttributeError
          /\ no_key_clash [[Index 0; Str EmptyString; Str "int"];
                           [Index 0; Index 0; Str "str"]]
             = false)).
Proof.
  split.
  - apply (shape_merge_raises_on_conflict_or_clash literal_sub None false false
             (VSeq [VInt 5; VDict [("a", VInt 1)]])
             [[Index 0; Str "int"]; [Index 0; Str "a"; Str "int"]] TypeError);
      reflexivity.
  - apply (shape_merge_raises_on_conflict_or_clash literal_sub None false false
             (VSeq [VDict [(EmptyString, VInt 1)]; VSeq [VStr "x"]])
             [[Index 0; Str EmptyString; Str "int"];
              [Index 0; Index 0; Str "str"]] AttributeError);
      reflexivity.
Defined.

(** ** Positions of the accumulator *)

Section Positions.

Lemma node_at_app (pos q : Path) (n : Node) :
  node_at (pos ++ q) n
  = match node_at pos n with
    | Some c => node_at q c
    | None => None
    end.
Proof.
  revert n. induction pos as [|k pos IH]; intros n; simpl.
  - reflexivity.
  - destruct n as [x|d]; [reflexivity|].
    destruct (dict_get k d) as [[c|]|e]; [apply IH | reflexivity | reflexivity].
Qed.

(** A node found by the lookups of the loop is the node bound there. *)
Lemma node_at_assoc (pos : Path) :
  forall m n, node_at pos m = Some n -> assoc_node_at pos m = Some n.
Proof.
  induction pos as [|k pos IH]; intros m n H; simpl in *.
  - exact H.
  - destruct m as [x|d]; [discriminate H|].
    destruct (dict_get k d) as [[c|]|e] eqn:G; try discriminate H.
    apply dict_get_Ok in G. destruct G as [_ G]. rewrite G.
    apply IH. exact H.
Qed.

Lemma node_at_snoc (pos : Path) (k : Seg) (merged bound : Node) :
  node_at (pos ++ [k]) merged = Some bound ->
  exists d, node_at pos merged = Some (NDict d)
            /\ dict_get k d = Ok (Some bound).
Proof.
  rewrite node_at_app.
  destruct (node_at pos merged) as [[x|d]|]; simpl; intros H;
    try discriminate H.
  exists d. split; [reflexivity|].
  destruct (dict_get k d) as [[c|]|e]; try discriminate H.
  injection H as ->. reflexivity.
Qed.

Lemma node_at_snoc_set (pos : Path) (k : Seg) (merged' : Node)
                       (d : list (Seg * Node)) (n : Node) :
  clash_before k d = false ->
  node_at pos merged' = Some (NDict (assoc_set k n d)) ->
  node_at (pos ++ [k]) merged' = Some n.
Proof.
  intros C H. rewrite node_at_app, H. simpl.
  rewrite dict_get_spec, clash_before_set, C, assoc_get_set_same. reflexivity.
Qed.

(** A path of two items or more succeeds only on a dict. *)
Lemma descend_Ok_dict (a b : Seg) (rest : Path) (cur cur' : Node) :
  descend (a :: b :: rest) cur = Ok cur' -> exists d, cur = NDict d.
Proof.
  destruct cur as [x|d]; simpl; intros H.
  - discriminate H.
  - exists d. reflexivity.
Qed.

(** Walking into a fresh dict never fails and leaves a dict. *)
Lemma descend_fresh (a b : Seg) (rest : Path) :
  exists d, descend (a :: b :: rest) (NDict []) = Ok (NDict d).
Proof.
  revert a b. induction rest as [|c rest IH]; intros a b.
  - exists [(a, NLeaf b)]. rewrite descend_turn.
    cbn [clash_before assoc_get assoc_set bind]. rewrite seg_eqb_refl.
    cbn [descend bind assoc_set]. rewrite ?seg_eqb_refl. reflexivity.
  - destruct (IH b c) as [d Hd].
    exists [(a, NDict d)]. rewrite descend_turn.
    cbn [clash_before assoc_get assoc_set bind]. rewrite seg_eqb_refl.
    rewrite Hd. cbn [bind assoc_set]. rewrite ?seg_eqb_refl. reflexivity.
Qed.

(** The loop reaches the node stored at [pos] without touching what
    lies beside the way, and runs the rest of the path there. *)
Lemma descend_frame (pos : Path) (a b : Seg) (rest : Path)
                    (merged child child' : Node) :
  node_at pos merged = Some child ->
  descend (a :: b :: rest) child = Ok child' ->
  exists merged',
    descend (pos ++ a :: b :: rest) merged = Ok merged'
    /\ node_at pos merged' = Some child'
    /\ (child' = child -> merged' = merged).
Proof.
  revert merged.
  induction pos as [|k pos IH]; intros merged Hat Hrun.
  - simpl in Hat. injection Hat as ->.
    exists child'. repeat split; auto.
  - simpl in Hat. destruct merged as [x|d]; [discriminate Hat|].
    destruct (dict_get k d) as [[c|]|e] eqn:Hget; try discriminate Hat.
    apply dict_get_Ok in Hget. destruct Hget as [C Hget].
    destruct (IH c Hat Hrun) as (c' & Hc' & Hat' & Hsame).
    assert (Hdict : exists dc, c = NDict dc).
    { destruct pos as [|k' pos].
      - simpl in Hat. injection Hat as ->.
        apply (descend_Ok_dict a b rest child child'). exact Hrun.
      - simpl in Hat. destruct c as [x|dc]; [discriminate Hat|].
        exists dc. reflexivity. }
    destruct Hdict as [dc ->].
    assert (Hshape : exists r0 rest', pos ++ a :: b :: rest = r0 :: rest'
                                      /\ rest' <> []).
    { destruct pos as [|k' pos]; simpl.
      - exists a, (b :: rest). split; [reflexivity | discriminate].
      - exists k', (pos ++ a :: b :: rest). split; [reflexivity|].
        destruct pos; discriminate. }
    destruct Hshape as (r0 & rest' & Heq & Hne).
    exists (NDict (assoc_set k c' d)).
    simpl app. rewrite Heq in *. rewrite descend_turn, C.
    rewrite Hget. cbn [is_NoneType bind]. rewrite Hget. rewrite Hc'.
    cbn [bind]. repeat split.
    + simpl. rewrite dict_get_spec, clash_before_set, C, assoc_get_set_same.
      exact Hat'.
    + intros E. rewrite (Hsame E). rewrite (assoc_set_get_id k _ d Hget).
      reflexivity.
Qed.

(** A null leaf gives way to the label of a later path. *)
Lemma descend_replaces_null_by_leaf (pos : Path) (k x : Seg) (merged : Node) :
  node_at (pos ++ [k]) merged = Some (NLeaf (Str "NoneType")) ->
  exists merged',
    descend (pos ++ [k; x]) merged = Ok merged'
    /\ node_at (pos ++ [k]) merged' = Some (NLeaf x).
Proof.
  intros H. apply node_at_snoc in H. destruct H as (d & Hat & Hget).
  apply dict_get_Ok in Hget. destruct Hget as [C Hget].
  destruct (descend_frame pos k x [] merged (NDict d)
              (NDict (assoc_set k (NLeaf x) d)) Hat)
    as (merged' & Hrun & Hat' & _).
  { rewrite descend_turn, C. rewrite Hget. cbn [is_NoneType].
    rewrite String.eqb_refl. cbn [bind]. rewrite assoc_get_set_same.
    cbn [descend bind]. rewrite assoc_set_set. reflexivity. }
  exists merged'. split; [exact Hrun|].
  apply (node_at_snoc_set pos k merged' d _ C). exact Hat'.
Qed.

(** A null leaf gives way to the dict of a later, longer path. *)
Lemma descend_replaces_null_by_dict (pos : Path) (k a b : Seg) (rest : Path)
                                    (merged : Node) :
  node_at (pos ++ [k]) merged = Some (NLeaf (Str "NoneType")) ->
  exists merged' sub,
    descend (pos ++ k :: a :: b :: rest) merged = Ok merged'
    /\ node_at (pos ++ [k]) merged' = Some (NDict sub).
Proof.
  intros H. apply node_at_snoc in H. destruct H as (d & Hat & Hget).
  apply dict_get_Ok in Hget. destruct Hget as [C Hget].
  destruct (descend_fresh a b rest) as [sub Hsub].
  destruct (descend_frame pos k a (b :: rest) merged (NDict d)
              (NDict (assoc_set k (NDict sub) d)) Hat)
    as (merged' & Hrun & Hat' & _).
  { rewrite descend_turn, C. rewrite Hget. cbn [is_NoneType].
    rewrite String.eqb_refl. cbn [bind]. rewrite assoc_get_set_same.
    rewrite Hsub. cbn [bind]. rewrite assoc_set_set. reflexivity. }
  exists merged', sub. split; [exact Hrun|].
  apply (node_at_snoc_set pos k merged' d _ C). exact Hat'.
Qed.

(** What is bound and is not the null leaf stays, and so does the
    whole accumulator, when a later path brings null. *)
Lemma descend_keeps_non_null (pos : Path) (k : Seg) (merged bound : Node) :
  node_at (pos ++ [k]) merged = Some bound ->
  is_NoneType bound = Ok false ->
  descend (pos ++ [k; Str "NoneType"]) merged = Ok merged.
Proof.
  intros H Hnn. apply node_at_snoc in H. destruct H as (d & Hat & Hget).
  apply dict_get_Ok in Hget. destruct Hget as [C Hget].
  destruct (descend_frame pos k (Str "NoneType") [] merged (NDict d)
              (NDict d) Hat)
    as (merged' & Hrun & _ & Hsame).
  { rewrite descend_turn, C. rewrite Hget, Hnn. cbn [bind]. rewrite Hget.
    cbn [descend bind]. rewrite (assoc_set_get_id k bound d Hget).
    reflexivity. }
  rewrite Hrun, (Hsame eq_refl). reflexivity.
Qed.

End Positions.

(** C3. Null override.  [shape([None, 5])] and [shape([5, None])] both
    return the one-element list [["int"]].  In the merge loop, at any
    position of the accumulator, a leaf ["NoneType"] already bound is
    replaced by what a later path assigns there (its label, or a dict
    when the path goes on), and whatever is bound and is not the leaf
    ["NoneType"] is left as it is, with the rest of the accumulator,
    by a later path that ends there in ["NoneType"]. *)
Theorem null_override :
  (forall re_sub,
      shape re_sub None false false (VSeq [VNone; VInt 5])
      = Ok (SList [SLeaf (Str "int")])
      /\ shape re_sub None false false (VSeq [VInt 5; VNone])
         = Ok (SList [SLeaf (Str "int")]))
  /\ (forall pos k label merged,
         node_at (pos ++ [k]) merged = Some (NLeaf (Str "NoneType")) ->
         exists merged',
           descend (pos ++ [k; Str label]) merged = Ok merged'
           /\ node_at (pos ++ [k]) merged' = Some (NLeaf (Str label)))
  /\ (forall pos k a b rest merged,
         node_at (pos ++ [k]) merged = Some (NLeaf (Str "NoneType")) ->
         exists merged' sub,
           descend (pos ++ k :: a :: b :: rest) merged = Ok merged'
           /\ node_at (pos ++ [k]) merged' = Some (NDict sub))
  /\ (forall pos k merged bound,
         node_at (pos ++ [k]) merged = Some bound ->
         is_NoneType bound = Ok false ->
         descend (pos ++ [k; Str "NoneType"]) merged = Ok merged).
Proof.
  split; [|split; [|split]].
  - intros re_sub. split; reflexivity.
  - intros pos k label merged. apply descend_replaces_null_by_leaf.
  - intros pos k a b rest merged. apply descend_replaces_null_by_dict.
  - intros pos k merged bound. apply descend_keeps_non_null.
Qed.

(** The three general parts at work in the accumulator of
    [[{"a": None, "b": 1}]]. *)
Lemma null_override_witness :
  let merged :=
    NDict [(Index 0, NDict [(Str "a", NLeaf (Str "NoneType"));
                            (Str "b", NLeaf (Str "int"))])] in
  (exists merged',
      descend ([Index 0] ++ [Str "a"; Str "str"]) merged = Ok merged'
      /\ node_at ([Index 0] ++ [Str "a"]) merged' = Some (NLeaf (Str "str")))
  /\ (exists merged' sub,
         descend ([Index 0] ++ Str "a" :: Index 0 :: Str "x" :: [Str "int"]) merged
         = Ok merged'
         /\ node_at ([Index 0] ++ [Str "a"]) merged' = Some (NDict sub))
  /\ descend ([Index 0] ++ [Str "b"; Str "NoneType"]) merged = Ok merged.
Proof.
  intros merged.
  split; [|split].
  - apply (proj1 (proj2 null_override) [Index 0] (Str "a") "str" merged).
    reflexivity.
  - apply (proj1 (proj2 (proj2 null_override))
             [Index 0] (Str "a") (Index 0) (Str "x") [Str "int"] merged).
    reflexivity.
  - apply (proj2 (proj2 (proj2 null_override))
             [Index 0] (Str "b") merged (NLeaf (Str "int"))); reflexivity.
Defined.

(** ** What stays in the accumulator *)

Section Permanence.

(** A turn that returns has walked into what was bound under the key,
    or into a fresh node put in the place of nothing or of the null
    leaf; the child comes back under the key. *)
Lemma assoc_descend_turn_Ok (key r0 : Seg) (rest' : Path)
                            (d : list (Seg * Node)) (m' : Node) :
  assoc_descend (key :: r0 :: rest') (NDict d) = Ok m' ->
  exists child child',
    assoc_descend (r0 :: rest') child = Ok child'
    /\ m' = NDict (assoc_set key child' d)
    /\ ((assoc_get key d = Some child /\ is_NoneType child = Ok false)
        \/ (child = match rest' with [] => NLeaf r0 | _ :: _ => NDict [] end
            /\ (assoc_get key d = None
                \/ assoc_get key d = Some (NLeaf (Str "NoneType"))))).
Proof.
  rewrite assoc_descend_step. intros H.
  destruct (assoc_get key d) as [bound|] eqn:G.
  - destruct (is_NoneType bound) as [[|]|e] eqn:N; cbn [bind] in H;
      [| |discriminate H].
    + rewrite assoc_get_set_same in H.
      destruct (assoc_descend (r0 :: rest')
                  match rest' with [] => NLeaf r0 | _ :: _ => NDict [] end)
        as [child'|e] eqn:Hc; [|discriminate H].
      cbn [bind] in H. injection H as <-.
      eexists. exists child'. split; [exact Hc|].
      split; [rewrite assoc_set_set; reflexivity|].
      right. split; [reflexivity|]. right.
      rewrite (is_NoneType_true bound N). reflexivity.
    + rewrite G in H.
      destruct (assoc_descend (r0 :: rest') bound) as [child'|e] eqn:Hc;
        [|discriminate H].
      cbn [bind] in H. injection H as <-.
      exists bound, child'. split; [exact Hc|]. split; [reflexivity|].
      left. split; [reflexivity | exact N].
  - cbn [bind] in H. rewrite assoc_get_set_same in H.
    destruct (assoc_descend (r0 :: rest')
                match rest' with [] => NLeaf r0 | _ :: _ => NDict [] end)
      as [child'|e] eqn:Hc; [|discriminate H].
    cbn [bind] in H. injection H as <-.
    eexists. exists child'. split; [exact Hc|].
    split; [rewrite assoc_set_set; reflexivity|].
    right. split; [reflexivity|]. left. reflexivity.
Qed.

(** A position the lookups of the loop reach is reached after any
    further path is merged: keys keep their places and a new key goes
    behind them. *)
Lemma node_at_descend (q : Path) :
  forall pos m m' n,
    assoc_descend q m = Ok m' ->
    node_at pos m = Some n ->
    exists n', node_at pos m' = Some n'.
Proof.
  induction q as [|key q IH]; intros pos m m' n Hrun Hat.
  - simpl in Hrun. injection Hrun as <-. exists n. exact Hat.
  - destruct q as [|r0 rest'].
    + simpl in Hrun. injection Hrun as <-. exists n. exact Hat.
    + destruct m as [x|d]; [discriminate Hrun|].
      apply assoc_descend_turn_Ok in Hrun.
      destruct Hrun as (child & child' & Hc & -> & Hcase).
      destruct pos as [|k pos]; [eexists; reflexivity|].
      simpl in Hat.
      destruct (dict_get k d) as [[c|]|e] eqn:G; try discriminate Hat.
      simpl. rewrite (dict_get_set_bound k key child' c d G).
      destruct (seg_eqb key k) eqn:E.
      * apply seg_eqb_eq in E. subst k.
        apply dict_get_Ok in G. destruct G as [_ G].
        destruct Hcase as [[G' _]|[_ [G'|G']]]; rewrite G in G'.
        -- injection G' as ->. apply (IH pos child child' n Hc Hat).
        -- discriminate G'.
        -- injection G' as ->.
           destruct pos; [eexists; reflexivity | discriminate Hat].
      * exists n. exact Hat.
Qed.

Lemma node_at_merge_each (l : list Path) :
  forall pos m m' n,
    assoc_merge_each l m = Ok m' ->
    node_at pos m = Some n ->
    exists n', node_at pos m' = Some n'.
Proof.
  induction l as [|q l IH]; intros pos m m' n Hrun Hat; simpl in Hrun.
  - injection Hrun as <-. exists n. exact Hat.
  - destruct (assoc_descend q m) as [m1|e] eqn:Hq; [|discriminate Hrun].
    cbn [bind] in Hrun.
    destruct (node_at_descend q pos m m1 n Hq Hat) as [n1 H1].
    apply (IH pos m1 m' n1 Hrun H1).
Qed.

End Permanence.

(** The first type met at a position is the one kept.  Once a position
    of the accumulator holds a label other than ["NoneType"], merging
    any further paths leaves that label there; and a position that holds
    a dict goes on holding a dict. *)
Theorem first_non_null_type_is_kept :
  forall paths pos merged merged',
    merge_each paths merged = Ok merged' ->
    (forall s, s <> "NoneType" ->
               node_at pos merged = Some (NLeaf (Str s)) ->
               node_at pos merged' = Some (NLeaf (Str s)))
    /\ (forall d, node_at pos merged = Some (NDict d) ->
                  exists d', node_at pos merged' = Some (NDict d')).
Proof.
  intros paths pos merged merged' Hrun. apply merge_each_Ok in Hrun.
  destruct (assoc_first_non_null_type_is_kept paths pos merged merged' Hrun)
    as [Hl Hd].
  split.
  - intros s Hs H.
    destruct (node_at_merge_each paths pos merged merged' _ Hrun H) as [n' Hn'].
    pose proof (Hl s Hs (node_at_assoc pos merged _ H)) as E.
    rewrite (node_at_assoc pos merged' n' Hn') in E. rewrite Hn', E.
    reflexivity.
  - intros d H.
    destruct (node_at_merge_each paths pos merged merged' _ Hrun H) as [n' Hn'].
    destruct (Hd d (node_at_assoc pos merged _ H)) as [d' E].
    rewrite (node_at_assoc pos merged' n' Hn') in E. exists d'.
    rewrite Hn', E. reflexivity.
Qed.

(** The accumulator of [[{"a": 1}]] before and after the paths of
    [[{"a": 1.5}, {"b": "x"}, {"a": None}]] are merged into it. *)
Lemma first_non_null_type_is_kept_witness :
  let merged := NDict [(Index 0, NDict [(Str "a", NLeaf (Str "int"))])] in
  let merged' :=
    NDict [(Index 0, NDict [(Str "a", NLeaf (Str "int"));
                            (Str "b", NLeaf (Str "str"))])] in
  (forall s, s <> "NoneType" ->
             node_at [Index 0; Str "a"] merged = Some (NLeaf (Str s)) ->
             node_at [Index 0; Str "a"] merged' = Some (NLeaf (Str s)))
  /\ (forall d, node_at [Index 0; Str "a"] merged = Some (NDict d) ->
                exists d', node_at [Index 0; Str "a"] merged' = Some (NDict d')).
Proof.
  intros merged merged'.
  apply (first_non_null_type_is_kept
           [[Index 0; Str "a"; Str "float"];
            [Index 0; Str "b"; Str "str"];
            [Index 0; Str "a"; Str "NoneType"]]
           [Index 0; Str "a"] merged merged').
  reflexivity.
Defined.

(** ** Collapsing twice *)

Section CollapsedAgain.

(** What [dict.fromkeys] returns it returns again when it is given its
    own result: every lookup of the second run was made in the first. *)
Lemma fromkeys_again (l : list Path) :
  forall seen r,
    fromkeys [] seen = Ok seen ->
    fromkeys seen l = Ok r ->
    fromkeys [] r = Ok r.
Proof.
  induction l as [|a l IH]; intros seen r Hseen H; cbn [fromkeys] in H.
  - injection H as <-. exact Hseen.
  - destruct (tuple_in a seen) as [[|]|e] eqn:T; cbn [bind] in H;
      [| |discriminate H].
    + apply (IH seen r Hseen H).
    + apply (IH (seen ++ [a]) r); [|exact H].
      rewrite fromkeys_app, Hseen. cbn [bind fromkeys]. rewrite T.
      reflexivity.
Qed.

End CollapsedAgain.

(** The collapsing stage returns each collapsed path once, or raises
    on two collapsed paths of one hash.  When it returns, its result
    has no repeated path, holds exactly the input paths with every
    index set to 0, and is returned again by a second collapsing.
    When it raises, it raises [AttributeError], and two of the
    collapsed paths differ and have the same hash. *)
Theorem _collapse_paths_set_like :
  forall paths,
    match _collapse_paths paths with
    | Ok l =>
        NoDup l
        /\ (forall p, In p l <-> In p (map (map collapse_seg) paths))
        /\ (forall p, In p l -> forallb collapsed p = true)
        /\ _collapse_paths l = Ok l
    | Err e =>
        e = AttributeError
        /\ exists p q,
             In p (map (map collapse_seg) paths)
             /\ In q (map (map collapse_seg) paths)
             /\ tuple_clash p q = true
    end.
Proof.
  intros paths. destruct (_collapse_paths paths) as [l|e] eqn:H.
  - unfold _collapse_paths in H. pose proof (fromkeys_Ok _ _ _ H) as El.
    change (assoc_fromkeys [] (map (map collapse_seg) paths))
      with (assoc_collapse_paths paths) in El.
    destruct (assoc_collapse_paths_set_like paths) as (Hnd & Hin & Hcol & _).
    rewrite <- El in Hnd, Hin, Hcol.
    split; [exact Hnd|]. split; [exact Hin|]. split; [exact Hcol|].
    unfold _collapse_paths.
    assert (Hid : map (map collapse_seg) l = l).
    { rewrite <- (map_id l) at 2.
      apply map_ext_in. intros p Hp. apply Hin in Hp.
      apply in_map_iff in Hp. destruct Hp as (q & <- & _).
      rewrite map_map. apply map_ext. intros x.
      apply collapse_seg_idempotent. }
    rewrite Hid.
    apply (fromkeys_again (map (map collapse_seg) paths) [] l);
      [reflexivity | exact H].
  - unfold _collapse_paths in H. apply fromkeys_Err in H. exact H.
Qed.

(** ** Paths merged more than once *)

Section Reached.

Lemma reaches_step (k r0 : Seg) (rest' : Path) (d : list (Seg * Node)) :
  reaches (k :: r0 :: rest') (NDict d)
  = match dict_get k d with
    | Ok (Some c) => reaches (r0 :: rest') c
    | _ => false
    end.
Proof. reflexivity. Qed.

(** Where every key of a path is found, the loop raises on no lookup. *)
Lemma descend_reaches (p : Path) :
  forall m, reaches p m = true -> descend p m = assoc_descend p m.
Proof.
  induction p as [|key p IH]; intros m H; [reflexivity|].
  destruct p as [|r0 rest']; [reflexivity|].
  destruct m as [x|d]; [discriminate H|].
  rewrite reaches_step in H.
  destruct (dict_get key d) as [[c|]|e] eqn:G; try discriminate H.
  apply dict_get_Ok in G. destruct G as [C G].
  rewrite descend_turn, assoc_descend_step, C, G.
  destruct (is_NoneType c) as [[|]|e] eqn:N; cbn [bind]; [| |reflexivity].
  - apply is_NoneType_true in N. subst c.
    destruct rest' as [|r1 rest'']; [|discriminate H].
    rewrite assoc_get_set_same. reflexivity.
  - rewrite G. rewrite (IH c H). reflexivity.
Qed.

(** A turn of the loop that returns. *)
Lemma descend_turn_Ok (key r0 : Seg) (rest' : Path)
                      (d : list (Seg * Node)) (m' : Node) :
  descend (key :: r0 :: rest') (NDict d) = Ok m' ->
  clash_before key d = false
  /\ exists child child',
       descend (r0 :: rest') child = Ok child'
       /\ m' = NDict (assoc_set key child' d).
Proof.
  rewrite descend_turn. destruct (clash_before key d); [discriminate|].
  intros H. split; [reflexivity|].
  destruct (assoc_get key d) as [bound|] eqn:G.
  - destruct (is_NoneType bound) as [[|]|e] eqn:N; cbn [bind] in H;
      [| |discriminate H].
    + rewrite assoc_get_set_same in H.
      destruct (descend (r0 :: rest')
                  match rest' with [] => NLeaf r0 | _ :: _ => NDict [] end)
        as [child'|e] eqn:Hc; [|discriminate H].
      cbn [bind] in H. injection H as <-.
      eexists. exists child'. split; [exact Hc|].
      rewrite assoc_set_set. reflexivity.
    + rewrite G in H.
      destruct (descend (r0 :: rest') bound) as [child'|e] eqn:Hc;
        [|discriminate H].
      cbn [bind] in H. injection H as <-.
      exists bound, child'. split; [exact Hc | reflexivity].
  - cbn [bind] in H. rewrite assoc_get_set_same in H.
    destruct (descend (r0 :: rest')
                match rest' with [] => NLeaf r0 | _ :: _ => NDict [] end)
      as [child'|e] eqn:Hc; [|discriminate H].
    cbn [bind] in H. injection H as <-.
    eexists. exists child'. split; [exact Hc|].
    rewrite assoc_set_set. reflexivity.
Qed.

(** A merged path is reached. *)
Lemma descend_then_reaches (p : Path) :
  forall m m', descend p m = Ok m' -> reaches p m' = true.
Proof.
  induction p as [|key p IH]; intros m m' H; [reflexivity|].
  destruct p as [|r0 rest']; [reflexivity|].
  destruct m as [x|d]; [discriminate H|].
  apply descend_turn_Ok in H.
  destruct H as (C & child & child' & Hc & ->).
  rewrite reaches_step, dict_get_spec, clash_before_set, C, assoc_get_set_same.
  apply (IH child child' Hc).
Qed.

(** What is reached stays so when another path is merged. *)
Lemma reaches_stable (p : Path) :
  forall q m m',
    reaches p m = true ->
    assoc_descend q m = Ok m' ->
    reaches p m' = true.
Proof.
  induction p as [|k p IH]; intros q m m' H Hrun; [reflexivity|].
  destruct p as [|r0 rest']; [reflexivity|].
  destruct m as [x|d]; [discriminate H|].
  destruct q as [|key [|s0 srest]];
    try (injection Hrun as <-; exact H).
  apply assoc_descend_turn_Ok in Hrun.
  destruct Hrun as (child & child' & Hc & -> & Hcase).
  rewrite reaches_step in H |- *.
  destruct (dict_get k d) as [[c|]|e] eqn:G; try discriminate H.
  rewrite (dict_get_set_bound k key child' c d G).
  destruct (seg_eqb key k) eqn:E; [|exact H].
  apply seg_eqb_eq in E. subst k.
  apply dict_get_Ok in G. destruct G as [_ G].
  destruct Hcase as [[G' _]|[_ [G'|G']]]; rewrite G in G'.
  - injection G' as ->. apply (IH (s0 :: srest) child child' H Hc).
  - discriminate G'.
  - injection G' as ->.
    destruct rest' as [|r1 rest'']; [reflexivity | discriminate H].
Qed.

Lemma merge_each_app (l1 l2 : list Path) :
  forall m,
    merge_each (l1 ++ l2) m = (m1 <- merge_each l1 m ;; merge_each l2 m1).
Proof.
  induction l1 as [|p l1 IH]; intros m; simpl.
  - reflexivity.
  - destruct (descend p m) as [m'|e]; [|reflexivity]. cbn [bind]. apply IH.
Qed.

Lemma merge_each_stable (l : list Path) :
  forall p m m',
    reaches p m = true ->
    merge_each l m = Ok m' ->
    reaches p m' = true.
Proof.
  induction l as [|q l IH]; intros p m m' H Hrun; simpl in Hrun.
  - injection Hrun as <-. exact H.
  - destruct (descend q m) as [m1|e] eqn:Hq; [|discriminate Hrun].
    cbn [bind] in Hrun. apply (IH p m1 m'); [|exact Hrun].
    apply (reaches_stable p q m m1 H). apply descend_Ok. exact Hq.
Qed.

Lemma merge_each_reaches (l : list Path) :
  forall m m',
    merge_each l m = Ok m' ->
    forall p, In p l -> reaches p m' = true.
Proof.
  induction l as [|q l IH]; intros m m' Hrun p Hp; simpl in Hrun.
  - destruct Hp.
  - destruct (descend q m) as [m1|e] eqn:Hq; [|discriminate Hrun].
    cbn [bind] in Hrun. destruct Hp as [<-|Hp].
    + apply (merge_each_stable l q m1 m'); [|exact Hrun].
      apply (descend_then_reaches q m m1 Hq).
    + apply (IH m1 m' Hrun p Hp).
Qed.

(** Merging a path again changes nothing and raises nothing. *)
Lemma merge_each_again (l : list Path) (a : Path) (m m' : Node) :
  (forall q, In q l -> ends_str q = true) ->
  merge_each l m = Ok m' ->
  In a l ->
  descend a m' = Ok m'.
Proof.
  intros Hl Hrun Ha.
  rewrite (descend_reaches a m' (merge_each_reaches l m m' Hrun a Ha)).
  apply covered_descend.
  apply (assoc_merge_each_covers l m m' Hl (merge_each_Ok l m m' Hrun) a Ha).
Qed.

(** Merging a list gives what merging it without its repeats gives. *)
Lemma merge_each_fromkeys (l : list Path) :
  forall seen r m,
    (forall q, In q seen -> ends_str q = true) ->
    (forall q, In q l -> ends_str q = true) ->
    fromkeys seen l = Ok r ->
    merge_each r m = merge_each (seen ++ l) m.
Proof.
  induction l as [|a l IH]; intros seen r m Hseen Hl H; cbn [fromkeys] in H.
  - injection H as <-. rewrite app_nil_r. reflexivity.
  - assert (Hl' : forall q, In q l -> ends_str q = true).
    { intros q Hq. apply Hl. right. exact Hq. }
    rewrite tuple_in_spec in H.
    destruct (clash_among a seen); [discriminate H|]. cbn [bind] in H.
    destruct (existsb (path_eqb a) seen) eqn:E.
    + rewrite (IH seen r m Hseen Hl' H).
      rewrite !merge_each_app.
      destruct (merge_each seen m) as [m1|e] eqn:Hm; [|reflexivity].
      cbn [bind merge_each].
      apply existsb_path_eqb in E.
      rewrite (merge_each_again seen a m m1 Hseen Hm E).
      reflexivity.
    + rewrite (IH (seen ++ [a]) r m).
      * rewrite <- app_assoc. reflexivity.
      * intros q Hq. apply in_app_or in Hq.
        destruct Hq as [Hq|[<-|[]]]; [apply Hseen; exact Hq|].
        apply Hl. left. reflexivity.
      * exact Hl'.
      * exact H.
Qed.

End Reached.

(** Removing the repeated paths does not show in the result: on paths
    that end in a label, once [_collapse_paths] has returned,
    [_merge_paths] returns (or raises) the same with the collapsed
    paths deduplicated as with every one of them kept. *)
Theorem _merge_paths_ignores_repeats :
  forall paths collapsed,
    (forall p, In p paths -> ends_str p = true) ->
    _collapse_paths paths = Ok collapsed ->
    _merge_paths collapsed = _merge_paths (map (map collapse_seg) paths).
Proof.
  intros paths l Hend H. unfold _merge_paths. unfold _collapse_paths in H.
  rewrite (merge_each_fromkeys (map (map collapse_seg) paths) [] l (NDict []));
    [reflexivity| | |exact H].
  - intros q [].
  - intros q Hq. apply in_map_iff in Hq. destruct Hq as (p & <- & Hp).
    rewrite collapse_seg_ends_str. apply Hend. exact Hp.
Qed.

(** The paths of [[{"a": None}, {"a": 1}, {"a": 2}, {"a": None}]]. *)
Lemma _merge_paths_ignores_repeats_witness :
  _merge_paths [[Index 0; Str "a"; Str "NoneType"];
                [Index 0; Str "a"; Str "int"]]
  = _merge_paths (map (map collapse_seg)
                  [[Index 0; Str "a"; Str "NoneType"];
                   [Index 1; Str "a"; Str "int"];
                   [Index 2; Str "a"; Str "int"];
                   [Index 3; Str "a"; Str "NoneType"]]).
Proof.
  apply _merge_paths_ignores_repeats.
  - intros p Hp. simpl in Hp.
    destruct Hp as [<-|[<-|[<-|[<-|[]]]]]; reflexivity.
  - reflexivity.
Defined.

(** ** Labels without their qualifier, merged *)

Section EraseMerged.

Lemma clash_before_node_map (f : Seg -> Seg) (k : Seg) (d : list (Seg * Node)) :
  clash_before k (map (fun '(k, v) => (k, node_map f v)) d) = clash_before k d.
Proof.
  induction d as [|[k' v'] d IH]; simpl.
  - reflexivity.
  - rewrite IH. reflexivity.
Qed.

(** Taking the qualifiers off the labels first and merging, or merging
    and taking them off the leaves, comes to the same: the keys, and
    with them the lookups, are the same. *)
Lemma descend_erase (p : Path) :
  forall m,
    descend (erase_last p) (node_map erase_seg m)
    = result_map (node_map erase_seg) (descend p m).
Proof.
  induction p as [|k p IH]; intros m; [reflexivity|].
  destruct p as [|r0 rest']; [reflexivity|].
  rewrite erase_last_cons by discriminate.
  destruct (erase_last_shape r0 rest') as (r0' & reste & E & Hnode).
  destruct m as [x|d].
  { rewrite E. reflexivity. }
  pose proof IH as IH'. rewrite E in IH'.
  rewrite E. cbn [node_map]. rewrite !descend_turn.
  rewrite clash_before_node_map.
  destruct (clash_before k d); [reflexivity|].
  rewrite Hnode, assoc_get_node_map.
  destruct (assoc_get k d) as [bound|] eqn:Hget; cbn [option_map].
  - rewrite is_NoneType_erase.
    destruct (is_NoneType bound) as [[|]|e]; cbn [bind result_map];
      [| |reflexivity].
    + rewrite assoc_set_node_map, assoc_get_node_map, !assoc_get_set_same.
      cbn [option_map]. rewrite IH'.
      destruct (descend (r0 :: rest') _) as [c|e]; cbn [bind result_map];
        [|reflexivity].
      rewrite assoc_set_node_map. reflexivity.
    + rewrite assoc_get_node_map, Hget. cbn [option_map]. rewrite IH'.
      destruct (descend (r0 :: rest') bound) as [c|e]; cbn [bind result_map];
        [|reflexivity].
      rewrite assoc_set_node_map. reflexivity.
  - cbn [bind]. rewrite assoc_set_node_map, assoc_get_node_map, !assoc_get_set_same.
    cbn [option_map]. rewrite IH'.
    destruct (descend (r0 :: rest') _) as [c|e]; cbn [bind result_map];
      [|reflexivity].
    rewrite assoc_set_node_map. reflexivity.
Qed.

Lemma merge_each_erase (l : list Path) :
  forall m,
    merge_each (map erase_last l) (node_map erase_seg m)
    = result_map (node_map erase_seg) (merge_each l m).
Proof.
  induction l as [|p l IH]; intros m; [reflexivity|].
  cbn [map merge_each]. rewrite descend_erase.
  destruct (descend p m) as [m1|e]; cbn [bind result_map];
    [apply IH | reflexivity].
Qed.

(** [_merge_paths] on paths without their qualifiers. *)
Lemma _merge_paths_erase (l : list Path) :
  _merge_paths (map erase_last l)
  = result_map (shape_map erase_seg) (_merge_paths l).
Proof.
  unfold _merge_paths.
  change (NDict []) with (node_map erase_seg (NDict [])) at 1.
  rewrite merge_each_erase.
  destruct (merge_each l (NDict [])) as [m|e]; cbn [bind result_map];
    [|reflexivity].
  rewrite _convert_lists_node_map. reflexivity.
Qed.

End EraseMerged.

(** [describe_numbers] changes labels and nothing else: whenever
    [_collapse_paths] returns in both calls, [shape(data,
    describe_numbers=True)] and [shape(data)] agree once the [:zero]
    and [:nonzero] qualifiers are taken off the labels of the results,
    in what they return and in whether they raise. *)
Theorem describe_numbers_only_qualifies :
  forall re_sub data qualified unqualified,
    collapsed_paths re_sub None true false data = Ok qualified ->
    collapsed_paths re_sub None false false data = Ok unqualified ->
    result_map (shape_map erase_seg) (shape re_sub None true false data)
    = result_map (shape_map erase_seg) (shape re_sub None false false data).
Proof.
  intros re_sub data p1 p2 H1 H2.
  assert (Hc : forall dn,
             collapsed_paths re_sub None dn false data
             = _collapse_paths (_get_paths dn data [])).
  { intros dn. unfold collapsed_paths.
    rewrite _apply_patterns_None. cbn [bind].
    rewrite (_describe_numbers_ok dn _ (_get_paths_ends_str dn data)).
    reflexivity. }
  assert (H : forall dn l,
             collapsed_paths re_sub None dn false data = Ok l ->
             result_map (shape_map erase_seg) (shape re_sub None dn false data)
             = _merge_paths
                 (map (map collapse_seg)
                      (map erase_last (_get_paths dn data [])))).
  { intros dn l Hl. unfold shape. rewrite Hl. cbn [bind].
    rewrite Hc in Hl. unfold _collapse_paths in Hl.
    assert (E : _merge_paths l
                = _merge_paths (map (map collapse_seg) (_get_paths dn data []))).
    { unfold _merge_paths.
      rewrite (merge_each_fromkeys (map (map collapse_seg) (_get_paths dn data []))
                 [] l (NDict [])); [reflexivity| | |exact Hl].
      - intros q [].
      - intros q Hq. apply in_map_iff in Hq. destruct Hq as (p & <- & Hp).
        rewrite collapse_seg_ends_str. apply (_get_paths_ends_str dn data p Hp). }
    rewrite E, <- _merge_paths_erase. f_equal.
    rewrite !map_map. apply map_ext. intros p. symmetry.
    apply collapse_erase_last. }
  rewrite (H true p1 H1), (H false p2 H2), _get_paths_erase. reflexivity.
Qed.

(** [shape([{"n": 0}, {"n": 3.5, "s": "x"}], describe_numbers=True)]
    against [shape([{"n": 0}, {"n": 3.5, "s": "x"}])]. *)
Lemma describe_numbers_only_qualifies_witness :
  result_map (shape_map erase_seg)
    (shape literal_sub None true false
       (VSeq [VDict [("n", VInt 0)];
              VDict [("n", VFloat float_3_5); ("s", VStr "x")]]))
  = result_map (shape_map erase_seg)
      (shape literal_sub None false false
         (VSeq [VDict [("n", VInt 0)];
                VDict [("n", VFloat float_3_5); ("s", VStr "x")]])).
Proof.
  eapply describe_numbers_only_qualifies; reflexivity.
Defined.
